(** * Conference-Agent: response recovery, fragment combination,
      chained batch coordination and status polling.

    Shallow embedding of [conferenceScheduler.js] (the Lightning web
    component of the repository) together with the properties its
    specification states about it.

    Conventions of the embedding.
    - A JavaScript string is a list of UTF-16 code units, each an [N].
    - [JSON.parse] / [JSON.stringify] are modelled on the value type
      [JSON]; a number is an IEEE 754 binary64 value, with the
      operations of the Standard Library's [SpecFloat] at precision 53
      and maximal exponent 1024.
    - A JavaScript exception is an explicit [None] (or [Throw]) result
      that the enclosing [try]/[catch] of the source inspects; the
      conversion of a parsed object to a string or to a date throws
      when the object has a [toString] property of its own.
    - The time value of [new Date(x)] for a primitive [x] is a
      parameter ([Date_parse]) of the functions that compute a time
      range; the locale formatting of a date is a parameter of the
      functions that build the rows of the table. *)

From Stdlib Require Import Ascii String.
From Stdlib Require Import List ZArith NArith Bool Lia Lqa QArith Qminmax Qabs.
From Stdlib Require Import DecimalN SpecFloat.
Import ListNotations.

Set Implicit Arguments.

(* ================================================================== *)
(** * Part I.  Definitions                                             *)
(* ================================================================== *)

(** ** Characters and text *)

Definition char := N.
Definition text := list char.

Definition ch (a : ascii) : char := N_of_ascii a.

Open Scope N_scope.

Definition c_lbrace : char := Eval cbv in ch "{".
Definition c_rbrace : char := Eval cbv in ch "}".
Definition c_lbrack : char := Eval cbv in ch "[".
Definition c_rbrack : char := Eval cbv in ch "]".
Definition c_bslash : char := Eval cbv in ch "\".
Definition c_comma  : char := Eval cbv in ch ",".
Definition c_colon  : char := Eval cbv in ch ":".
Definition c_apos   : char := Eval cbv in ch "'".
(** The double quote, code unit 34. *)
Definition c_quote  : char := 34.

(** Text of a Rocq string literal, code unit by code unit. *)
Fixpoint txt (s : string) : text :=
  match s with
  | EmptyString => []
  | String a r => ch a :: txt r
  end.

(** Payloads are written with an apostrophe standing for the double
    quote: [js "{'a':1}"] is the seven code units of the JSON text. *)
Definition js (s : string) : text :=
  map (fun c => if c =? c_apos then c_quote else c) (txt s).

Fixpoint text_eqb (a b : text) : bool :=
  match a, b with
  | [], [] => true
  | x :: a', y :: b' => (x =? y) && text_eqb a' b'
  | _, _ => false
  end.

(** White space of [String.prototype.trim] and of the regular
    expression class [\s]. *)
Definition is_space (c : char) : bool :=
  ((9 <=? c) && (c <=? 13)) || (c =? 32) || (c =? 160) || (c =? 5760)
  || ((8192 <=? c) && (c <=? 8202)) || (c =? 8232) || (c =? 8233)
  || (c =? 8239) || (c =? 8287) || (c =? 12288) || (c =? 65279).

(** White space of the JSON grammar: tab, line feed, carriage return,
    space. *)
Definition is_json_ws (c : char) : bool :=
  (c =? 9) || (c =? 10) || (c =? 13) || (c =? 32).

Definition is_digit (c : char) : bool := (48 <=? c) && (c <=? 57).

Fixpoint dropWhile {A} (f : A -> bool) (l : list A) : list A :=
  match l with
  | [] => []
  | x :: r => if f x then dropWhile f r else l
  end.

Definition dropWhileEnd {A} (f : A -> bool) (l : list A) : list A :=
  rev (dropWhile f (rev l)).

(** [s.trim()] *)
Definition trim (s : text) : text := dropWhileEnd is_space (dropWhile is_space s).

(** [s.startsWith(p)] *)
Fixpoint startsWith (s p : text) : bool :=
  match p, s with
  | [], _ => true
  | y :: p', x :: s' => (x =? y) && startsWith s' p'
  | _ :: _, [] => false
  end.

(** [s.endsWith(p)] *)
Definition endsWith (s p : text) : bool := startsWith (rev s) (rev p).

(** [s.indexOf(p)], [None] for -1. *)
Fixpoint indexOf (s p : text) : option nat :=
  if startsWith s p then Some 0%nat
  else match s with
       | [] => None
       | _ :: s' => option_map S (indexOf s' p)
       end.

(** [s.includes(p)] *)
Definition includes (s p : text) : bool :=
  match indexOf s p with Some _ => true | None => false end.

(** [s.substring(i)] and [s.substring(0, n)] *)
Definition substring_from (s : text) (i : nat) : text := skipn i s.
Definition substring_to (s : text) (n : nat) : text := firstn n s.

(** [s.replace(/p/g, r)] for a literal, non-empty pattern [p]: matches
    are taken left to right and do not overlap. *)
Fixpoint replaceAll_skip (p r : text) (skip : nat) (s : text) : text :=
  match s with
  | [] => []
  | c :: s' =>
      match skip with
      | S k => replaceAll_skip p r k s'
      | O =>
          if startsWith s p
          then r ++ replaceAll_skip p r (Nat.pred (length p)) s'
          else c :: replaceAll_skip p r O s'
      end
  end.

Definition replaceAll (p r s : text) : text := replaceAll_skip p r 0 s.

(** ** JSON values *)

Set Warnings "-register-all".

(** A number is an IEEE 754 binary64 value. *)
Definition num := spec_float.

Definition prec : Z := 53.
Definition emax : Z := 1024.

Inductive JSON :=
| JNull
| JBool (b : bool)
| JNum (n : num)
| JStr (s : text)
| JArr (l : list JSON)
| JObj (m : list (text * JSON)).

(** The number nearest to [m * 10 ^ e], ties to even, with the sign
    [neg]: the value of a decimal literal. *)
Definition num_of_decimal (neg : bool) (m : N) (e : Z) : num :=
  match m with
  | N0 => S754_zero neg
  | Npos p =>
      match e with
      | Zneg d =>
          let '(mz, ez, lz) :=
            SFdiv_core_binary prec emax (Zpos p) 0 (Zpos (10 ^ d)) 0 in
          binary_round_aux prec emax neg mz ez lz
      | _ => binary_round prec emax neg (p * Z.to_pos (10 ^ e))%positive 0
      end
  end.

(** The number nearest to an integer. *)
Definition num_of_Z (z : Z) : num := binary_normalize prec emax z 0 false.

Definition num_of_nat (n : nat) : num := num_of_Z (Z.of_nat n).

(** The value of a finite number, as a rational. *)
Definition num_value (x : num) : Q :=
  match x with
  | S754_finite s m e =>
      let v := match e with
               | Zneg d => Zpos m # (2 ^ d)
               | _ => inject_Z (Zpos m * 2 ^ e)
               end in
      if s then Qopp v else v
  | _ => 0%Q
  end.

(** Equality of two numbers as entries of a [Set] (SameValueZero):
    [NaN] is the same as [NaN], and the two zeros are the same. *)
Definition num_eqb (a b : num) : bool :=
  match a, b with
  | S754_nan, S754_nan => true
  | _, _ => SFeqb a b
  end.

Definition num_add (a b : num) : num := SFadd prec emax a b.

(** [Boolean(x)] for a number: neither a zero nor [NaN]. *)
Definition num_truthy (x : num) : bool :=
  match x with
  | S754_zero _ | S754_nan => false
  | _ => true
  end.

(** ** [JSON.parse]: the lexer *)

Definition digit_val (c : char) : Z := Z.of_N (c - 48).

Fixpoint digits_val (ds : text) (acc : Z) : Z :=
  match ds with
  | [] => acc
  | c :: r => digits_val r (acc * 10 + digit_val c)%Z
  end.

Fixpoint take_digits (s : text) : text * text :=
  match s with
  | c :: r =>
      if is_digit c then let (d, r') := take_digits r in (c :: d, r')
      else ([], s)
  | [] => ([], [])
  end.

Definition is_nil {A} (l : list A) : bool :=
  match l with [] => true | _ => false end.

(** The JSON number grammar on a whole token: an optional minus sign;
    an integer part that is a single 0 or starts with a non-zero digit;
    an optional fraction (a dot and at least one digit); an optional
    exponent (e or E, an optional sign, at least one digit). *)
Definition parse_number (s : text) : option num :=
  let (neg, s1) :=
    match s with
    | c :: r => if c =? 45 then (true, r) else (false, s)
    | [] => (false, s)
    end in
  let (ip, s2) := take_digits s1 in
  let int_ok :=
    match ip with
    | [] => false
    | c :: r => negb (c =? 48) || is_nil r
    end in
  if negb int_ok then None else
  let frac :=
    match s2 with
    | c :: r =>
        if c =? 46
        then let (fp, r') := take_digits r in
             if is_nil fp then None else Some (fp, r')
        else Some ([], s2)
    | [] => Some ([], s2)
    end in
  match frac with
  | None => None
  | Some (fp, s3) =>
      let ex :=
        match s3 with
        | [] => Some 0%Z
        | c :: r =>
            if (c =? 101) || (c =? 69) then
              let (eneg, r1) :=
                match r with
                | d :: r' =>
                    if d =? 45 then (true, r')
                    else if d =? 43 then (false, r') else (false, r)
                | [] => (false, r)
                end in
              let (ed, r2) := take_digits r1 in
              if is_nil ed || negb (is_nil r2) then None
              else Some (if eneg then - digits_val ed 0 else digits_val ed 0)%Z
            else None
        end in
      match ex with
      | None => None
      | Some e =>
          let m := digits_val (ip ++ fp) 0 in
          Some (num_of_decimal neg (Z.to_N m) (e - Z.of_nat (length fp))%Z)
      end
  end.

Definition is_numchar (c : char) : bool :=
  is_digit c || (c =? 45) || (c =? 43) || (c =? 46) || (c =? 101) || (c =? 69).

Definition is_lower (c : char) : bool := (97 <=? c) && (c <=? 122).

Definition hex_val (c : char) : option N :=
  if is_digit c then Some (c - 48)
  else if (97 <=? c) && (c <=? 102) then Some (c - 87)
  else if (65 <=? c) && (c <=? 70) then Some (c - 55)
  else None.

Inductive token :=
| TLBrace | TRBrace | TLBrack | TRBrack | TComma | TColon
| TStr (s : text)
| TScalar (v : JSON).

(** State of the lexer between two code units; the accumulators hold
    the current token in reverse. *)
Inductive lexst :=
| LIdle
| LStr (acc : text)
| LEsc (acc : text)
| LUni (acc : text) (k : nat) (v : N)
| LNum (acc : text)
| LWord (acc : text).

Definition word_token (w : text) : option token :=
  if text_eqb w (txt "true") then Some (TScalar (JBool true))
  else if text_eqb w (txt "false") then Some (TScalar (JBool false))
  else if text_eqb w (txt "null") then Some (TScalar JNull)
  else None.

(** End of the current token, at a delimiter or at the end of input. *)
Definition lex_flush (st : lexst) (toks : list token) : option (list token) :=
  match st with
  | LIdle => Some toks
  | LNum acc =>
      match parse_number (rev acc) with
      | Some n => Some (TScalar (JNum n) :: toks)
      | None => None
      end
  | LWord acc =>
      match word_token (rev acc) with
      | Some t => Some (t :: toks)
      | None => None
      end
  | LStr _ | LEsc _ | LUni _ _ _ => None
  end.

Definition lex_idle (c : char) (toks : list token) : option (lexst * list token) :=
  if is_json_ws c then Some (LIdle, toks)
  else if c =? c_lbrace then Some (LIdle, TLBrace :: toks)
  else if c =? c_rbrace then Some (LIdle, TRBrace :: toks)
  else if c =? c_lbrack then Some (LIdle, TLBrack :: toks)
  else if c =? c_rbrack then Some (LIdle, TRBrack :: toks)
  else if c =? c_comma then Some (LIdle, TComma :: toks)
  else if c =? c_colon then Some (LIdle, TColon :: toks)
  else if c =? c_quote then Some (LStr [], toks)
  else if (c =? 45) || is_digit c then Some (LNum [c], toks)
  else if is_lower c then Some (LWord [c], toks)
  else None.

Definition lex_escape (c : char) : option char :=
  if c =? c_quote then Some c_quote
  else if c =? c_bslash then Some c_bslash
  else if c =? 47 then Some 47
  else if c =? 98 then Some 8
  else if c =? 102 then Some 12
  else if c =? 110 then Some 10
  else if c =? 114 then Some 13
  else if c =? 116 then Some 9
  else None.

Definition lex_step (st : lexst) (toks : list token) (c : char)
  : option (lexst * list token) :=
  match st with
  | LIdle => lex_idle c toks
  | LStr acc =>
      if c =? c_quote then Some (LIdle, TStr (rev acc) :: toks)
      else if c =? c_bslash then Some (LEsc acc, toks)
      else if c <? 32 then None
      else Some (LStr (c :: acc), toks)
  | LEsc acc =>
      if c =? 117 then Some (LUni acc 4 0, toks)
      else match lex_escape c with
           | Some e => Some (LStr (e :: acc), toks)
           | None => None
           end
  | LUni acc k v =>
      match hex_val c with
      | None => None
      | Some h =>
          match k with
          | O => None
          | S O => Some (LStr ((v * 16 + h) :: acc), toks)
          | S k' => Some (LUni acc k' (v * 16 + h), toks)
          end
      end
  | LNum acc =>
      if is_numchar c then Some (LNum (c :: acc), toks)
      else match lex_flush st toks with
           | Some toks' => lex_idle c toks'
           | None => None
           end
  | LWord acc =>
      if is_lower c then Some (LWord (c :: acc), toks)
      else match lex_flush st toks with
           | Some toks' => lex_idle c toks'
           | None => None
           end
  end.

Fixpoint lex_run (st : lexst) (toks : list token) (s : text)
  : option (lexst * list token) :=
  match s with
  | [] => Some (st, toks)
  | c :: r =>
      match lex_step st toks c with
      | Some (st', toks') => lex_run st' toks' r
      | None => None
      end
  end.

Definition lex (s : text) : option (list token) :=
  match lex_run LIdle [] s with
  | Some (st, toks) => option_map (@rev token) (lex_flush st toks)
  | None => None
  end.

(** ** [JSON.parse]: the parser *)

(** Property order of a JavaScript object: array-index keys first, in
    ascending order, then the other keys in order of creation; assigning
    to an existing key keeps its place. *)
Definition index_of_key (k : text) : option N :=
  match k with
  | [] => None
  | c :: r =>
      if forallb is_digit k && (negb (c =? 48) || is_nil r)
      then let v := Z.to_N (digits_val k 0) in
           if v <? 4294967295 then Some v else None
      else None
  end.

Fixpoint obj_has (k : text) (m : list (text * JSON)) : bool :=
  match m with
  | [] => false
  | (k', _) :: r => text_eqb k' k || obj_has k r
  end.

Fixpoint obj_replace (k : text) (v : JSON) (m : list (text * JSON)) :=
  match m with
  | [] => []
  | (k', v') :: r =>
      if text_eqb k' k then (k', v) :: r else (k', v') :: obj_replace k v r
  end.

Fixpoint obj_insert_index (i : N) (k : text) (v : JSON) (m : list (text * JSON)) :=
  match m with
  | [] => [(k, v)]
  | (k', v') :: r =>
      match index_of_key k' with
      | Some j => if j <? i then (k', v') :: obj_insert_index i k v r
                  else (k, v) :: m
      | None => (k, v) :: m
      end
  end.

Definition obj_set (k : text) (v : JSON) (m : list (text * JSON)) :=
  if obj_has k m then obj_replace k v m
  else match index_of_key k with
       | Some i => obj_insert_index i k v m
       | None => m ++ [(k, v)]
       end.

Definition mkobj (pairs : list (text * JSON)) : JSON :=
  JObj (fold_left (fun m kv => obj_set (fst kv) (snd kv) m) pairs []).

(** A container under construction; members are accumulated in
    reverse, [pending] is the key whose value is being read. *)
Inductive frame :=
| FArr (acc : list JSON)
| FObj (acc : list (text * JSON)) (pending : option text).

Inductive pmode :=
| PValue       (* a value must follow *)
| PFirstElem   (* just after [: a value or ] *)
| PFirstKey    (* just after {: a key or } *)
| PKey         (* after a comma in an object *)
| PColon       (* after a key *)
| PAfter       (* after a value inside a container *)
| PDone (v : JSON).

Definition deliver (v : JSON) (stack : list frame) : option (pmode * list frame) :=
  match stack with
  | [] => Some (PDone v, [])
  | FArr acc :: st => Some (PAfter, FArr (v :: acc) :: st)
  | FObj acc (Some k) :: st => Some (PAfter, FObj ((k, v) :: acc) None :: st)
  | FObj _ None :: _ => None
  end.

Definition parse_value_token (first : bool) (stack : list frame) (t : token)
  : option (pmode * list frame) :=
  match t with
  | TScalar v => deliver v stack
  | TStr s => deliver (JStr s) stack
  | TLBrack => Some (PFirstElem, FArr [] :: stack)
  | TLBrace => Some (PFirstKey, FObj [] None :: stack)
  | TRBrack =>
      if first then
        match stack with
        | FArr [] :: st => deliver (JArr []) st
        | _ => None
        end
      else None
  | _ => None
  end.

Definition parse_step (m : pmode) (stack : list frame) (t : token)
  : option (pmode * list frame) :=
  match m with
  | PValue => parse_value_token false stack t
  | PFirstElem => parse_value_token true stack t
  | PFirstKey =>
      match t, stack with
      | TStr k, FObj acc None :: st => Some (PColon, FObj acc (Some k) :: st)
      | TRBrace, FObj [] None :: st => deliver (JObj []) st
      | _, _ => None
      end
  | PKey =>
      match t, stack with
      | TStr k, FObj acc None :: st => Some (PColon, FObj acc (Some k) :: st)
      | _, _ => None
      end
  | PColon =>
      match t with
      | TColon => Some (PValue, stack)
      | _ => None
      end
  | PAfter =>
      match stack, t with
      | FArr acc :: st, TComma => Some (PValue, stack)
      | FArr acc :: st, TRBrack => deliver (JArr (rev acc)) st
      | FObj acc None :: st, TComma => Some (PKey, stack)
      | FObj acc None :: st, TRBrace => deliver (mkobj (rev acc)) st
      | _, _ => None
      end
  | PDone _ => None
  end.

Fixpoint parse_run (m : pmode) (stack : list frame) (ts : list token)
  : option (pmode * list frame) :=
  match ts with
  | [] => Some (m, stack)
  | t :: r =>
      match parse_step m stack t with
      | Some (m', stack') => parse_run m' stack' r
      | None => None
      end
  end.

Definition parse_tokens (ts : list token) : option JSON :=
  match parse_run PValue [] ts with
  | Some (PDone v, []) => Some v
  | _ => None
  end.

(** [JSON.parse(s)]; [None] is the SyntaxError. *)
Definition JSON_parse (s : text) : option JSON :=
  match lex s with
  | Some ts => parse_tokens ts
  | None => None
  end.

(** ** [JSON.stringify] and the JavaScript operators used by the component *)

Fixpoint uint_text (u : Decimal.uint) : text :=
  match u with
  | Decimal.Nil => []
  | Decimal.D0 r => 48 :: uint_text r
  | Decimal.D1 r => 49 :: uint_text r
  | Decimal.D2 r => 50 :: uint_text r
  | Decimal.D3 r => 51 :: uint_text r
  | Decimal.D4 r => 52 :: uint_text r
  | Decimal.D5 r => 53 :: uint_text r
  | Decimal.D6 r => 54 :: uint_text r
  | Decimal.D7 r => 55 :: uint_text r
  | Decimal.D8 r => 56 :: uint_text r
  | Decimal.D9 r => 57 :: uint_text r
  end.

Definition nat_text (n : N) : text := uint_text (N.to_uint n).

Definition dec_value (s : N) (t : Z) : Q :=
  match t with
  | Zneg d => Z.of_N s # (10 ^ d)
  | _ => inject_Z (Z.of_N s * 10 ^ t)
  end.

(** The integer [n] with [10 ^ (n - 1) <= x < 10 ^ n], for a positive
    [x] and a [guess] that is off by three at most. *)
Definition decimal_position (x : Q) (guess : Z) : Z :=
  let up n := if Qle_bool (dec_value 1 n) x then (n + 1)%Z else n in
  let down n := if Qle_bool (dec_value 1 (n - 1)) x then n else (n - 1)%Z in
  down (down (down (up (up (up guess))))).

(** The decimal of [k] digits that reads back as the positive number
    [x], if there is one: of the two decimals around [x] at the scale
    [10 ^ (n - k)], the closest that reads back as [x] (the even one
    when both are as close). *)
Definition shortest_at (x : num) (n : Z) (k : Z) : option (N * Z) :=
  let t := (n - k)%Z in
  let v := num_value x in
  let q := Qdiv v (dec_value 1 t) in
  let lo := Z.to_N (Qnum q / Zpos (Qden q)) in
  let hi := lo + 1 in
  let ok s := match SFcompare (num_of_decimal false s t) x with
              | Some Eq => true
              | _ => false
              end in
  let dist s := Qabs (Qminus (dec_value s t) v) in
  let pick :=
    match ok lo, ok hi with
    | true, true =>
        match Qcompare (dist lo) (dist hi) with
        | Lt => Some lo
        | Gt => Some hi
        | Eq => Some (if N.even lo then lo else hi)
        end
    | true, false => Some lo
    | false, true => Some hi
    | false, false => None
    end in
  match pick with
  | Some s => if s =? 10 ^ Z.to_N k then Some (10 ^ Z.to_N (k - 1), (n + 1)%Z)
              else Some (s, n)
  | None => None
  end.

Fixpoint shortest_from (x : num) (n : Z) (k : Z) (fuel : nat) : N * Z :=
  match fuel with
  | O => (0, n)
  | S f =>
      match shortest_at x n k with
      | Some r => r
      | None => shortest_from x n (k + 1)%Z f
      end
  end.

(** The digits [s] and the position [n] of the decimal point in
    [Number::toString]: [s] has as few digits as a decimal that reads
    back as [x] can have (seventeen always suffice). *)
Definition shortest_digits (x : num) : N * Z :=
  match x with
  | S754_finite _ m e =>
      let bits := (Z.log2 (Zpos m) + e)%Z in
      let n := decimal_position (num_value (SFabs x)) (bits * 30103 / 100000)%Z in
      shortest_from (SFabs x) n 1 17
  | _ => (0, 0%Z)
  end.

(** [Number.prototype.toString]: the digits [ds] and the position [n]
    of the decimal point select the plain, fractional or exponent
    notation. *)
Definition num_toString (x : num) : text :=
  match x with
  | S754_nan => txt "NaN"
  | S754_zero _ => txt "0"
  | S754_infinity s => (if s then txt "-" else []) ++ txt "Infinity"
  | S754_finite sg _ _ =>
      let '(s, n) := shortest_digits x in
      let ds := nat_text s in
      let k := Z.of_nat (length ds) in
      let sign := if sg then txt "-" else [] in
      let body :=
        if ((k <=? n) && (n <=? 21))%Z then ds ++ repeat 48 (Z.to_nat (n - k))
        else if ((0 <? n) && (n <=? 21))%Z
        then firstn (Z.to_nat n) ds ++ txt "." ++ skipn (Z.to_nat n) ds
        else if ((-6 <? n) && (n <=? 0))%Z
        then txt "0." ++ repeat 48 (Z.to_nat (- n)) ++ ds
        else
          let e := (n - 1)%Z in
          let etxt := (if (e <? 0)%Z then txt "e-" else txt "e+")
                      ++ nat_text (Z.to_N (Z.abs e)) in
          match ds with
          | [d] => [d] ++ etxt
          | d :: r => [d] ++ txt "." ++ r ++ etxt
          | [] => []
          end in
      sign ++ body
  end.

Definition hex_digit (n : N) : char := if n <? 10 then 48 + n else 87 + n.

Definition unicode_escape (c : char) : text :=
  txt "\u" ++ [hex_digit (c / 4096 mod 16); hex_digit (c / 256 mod 16);
               hex_digit (c / 16 mod 16); hex_digit (c mod 16)].

Definition is_high_surrogate (c : char) : bool := (55296 <=? c) && (c <=? 56319).
Definition is_low_surrogate (c : char) : bool := (56320 <=? c) && (c <=? 57343).

(** The characters of a quoted JSON string. *)
Fixpoint quote_chars (s : text) : text :=
  match s with
  | [] => []
  | c :: r =>
      if c =? c_quote then txt "\" ++ [c_quote] ++ quote_chars r
      else if c =? c_bslash then txt "\\" ++ quote_chars r
      else if c =? 8 then txt "\b" ++ quote_chars r
      else if c =? 12 then txt "\f" ++ quote_chars r
      else if c =? 10 then txt "\n" ++ quote_chars r
      else if c =? 13 then txt "\r" ++ quote_chars r
      else if c =? 9 then txt "\t" ++ quote_chars r
      else if c <? 32 then unicode_escape c ++ quote_chars r
      else if is_high_surrogate c then
        match r with
        | d :: r' =>
            if is_low_surrogate d then c :: d :: quote_chars r'
            else unicode_escape c ++ quote_chars r
        | [] => unicode_escape c
        end
      else if is_low_surrogate c then unicode_escape c ++ quote_chars r
      else c :: quote_chars r
  end.

Definition quote_string (s : text) : text := [c_quote] ++ quote_chars s ++ [c_quote].

Fixpoint join (sep : text) (l : list text) : text :=
  match l with
  | [] => []
  | [x] => x
  | x :: r => x ++ sep ++ join sep r
  end.

(** [JSON.stringify(v)] without indentation. *)
Fixpoint JSON_stringify (v : JSON) : text :=
  match v with
  | JNull => txt "null"
  | JBool true => txt "true"
  | JBool false => txt "false"
  | JNum n =>
      match n with
      | S754_nan | S754_infinity _ => txt "null"
      | _ => num_toString n
      end
  | JStr s => quote_string s
  | JArr l => [c_lbrack] ++ join [c_comma] (map JSON_stringify l) ++ [c_rbrack]
  | JObj m =>
      [c_lbrace]
      ++ join [c_comma]
           (map (fun kv => quote_string (fst kv) ++ [c_colon] ++ JSON_stringify (snd kv)) m)
      ++ [c_rbrace]
  end.

(** [Boolean(v)] *)
Definition truthy (v : JSON) : bool :=
  match v with
  | JNull => false
  | JBool b => b
  | JNum n => num_truthy n
  | JStr s => negb (is_nil s)
  | JArr _ | JObj _ => true
  end.

(** Truthiness of a possibly [undefined] value. *)
Definition truthy_opt (v : option JSON) : bool :=
  match v with Some x => truthy x | None => false end.

Fixpoint obj_get (k : text) (m : list (text * JSON)) : option JSON :=
  match m with
  | [] => None
  | (k', v) :: r => if text_eqb k' k then Some v else obj_get k r
  end.

(** Result of an expression that may throw. *)
Inductive exc (A : Type) :=
| Ret (a : A)
| Throw.
Arguments Ret {A} a.
Arguments Throw {A}.

(** [v.k] for one of the property names the component reads (none of
    them is inherited from a prototype): [undefined] is [None]; reading
    a property of [null] throws a TypeError. *)
Definition get_prop (v : JSON) (k : string) : exc (option JSON) :=
  match v with
  | JNull => Throw
  | JObj m => Ret (obj_get (txt k) m)
  | _ => Ret None
  end.

(** [a || b] where [a] may be [undefined]. *)
Definition or_else (a : option JSON) (b : JSON) : JSON :=
  match a with
  | Some x => if truthy x then x else b
  | None => b
  end.

(** [a || b] where both may be [undefined]. *)
Definition or_opt (a b : option JSON) : option JSON :=
  if truthy_opt a then a else b.

(** [String(v)], the conversion that template literals, [join] and [+]
    apply: an array gives its entries joined by commas, [null] entries
    empty; an object gives "[object Object]", unless it has a
    [toString] property of its own, which is not callable, and then
    the conversion throws a TypeError (the [valueOf] that is tried
    besides returns no primitive). *)
Fixpoint toStr (v : JSON) : exc text :=
  match v with
  | JNull => Ret (txt "null")
  | JBool true => Ret (txt "true")
  | JBool false => Ret (txt "false")
  | JNum n => Ret (num_toString n)
  | JStr s => Ret s
  | JArr l =>
      match
        (fix entries (l : list JSON) : exc (list text) :=
           match l with
           | [] => Ret []
           | x :: r =>
               match (match x with JNull => Ret [] | _ => toStr x end) with
               | Ret t =>
                   match entries r with
                   | Ret ts => Ret (t :: ts)
                   | Throw => Throw
                   end
               | Throw => Throw
               end
           end) l
      with
      | Ret ts => Ret (join [c_comma] ts)
      | Throw => Throw
      end
  | JObj m =>
      match obj_get (txt "toString") m with
      | Some _ => Throw
      | None => Ret (txt "[object Object]")
      end
  end.

(** [ToPrimitive(v)]: an array or an object becomes its string. *)
Definition to_primitive (v : JSON) : exc JSON :=
  match v with
  | JArr _ | JObj _ =>
      match toStr v with
      | Ret s => Ret (JStr s)
      | Throw => Throw
      end
  | _ => Ret v
  end.

(** [ToNumber] of a primitive that is not a string. *)
Definition toNum (v : JSON) : num :=
  match v with
  | JNum n => n
  | JBool true => num_of_Z 1
  | _ => S754_zero false
  end.

(** [a + b]: both operands are made primitive, the left one first;
    with a string among them the result is the concatenation of their
    strings, otherwise the sum of their numbers. *)
Definition js_add (a b : JSON) : exc JSON :=
  match to_primitive a with
  | Ret x =>
      match to_primitive b with
      | Ret y =>
          match x, y with
          | JStr s, _ =>
              match toStr y with
              | Ret t => Ret (JStr (s ++ t))
              | Throw => Throw
              end
          | _, JStr s =>
              match toStr x with
              | Ret t => Ret (JStr (t ++ s))
              | Throw => Throw
              end
          | _, _ => Ret (JNum (num_add (toNum x) (toNum y)))
          end
      | Throw => Throw
      end
  | Throw => Throw
  end.

(** [a === b] for the entries of a [Set]: primitives by value, arrays
    and objects by identity; every parsed array or object is a fresh
    one, so two of them are never the same entry. *)
Definition same_value (a b : JSON) : bool :=
  match a, b with
  | JNull, JNull => true
  | JBool x, JBool y => Bool.eqb x y
  | JNum x, JNum y => num_eqb x y
  | JStr x, JStr y => text_eqb x y
  | _, _ => false
  end.

(** [set.add(v)], the set kept in insertion order. *)
Definition set_add (s : list JSON) (v : JSON) : list JSON :=
  if existsb (same_value v) s then s else s ++ [v].

(** [Array.from(new Set(l))] *)
Definition set_of_list (l : list JSON) : list JSON := fold_left set_add l [].

(** ** The regular expressions of the component *)

(** Length of the match of [\s*c] at the head of [s]. *)
Fixpoint match_spaces_then (c : char) (s : text) : option nat :=
  match s with
  | [] => None
  | x :: r =>
      if is_space x then option_map S (match_spaces_then c r)
      else if x =? c then Some 1%nat else None
  end.

(** [s.replace(/,\s*}/g, '}')] *)
Fixpoint strip_comma_brace_skip (skip : nat) (s : text) : text :=
  match s with
  | [] => []
  | c :: r =>
      match skip with
      | S k => strip_comma_brace_skip k r
      | O =>
          if c =? c_comma then
            match match_spaces_then c_rbrace r with
            | Some n => c_rbrace :: strip_comma_brace_skip n r
            | None => c :: strip_comma_brace_skip O r
            end
          else c :: strip_comma_brace_skip O r
      end
  end.

Definition strip_comma_brace (s : text) : text := strip_comma_brace_skip 0 s.

(** [s.replace(/,\s*$/g, '')] *)
Fixpoint strip_trailing_comma (s : text) : text :=
  match s with
  | [] => []
  | c :: r =>
      if (c =? c_comma) && forallb is_space r then []
      else c :: strip_trailing_comma r
  end.

(** [s.match(/\{[\s\S]*\}/)]: from the first opening brace to the last
    closing brace after it. *)
Definition match_outer_braces (s : text) : option text :=
  match dropWhile (fun c => negb (c =? c_lbrace)) s with
  | [] => None
  | c :: r =>
      let body := dropWhileEnd (fun x => negb (x =? c_rbrace)) r in
      if is_nil body then None else Some (c :: body)
  end.

Fixpoint takeWhile {A} (f : A -> bool) (l : list A) : list A :=
  match l with
  | [] => []
  | x :: r => if f x then x :: takeWhile f r else []
  end.

Definition key_sessionName : text := [c_quote] ++ txt "sessionName" ++ [c_quote].

(** [s.match(/\{[^}]*"sessionName"[^}]*\}/g)]: every match runs from an
    opening brace to the first closing brace after it and contains the
    quoted key. *)
Fixpoint aggressive_matches_skip (skip : nat) (s : text) : list text :=
  match s with
  | [] => []
  | c :: r =>
      match skip with
      | S k => aggressive_matches_skip k r
      | O =>
          if c =? c_lbrace then
            let seg := takeWhile (fun x => negb (x =? c_rbrace)) r in
            if (length seg <? length r)%nat && includes seg key_sessionName
            then (c :: seg ++ [c_rbrace])
                   :: aggressive_matches_skip (S (length seg)) r
            else aggressive_matches_skip O r
          else aggressive_matches_skip O r
      end
  end.

Definition aggressive_matches (s : text) : list text := aggressive_matches_skip 0 s.

Definition to_lower (c : char) : char :=
  if (65 <=? c) && (c <=? 90) then c + 32 else c.

Fixpoint startsWith_ci (s p : text) : bool :=
  match p, s with
  | [], _ => true
  | y :: p', x :: s' => (to_lower x =? y) && startsWith_ci s' p'
  | _ :: _, [] => false
  end.

(** Length of the match of [\s*\d+] at the head of [s]. *)
Fixpoint match_spaces_digits (s : text) : option nat :=
  match s with
  | [] => None
  | x :: r =>
      if is_space x then option_map S (match_spaces_digits r)
      else if is_digit x then Some (length (takeWhile is_digit s))
      else None
  end.

(** Length of the match of [Part\s*\d+|Response\s*\d+] (flag [i]) at
    the head of [s]. *)
Definition marker_len (s : text) : option nat :=
  if startsWith_ci s (txt "part")
  then option_map (Nat.add 4) (match_spaces_digits (skipn 4 s))
  else if startsWith_ci s (txt "response")
  then option_map (Nat.add 8) (match_spaces_digits (skipn 8 s))
  else None.

Definition is_colon_or_space (c : char) : bool := (c =? c_colon) || is_space c.

Definition push_part (acc : text) (parts : list text) : list text :=
  let p := trim (rev acc) in
  if is_nil p then parts else parts ++ [p].

(** The [exec] loop over
    [/(?:Part\s*\d+|Response\s*\d+)[:\s]*([\s\S]*?)(?=Part\s*\d+|Response\s*\d+|$)/gi]:
    the trimmed, non-empty captures.  [skip] counts the code units of
    the marker and of the separators after it that are still to pass;
    [cur] is the capture being read, in reverse. *)
Fixpoint part_captures (skip : nat) (cur : option text) (parts : list text)
  (s : text) : list text :=
  match s with
  | [] =>
      match cur with
      | Some acc => push_part acc parts
      | None => parts
      end
  | c :: r =>
      match skip with
      | S k => part_captures k cur parts r
      | O =>
          match marker_len s with
          | Some n =>
              let parts' :=
                match cur with
                | Some acc => push_part acc parts
                | None => parts
                end in
              let seps := length (takeWhile is_colon_or_space (skipn n s)) in
              part_captures (Nat.pred (n + seps)) (Some []) parts' r
          | None =>
              match cur with
              | Some acc => part_captures O (Some (c :: acc)) parts r
              | None => part_captures O None parts r
              end
          end
      end
  end.

(** ** Fragment scanning: [extractMultipleJsonObjects], [extractMultipleJsonArrays] *)

Record scan_state := {
  sc_count : Z;               (* braceCount / bracketCount *)
  sc_start : option nat;      (* startIndex, None for -1 *)
  sc_inString : bool;
  sc_escapeNext : bool;
  sc_found : list text
}.

Definition scan_init : scan_state :=
  {| sc_count := 0; sc_start := None; sc_inString := false;
     sc_escapeNext := false; sc_found := [] |}.

(** [response.substring(a, b)] for [a <= b]. *)
Definition substring (s : text) (a b : nat) : text := firstn (b - a) (skipn a s).

(** One iteration of the [for] loop shared by the two scanners; [op]
    and [cl] are the opening and closing character of the kind of
    fragment that is looked for. *)
Definition scan_step (op cl : char) (response : text) (st : scan_state)
  (i : nat) (c : char) : scan_state :=
  if sc_escapeNext st then
    {| sc_count := sc_count st; sc_start := sc_start st;
       sc_inString := sc_inString st; sc_escapeNext := false;
       sc_found := sc_found st |}
  else if c =? c_bslash then
    {| sc_count := sc_count st; sc_start := sc_start st;
       sc_inString := sc_inString st; sc_escapeNext := true;
       sc_found := sc_found st |}
  else
    let inString := if c =? c_quote then negb (sc_inString st) else sc_inString st in
    if inString then
      {| sc_count := sc_count st; sc_start := sc_start st;
         sc_inString := inString; sc_escapeNext := false;
         sc_found := sc_found st |}
    else if c =? op then
      {| sc_count := sc_count st + 1;
         sc_start := if (sc_count st =? 0)%Z then Some i else sc_start st;
         sc_inString := inString; sc_escapeNext := false;
         sc_found := sc_found st |}
    else if c =? cl then
      let count := (sc_count st - 1)%Z in
      match (count =? 0)%Z, sc_start st with
      | true, Some a =>
          let candidate := substring response a (i + 1) in
          {| sc_count := count; sc_start := None;
             sc_inString := inString; sc_escapeNext := false;
             sc_found :=
               match JSON_parse candidate with
               | Some _ => sc_found st ++ [candidate]
               | None => sc_found st
               end |}
      | _, _ =>
          {| sc_count := count; sc_start := sc_start st;
             sc_inString := inString; sc_escapeNext := false;
             sc_found := sc_found st |}
      end
    else
      {| sc_count := sc_count st; sc_start := sc_start st;
         sc_inString := inString; sc_escapeNext := false;
         sc_found := sc_found st |}.

Fixpoint scan_loop (op cl : char) (response : text) (st : scan_state)
  (i : nat) (rest : text) : scan_state :=
  match rest with
  | [] => st
  | c :: r => scan_loop op cl response (scan_step op cl response st i c) (S i) r
  end.

Definition extractMultipleJsonObjects (response : text) : list text :=
  sc_found (scan_loop c_lbrace c_rbrace response scan_init 0 response).

Definition extractMultipleJsonArrays (response : text) : list text :=
  sc_found (scan_loop c_lbrack c_rbrack response scan_init 0 response).

(** ** Combination: [mergeScheduleData], [combineJsonObjects],
       [combineJsonArrays], [combineJsonParts], [combinePartedResponses],
       [combineMultipleResponses] *)

Definition is_array (v : JSON) : bool :=
  match v with JArr _ => true | _ => false end.

Definition array_items (v : JSON) : list JSON :=
  match v with JArr l => l | _ => [] end.

(** The object under construction in [mergeScheduleData]. *)
Record merged := {
  mg_schedule : list JSON;
  mg_sessions : list JSON;
  mg_totalSessions : JSON;
  mg_locations : list JSON
}.

Definition merged_init : merged :=
  {| mg_schedule := []; mg_sessions := [];
     mg_totalSessions := JNum (S754_zero false); mg_locations := [] |}.

(** The body of the [forEach] callback of [mergeScheduleData]. *)
Definition merge_one (m : merged) (schedule : JSON) : exc merged :=
  match get_prop schedule "schedule", get_prop schedule "sessions",
        get_prop schedule "proposedSchedule", get_prop schedule "locations",
        get_prop schedule "totalSessions" with
  | Ret sch, Ret ses, Ret prop, Ret locs, Ret tot =>
      let scheduleItems := or_else (or_opt (or_opt sch ses) prop) (JArr []) in
      let m1 :=
        if is_array scheduleItems then
          {| mg_schedule := mg_schedule m ++ array_items scheduleItems;
             mg_sessions := mg_sessions m ++ array_items scheduleItems;
             mg_totalSessions := mg_totalSessions m;
             mg_locations := mg_locations m |}
        else m in
      let m2 :=
        match locs with
        | Some (JArr l) =>
            {| mg_schedule := mg_schedule m1; mg_sessions := mg_sessions m1;
               mg_totalSessions := mg_totalSessions m1;
               mg_locations := fold_left set_add l (mg_locations m1) |}
        | _ => m1
        end in
      match tot with
      | Some t =>
          if truthy t then
            match js_add (mg_totalSessions m2) t with
            | Ret total =>
                Ret {| mg_schedule := mg_schedule m2; mg_sessions := mg_sessions m2;
                       mg_totalSessions := total;
                       mg_locations := mg_locations m2 |}
            | Throw => Throw
            end
          else Ret m2
      | None => Ret m2
      end
  | _, _, _, _, _ => Throw
  end.

Fixpoint merge_all (m : merged) (schedules : list JSON) : exc merged :=
  match schedules with
  | [] => Ret m
  | s :: r =>
      match merge_one m s with
      | Ret m' => merge_all m' r
      | Throw => Throw
      end
  end.

(** [v === 0] *)
Definition is_zero (v : JSON) : bool :=
  match v with JNum (S754_zero _) => true | _ => false end.

Definition null_range : JSON :=
  JObj [(txt "start", JNull); (txt "end", JNull)].

Definition merged_json (m : merged) : JSON :=
  JObj [(txt "schedule", JArr (mg_schedule m));
        (txt "sessions", JArr (mg_sessions m));
        (txt "totalSessions", mg_totalSessions m);
        (txt "locations", JArr (mg_locations m));
        (txt "timeRange", null_range)].

(** The record returned by [mergeScheduleData] on the normal path. *)
Definition merge_finish (m : merged) : merged :=
  {| mg_schedule := mg_schedule m; mg_sessions := mg_sessions m;
     mg_totalSessions :=
       if is_zero (mg_totalSessions m)
       then JNum (num_of_nat (length (mg_schedule m)))
       else mg_totalSessions m;
     mg_locations := mg_locations m |}.

Definition mergeScheduleData (schedules : list JSON) : JSON :=
  match merge_all merged_init schedules with
  | Ret m => merged_json (merge_finish m)
  | Throw => or_else (hd_error schedules) (JObj [])
  end.

(** The [forEach] of [combineJsonObjects]: the parsed objects that
    carry schedule data. *)
Fixpoint schedule_objects (jsonObjects : list text) : list JSON :=
  match jsonObjects with
  | [] => []
  | objStr :: r =>
      match JSON_parse objStr with
      | Some obj =>
          match get_prop obj "schedule", get_prop obj "sessions",
                get_prop obj "proposedSchedule" with
          | Ret a, Ret b, Ret c =>
              if truthy_opt a || truthy_opt b || truthy_opt c
              then obj :: schedule_objects r
              else schedule_objects r
          | _, _, _ => schedule_objects r
          end
      | None => schedule_objects r
      end
  end.

Definition combineJsonObjects (jsonObjects : list text) : text :=
  match schedule_objects jsonObjects with
  | [] => hd [] jsonObjects
  | schedules => JSON_stringify (mergeScheduleData schedules)
  end.

(** The [forEach] of [combineJsonArrays]: [allItems.push(...array)].
    The fragments come from [extractMultipleJsonArrays], so each of
    them parses to an array. *)
Fixpoint all_array_items (jsonArrays : list text) : list JSON :=
  match jsonArrays with
  | [] => []
  | arrayStr :: r =>
      match JSON_parse arrayStr with
      | Some (JArr l) => l ++ all_array_items r
      | _ => all_array_items r
      end
  end.

Definition combineJsonArrays (jsonArrays : list text) : text :=
  JSON_stringify (JArr (all_array_items jsonArrays)).

(** The [forEach] of [combineJsonParts]. *)
Fixpoint all_part_items (parts : list text) : list JSON :=
  match parts with
  | [] => []
  | part :: r =>
      match JSON_parse part with
      | Some (JArr l) => l ++ all_part_items r
      | Some parsed =>
          match get_prop parsed "schedule", get_prop parsed "sessions" with
          | Ret a, Ret b =>
              match or_opt a b with
              | Some (JArr l) => l ++ all_part_items r
              | _ => all_part_items r
              end
          | _, _ => all_part_items r
          end
      | None => all_part_items r
      end
  end.

Definition combineJsonParts (parts : list text) : text :=
  match all_part_items parts with
  | [] => hd [] parts
  | allItems => JSON_stringify (JArr allItems)
  end.

(** The five [replace] calls that undo the escapes of a wrapper value,
    in the order of the source. *)
Definition fix_escapes (s : text) : text :=
  let s1 := replaceAll (txt "\n") [10] s in
  let s2 := replaceAll (txt "\t") [9] s1 in
  let s3 := replaceAll (txt "\r") [13] s2 in
  let s4 := replaceAll [c_bslash; c_quote] [c_quote] s3 in
  replaceAll (txt "\\") (txt "\") s4.

Definition combinePartedResponses (response : text) : text :=
  match match_outer_braces response with
  | Some jsonContent => fix_escapes jsonContent
  | None =>
      let parts := part_captures 0 None [] response in
      if (1 <? length parts)%nat then combineJsonParts parts else response
  end.

Definition is_json_starter (c : char) : bool :=
  (c =? c_lbrace) || (c =? c_lbrack) || (c =? c_quote).

Definition is_json_ender (c : char) : bool :=
  (c =? c_rbrace) || (c =? c_rbrack) || (c =? c_quote).

(** The cleaning prologue shared by [combineMultipleResponses] and
    [extractPartialScheduleData]: [trim], then the two [while] loops. *)
Definition clean_response (s : text) : text :=
  dropWhileEnd (fun c => negb (is_json_ender c))
    (dropWhile (fun c => negb (is_json_starter c)) (trim s)).

Definition marker_type_text : text := js "'type':'Text'".
Definition marker_value : text := js "'value':".

Definition has_part_indicator (s : text) : bool :=
  includes s (txt "Part 1") || includes s (txt "Part 2")
  || includes s (txt "Response 1") || includes s (txt "Response 2").

Definition has_wrapper_markers (s : text) : bool :=
  includes s marker_type_text && includes s marker_value.

Definition combineMultipleResponses (agentResponse : text) : text :=
  if is_nil agentResponse then [] else
  let cleanedResponse := clean_response agentResponse in
  let jsonObjects := extractMultipleJsonObjects cleanedResponse in
  if (1 <? length jsonObjects)%nat then combineJsonObjects jsonObjects else
  let jsonArrays := extractMultipleJsonArrays cleanedResponse in
  if (1 <? length jsonArrays)%nat then combineJsonArrays jsonArrays else
  if has_part_indicator cleanedResponse then combinePartedResponses cleanedResponse else
  if has_wrapper_markers cleanedResponse then combinePartedResponses cleanedResponse else
  cleanedResponse.

(** ** Recovery: [calculateTimeRange], [extractPartialScheduleData],
       [parseAgentResponse] *)

Record time_range := { tr_start : option Z; tr_end : option Z }.

Definition no_range : time_range := {| tr_start := None; tr_end := None |}.

(** What [extractPartialScheduleData] returns. *)
Record partial_data := {
  pd_schedule : list JSON;
  pd_locations : list JSON;
  pd_timeRange : time_range
}.

(** What [parseAgentResponse] returns; a property that the returned
    object literal does not have is [None]. *)
Record proposal := {
  success : bool;
  schedule : option (list JSON);
  totalSessions : option nat;
  locations : option (list JSON);
  timeRange : option time_range;
  error : option text;
  rawResponse : option text;
  note : option text;
  isPartial : option bool
}.

(** State of the brace-matching loop of [extractPartialScheduleData]. *)
Record partial_state := {
  ps_sessionObjects : list text;
  ps_currentObject : text;
  ps_braceCount : Z;
  ps_inString : bool;
  ps_escapeNext : bool
}.

Definition partial_init : partial_state :=
  {| ps_sessionObjects := []; ps_currentObject := []; ps_braceCount := 0;
     ps_inString := false; ps_escapeNext := false |}.

(** One iteration of the loop over [cleanedResponse]. *)
Definition partial_step (st : partial_state) (c : char) : partial_state :=
  if ps_escapeNext st then
    {| ps_sessionObjects := ps_sessionObjects st;
       ps_currentObject := ps_currentObject st;
       ps_braceCount := ps_braceCount st;
       ps_inString := ps_inString st; ps_escapeNext := false |}
  else if c =? c_bslash then
    {| ps_sessionObjects := ps_sessionObjects st;
       ps_currentObject := ps_currentObject st;
       ps_braceCount := ps_braceCount st;
       ps_inString := ps_inString st; ps_escapeNext := true |}
  else
    let inString := if c =? c_quote then negb (ps_inString st) else ps_inString st in
    (* the [if (!inString)] block: objects, currentObject, braceCount *)
    let '(objs, cur, count) :=
      if inString then
        (ps_sessionObjects st, ps_currentObject st, ps_braceCount st)
      else if c =? c_lbrace then
        (ps_sessionObjects st,
         (if (ps_braceCount st =? 0)%Z then [] else ps_currentObject st),
         (ps_braceCount st + 1)%Z)
      else if c =? c_rbrace then
        let count := (ps_braceCount st - 1)%Z in
        if (count =? 0)%Z then
          let full := ps_currentObject st ++ [c] in
          ((if is_nil (trim full) then ps_sessionObjects st
            else ps_sessionObjects st ++ [trim full]),
           [], count)
        else (ps_sessionObjects st, ps_currentObject st, count)
      else (ps_sessionObjects st, ps_currentObject st, ps_braceCount st) in
    {| ps_sessionObjects := objs;
       ps_currentObject := if (0 <? count)%Z then cur ++ [c] else cur;
       ps_braceCount := count;
       ps_inString := inString; ps_escapeNext := false |}.

Definition partial_scan (cleanedResponse : text) : list text :=
  ps_sessionObjects (fold_left partial_step cleanedResponse partial_init).

Definition speaker_tbd : JSON := JArr [JStr (txt "Speaker TBD")].
Definition default_format : JSON := JStr (txt "Session").
Definition default_focus : JSON := JStr (txt "General").
Definition default_abstract : JSON :=
  JStr (txt "Session details not available due to truncation").

(** The validation and completion of one parsed candidate: [None] when
    [sessionName] or [location] is missing or falsy, otherwise the
    [completeSession] object and the location added to the set. *)
Definition complete_session (session : JSON) : exc (option (JSON * JSON)) :=
  match get_prop session "sessionName", get_prop session "location",
        get_prop session "speakers", get_prop session "startTime",
        get_prop session "endTime", get_prop session "format",
        get_prop session "focus", get_prop session "sessionAbstract",
        get_prop session "abstract" with
  | Ret (Some name), Ret (Some loc), Ret speakers, Ret startTime, Ret endTime,
    Ret format, Ret focus, Ret sessionAbstract, Ret abstract =>
      if truthy name && truthy loc then
        Ret (Some
          (JObj [(txt "sessionName", name);
                 (txt "location", loc);
                 (txt "speakers", or_else speakers speaker_tbd);
                 (txt "startTime", or_else startTime JNull);
                 (txt "endTime", or_else endTime JNull);
                 (txt "format", or_else format default_format);
                 (txt "focus", or_else focus default_focus);
                 (txt "sessionAbstract",
                  or_else (or_opt sessionAbstract abstract) default_abstract)],
           loc))
      else Ret None
  | Throw, _, _, _, _, _, _, _, _ => Throw
  | _, _, _, _, _, _, _, _, _ => Ret None
  end.

(** The body of the first [for] loop: repair, parse, validate. *)
Definition recover_candidate (sessionStr : text) : option (JSON * JSON) :=
  let cleanSessionStr := strip_trailing_comma (strip_comma_brace sessionStr) in
  match JSON_parse cleanSessionStr with
  | Some session =>
      match complete_session session with
      | Ret r => r
      | Throw => None
      end
  | None => None
  end.

(** The body of the aggressive [for] loop. *)
Definition recover_aggressive (sessionStr : text) : option (JSON * JSON) :=
  let completed :=
    if endsWith sessionStr [c_rbrace] then sessionStr
    else sessionStr ++ [c_rbrace] in
  match JSON_parse (strip_comma_brace completed) with
  | Some session =>
      match complete_session session with
      | Ret r => r
      | Throw => None
      end
  | None => None
  end.

(** Running one of the two loops: the recovered sessions and the
    location set, both in order of discovery. *)
Fixpoint recover_all (f : text -> option (JSON * JSON)) (cands : list text)
  (sessions locs : list JSON) : list JSON * list JSON :=
  match cands with
  | [] => (sessions, locs)
  | s :: r =>
      match f s with
      | Some (slot, loc) => recover_all f r (sessions ++ [slot]) (set_add locs loc)
      | None => recover_all f r sessions locs
      end
  end.

Section WithDates.

(** [new Date(p).getTime()] for a primitive [p]: the time value, or
    [None] when it is NaN. *)
Variable Date_parse : JSON -> option Z.

(** [new Date(v).getTime()]: the value is made primitive first, which
    throws for an object that has a [toString] of its own. *)
Definition new_Date (v : JSON) : exc (option Z) :=
  match to_primitive v with
  | Ret p => Ret (Date_parse p)
  | Throw => Throw
  end.

(** The date that [calculateTimeRange] reads from [item.startTime] or
    [item.endTime]: nothing when the property is falsy. *)
Definition time_of (v : option JSON) : exc (option Z) :=
  match v with
  | Some x => if truthy x then new_Date x else Ret None
  | None => Ret None
  end.

(** The callback of [schedule.forEach] in [calculateTimeRange]. *)
Definition range_step (r : time_range) (item : JSON) : exc time_range :=
  match get_prop item "startTime", get_prop item "endTime" with
  | Ret st, Ret en =>
      match time_of st with
      | Ret startTime =>
          let earliest :=
            match startTime, tr_start r with
            | Some t, None => Some t
            | Some t, Some e => if (t <? e)%Z then Some t else Some e
            | None, cur => cur
            end in
          match time_of en with
          | Ret endTime =>
              let latest :=
                match endTime, tr_end r with
                | Some t, None => Some t
                | Some t, Some e => if (e <? t)%Z then Some t else Some e
                | None, cur => cur
                end in
              Ret {| tr_start := earliest; tr_end := latest |}
          | Throw => Throw
          end
      | Throw => Throw
      end
  | _, _ => Throw
  end.

Fixpoint calculateTimeRange_from (r : time_range) (schedule : list JSON)
  : exc time_range :=
  match schedule with
  | [] => Ret r
  | item :: rest =>
      match range_step r item with
      | Ret r' => calculateTimeRange_from r' rest
      | Throw => Throw
      end
  end.

Definition calculateTimeRange (schedule : list JSON) : exc time_range :=
  calculateTimeRange_from no_range schedule.

Definition extractPartialScheduleData (response : text) : partial_data :=
  let cleanedResponse := clean_response response in
  let sessionObjects := partial_scan cleanedResponse in
  let '(sessions, locs) := recover_all recover_candidate sessionObjects [] [] in
  let '(sessions, locs) :=
    if is_nil sessions
    then recover_all recover_aggressive (aggressive_matches cleanedResponse)
           sessions locs
    else (sessions, locs) in
  match calculateTimeRange sessions with
  | Ret tr => {| pd_schedule := sessions; pd_locations := locs; pd_timeRange := tr |}
  | Throw => {| pd_schedule := []; pd_locations := []; pd_timeRange := no_range |}
  end.

(** [schedule.map(s => s.location).filter(Boolean)] *)
Fixpoint location_values (schedule : list JSON) : exc (list JSON) :=
  match schedule with
  | [] => Ret []
  | s :: r =>
      match get_prop s "location", location_values r with
      | Ret (Some v), Ret l => Ret (if truthy v then v :: l else l)
      | Ret None, Ret l => Ret l
      | _, _ => Throw
      end
  end.

(** The success object built from a fully parsed schedule. *)
Definition parsed_success (sched : list JSON) (msg : string) : exc proposal :=
  match location_values sched, calculateTimeRange sched with
  | Ret locs, Ret tr =>
      Ret {| success := true; schedule := Some sched;
             totalSessions := Some (length sched);
             locations := Some (set_of_list locs);
             timeRange := Some tr; error := None; rawResponse := None;
             note := Some (txt msg); isPartial := None |}
  | _, _ => Throw
  end.

Definition failure (err : text) (raw : option text) (msg : option text) : proposal :=
  {| success := false; schedule := None; totalSessions := None;
     locations := None; timeRange := None; error := Some err;
     rawResponse := raw; note := msg; isPartial := None |}.

(** The fall-back shared by every [catch] and [else] branch of
    [parseAgentResponse]: recover what [extractPartialScheduleData]
    finds in [content], or report the failure. *)
Definition partial_result (content agentResponse : text)
  (ok_note err fail_note : string) : proposal :=
  let partialData := extractPartialScheduleData content in
  if negb (is_nil (pd_schedule partialData)) then
    {| success := true; schedule := Some (pd_schedule partialData);
       totalSessions := Some (length (pd_schedule partialData));
       locations := Some (pd_locations partialData);
       timeRange := Some (pd_timeRange partialData);
       error := None; rawResponse := Some agentResponse;
       note := Some (txt ok_note); isPartial := Some true |}
  else
    failure (txt err) (Some (substring_to content 500 ++ txt "..."))
      (Some (txt fail_note)).

Definition looks_like_json (content : text) : bool :=
  startsWith (trim content) [c_lbrack] || startsWith (trim content) [c_lbrace].

(** The treatment of the content of the [value] field, after the
    wrapper was parsed ([manual = false]) or cut by hand
    ([manual = true]). *)
Definition parse_content (manual : bool) (content agentResponse : text) : proposal :=
  if looks_like_json content then
    let fallback :=
      if manual then
        partial_result content agentResponse
          "Response was truncated - showing partial data (parsed manually)."
          "Manual extraction failed - content is not valid JSON and no partial data could be extracted"
          "Response appears to be truncated and could not be parsed"
      else
        partial_result content agentResponse
          "Response was truncated - showing partial data. Some sessions may be incomplete."
          "Invalid JSON format in extracted value and no partial data could be extracted"
          "Response appears to be truncated and could not be parsed" in
    match JSON_parse content with
    | Some scheduleData =>
        let sched :=
          if is_array scheduleData then array_items scheduleData
          else [scheduleData] in
        match parsed_success sched
                (if manual
                 then "Response may be truncated due to platform limits (parsed manually)"
                 else "Response may be truncated due to platform limits") with
        | Ret p => p
        | Throw => fallback
        end
    | None => fallback
    end
  else if manual then
    partial_result content agentResponse
      "Response was truncated - showing partial data extracted manually."
      "Manual extraction failed - content is not valid JSON and no partial data could be extracted"
      "Response may be truncated"
  else
    partial_result content agentResponse
      "Response was truncated - showing partial data extracted from response."
      "Extracted content is not valid JSON and no partial data could be extracted"
      "Response may be truncated".

Definition is_manual_space (c : char) : bool :=
  (c =? 32) || (c =? 10) || (c =? 13) || (c =? 9).

(** The text handed to the later stages when the wrapper does not
    parse: everything after the first ["value":], the white space after
    it and one opening quote. *)
Definition manual_value_content (agentResponse : text) : option text :=
  match indexOf agentResponse marker_value with
  | Some valueStartIndex =>
      let after := dropWhile is_manual_space
                     (substring_from agentResponse (valueStartIndex + 8)) in
      Some match after with
           | c :: r => if c =? c_quote then r else after
           | [] => after
           end
  | None => None
  end.

(** The [catch (wrapperParseError)] block. *)
Definition manual_fallback (agentResponse : text) : proposal :=
  match manual_value_content agentResponse with
  | Some extractedContent => parse_content true extractedContent agentResponse
  | None =>
      failure (txt "No value field found in response wrapper")
        (Some agentResponse) None
  end.

Definition is_Text (v : option JSON) : bool :=
  match v with Some (JStr s) => text_eqb s (txt "Text") | _ => false end.

(** The last [try] of [parseAgentResponse]: the response taken as
    plain JSON. *)
Definition parse_plain (agentResponse : text) : proposal :=
  let fallback :=
    partial_result agentResponse agentResponse
      "Response was truncated - showing partial data. Some sessions may be incomplete."
      "Failed to parse response and no partial data could be extracted"
      "Response appears to be truncated and could not be parsed" in
  let unrecognised :=
    failure (txt "Response does not contain valid schedule data")
      (Some (substring_to agentResponse 200 ++ txt "..."))
      (Some (txt "Response format not recognized")) in
  match JSON_parse agentResponse with
  | Some (JArr (first :: rest)) =>
      match get_prop first "sessionName" with
      | Ret name =>
          if truthy_opt name then
            match parsed_success (first :: rest) "Schedule data parsed successfully" with
            | Ret p => p
            | Throw => fallback
            end
          else unrecognised
      | Throw => fallback
      end
  | Some _ => unrecognised
  | None => fallback
  end.

Definition parseAgentResponse (agentResponse : text) : proposal :=
  if is_nil agentResponse then
    failure (txt "No response received") (Some (txt "No response"))
      (Some (txt "No response received from agent"))
  else if has_wrapper_markers agentResponse then
    match JSON_parse agentResponse with
    | Some parsedResponse =>
        match get_prop parsedResponse "type", get_prop parsedResponse "value" with
        | Ret ty, Ret va =>
            if is_Text ty && truthy_opt va then
              match va with
              | Some (JStr extractedContent) =>
                  parse_content false extractedContent agentResponse
              | _ =>
                  (* [extractedContent.substring] is not a function *)
                  manual_fallback agentResponse
              end
            else
              failure (txt "Response wrapper format is not as expected")
                (Some agentResponse) None
        | _, _ => manual_fallback agentResponse
        end
    | None => manual_fallback agentResponse
    end
  else parse_plain agentResponse.

End WithDates.

(** ** [handleAgentResponse], [reconstructChunkedResponse],
       [logScheduleDebugInfo], [formattedScheduleForDisplay] and the
       getters on [proposedSchedule] *)

(** [a || b] for a string [a] that may be missing or [null]. *)
Definition text_or (a : option text) (b : text) : text :=
  match a with
  | Some s => if is_nil s then b else s
  | None => b
  end.

(** The strings that [array.join] puts together: [null] entries give
    the empty string, the others their string, whose conversion may
    throw. *)
Fixpoint entry_texts (l : list JSON) : exc (list text) :=
  match l with
  | [] => Ret []
  | x :: r =>
      match (match x with JNull => Ret [] | _ => toStr x end) with
      | Ret t =>
          match entry_texts r with
          | Ret ts => Ret (t :: ts)
          | Throw => Throw
          end
      | Throw => Throw
      end
  end.

(** [array.join(sep)] *)
Definition array_join (sep : text) (l : list JSON) : exc text :=
  match entry_texts l with
  | Ret ts => Ret (join sep ts)
  | Throw => Throw
  end.

Definition reconstructChunkedResponse (chunks : option JSON) : exc text :=
  match chunks with
  | Some (JArr l) => array_join [] l
  | _ => Ret []
  end.

(** The response of the Apex controller as [handleAgentResponse] reads
    it; an [agentResponse] that is missing is the empty string, which
    [combineMultipleResponses] and [parseAgentResponse] treat alike. *)
Record agent_reply := {
  ar_success : bool;
  ar_isChunked : bool;
  ar_chunks : option JSON;
  ar_agentResponse : text;
  ar_message : option text;
  ar_error : option text;
  ar_rawResponse : option text
}.

(** The object literals that [handleAgentResponse] assigns to
    [proposedSchedule]; [None] is [null], a [note] that is missing is
    the empty string. *)
Record shown := {
  sh_success : bool;
  sh_schedule : list JSON;
  sh_totalSessions : nat;
  sh_locations : list JSON;
  sh_timeRange : time_range;
  sh_message : text;
  sh_error : option text;
  sh_rawResponse : option text;
  sh_note : text
}.

(** [Math.round] of a finite number: the integer nearest to it, a half
    taken upwards. *)
Definition Math_round (x : num) : Z :=
  match x with
  | S754_finite s m e =>
      let z := if s then Z.neg m else Z.pos m in
      match e with
      | Zneg k => ((2 * z + Z.pos (2 ^ k)) / Z.pos (2 ^ (k + 1)))%Z
      | _ => (z * 2 ^ e)%Z
      end
  | _ => 0%Z
  end.

(** [getSessionDuration] on two valid [Date] objects, from their time
    values, which are whole numbers of milliseconds of absolute value
    at most 8.64e15:
    [Math.max(0, Math.round((end - start) / (1000 * 60)))], the
    difference and the quotient being rounded to a double each. *)
Definition getSessionDuration (startTime endTime : Z) : N :=
  let durationMs := SFsub prec emax (num_of_Z endTime) (num_of_Z startTime) in
  let durationMinutes :=
    Math_round (SFdiv prec emax durationMs (num_of_Z (1000 * 60))) in
  Z.to_N (Z.max 0 durationMinutes).

(** [formatDuration] on a number of minutes. *)
Definition formatDuration (durationMinutes : N) : text :=
  if durationMinutes <? 60 then nat_text durationMinutes ++ txt " min"
  else
    let hours := durationMinutes / 60 in
    let minutes := durationMinutes mod 60 in
    if minutes =? 0 then nat_text hours ++ txt " hr"
    else nat_text hours ++ txt " hr " ++ nat_text minutes ++ txt " min".

(** The callback of [speakers.map] in [formatSpeakersForDisplay]. *)
Definition speaker_name (speaker : JSON) : exc JSON :=
  match speaker with
  | JStr _ => Ret speaker
  | JObj _ | JArr _ =>
      match get_prop speaker "fullName", get_prop speaker "firstName",
            get_prop speaker "lastName" with
      | Ret (Some fullName), Ret firstName, Ret lastName =>
          if truthy fullName then Ret fullName
          else
            match toStr (or_else firstName (JStr [])),
                  toStr (or_else lastName (JStr [])) with
            | Ret first, Ret last =>
                let name := trim (first ++ txt " " ++ last) in
                Ret (JStr (if is_nil name then txt "Unknown Speaker" else name))
            | _, _ => Throw
            end
      | Ret None, Ret firstName, Ret lastName =>
          match toStr (or_else firstName (JStr [])),
                toStr (or_else lastName (JStr [])) with
          | Ret first, Ret last =>
              let name := trim (first ++ txt " " ++ last) in
              Ret (JStr (if is_nil name then txt "Unknown Speaker" else name))
          | _, _ => Throw
          end
      | _, _, _ => Ret (JStr (txt "Unknown Speaker"))
      end
  | _ => Ret (JStr (txt "Unknown Speaker"))
  end.

(** [speakers.map(...)] *)
Fixpoint speaker_names (speakers : list JSON) : exc (list JSON) :=
  match speakers with
  | [] => Ret []
  | speaker :: rest =>
      match speaker_name speaker with
      | Ret n =>
          match speaker_names rest with
          | Ret l => Ret (n :: l)
          | Throw => Throw
          end
      | Throw => Throw
      end
  end.

Definition formatSpeakersForDisplay (speakers : JSON) : exc text :=
  match speakers with
  | JArr l =>
      match speaker_names l with
      | Ret speakerNames => array_join (txt ", ") speakerNames
      | Throw => Throw
      end
  | _ => Ret (txt "TBD")
  end.

(** One row of the table. *)
Record row := {
  row_sessionName : JSON;
  row_location : JSON;
  displayDate : text;
  displayStartTime : text;
  displayEndTime : text;
  displayTime : text;
  displayDuration : text;
  displaySpeakers : text;
  row_format : JSON;
  row_focus : JSON;
  row_sessionAbstract : JSON
}.

Section Display.

Variable Date_parse : JSON -> option Z.

(** [formatSessionDate] and [formatSessionTime] on a valid [Date]
    object: the result of [toLocaleDateString] and of
    [toLocaleTimeString] for its time value. *)
Variable formatSessionDate : Z -> text.
Variable formatSessionTime : Z -> text.

(** The [try] block of the callback: the time values kept for
    [session.startTime] and [session.endTime], each one when the
    property is truthy and its date is valid.  When [new Date] throws
    on the first, the [catch] leaves both [null]; when it throws on the
    second, the first is kept. *)
Definition session_times (startTime endTime : option JSON)
  : option Z * option Z :=
  match time_of Date_parse startTime with
  | Ret s =>
      match time_of Date_parse endTime with
      | Ret e => (s, e)
      | Throw => (s, None)
      end
  | Throw => (None, None)
  end.

(** The callback of [schedule.map] in [formattedScheduleForDisplay]. *)
Definition format_session (session : JSON) : exc row :=
  match get_prop session "sessionName", get_prop session "name",
        get_prop session "location", get_prop session "speakers",
        get_prop session "speaker", get_prop session "format",
        get_prop session "focus", get_prop session "sessionAbstract",
        get_prop session "abstract", get_prop session "startTime",
        get_prop session "endTime" with
  | Ret sessionName, Ret name, Ret location, Ret speakers, Ret speaker,
    Ret format, Ret focus, Ret sessionAbstract, Ret abstract, Ret startTime,
    Ret endTime =>
      let '(startTime, endTime) := session_times startTime endTime in
      match formatSpeakersForDisplay
              (or_else (or_opt speakers speaker) (JArr [])) with
      | Throw => Throw
      | Ret speakersText =>
      Ret {| row_sessionName :=
               or_else (or_opt sessionName name) (JStr (txt "Unnamed Session"));
             row_location := or_else location (JStr (txt "Unknown Location"));
             displayDate :=
               match startTime with
               | Some s => formatSessionDate s
               | None => txt "No Date"
               end;
             displayStartTime :=
               match startTime with
               | Some s => formatSessionTime s
               | None => txt "No Start Time"
               end;
             displayEndTime :=
               match endTime with
               | Some e => formatSessionTime e
               | None => txt "No End Time"
               end;
             displayTime :=
               match startTime, endTime with
               | Some s, Some e =>
                   formatSessionTime s ++ txt " - " ++ formatSessionTime e
               | _, _ => txt "No Time"
               end;
             displayDuration :=
               match startTime, endTime with
               | Some s, Some e => formatDuration (getSessionDuration s e)
               | _, _ => txt "No Duration"
               end;
             displaySpeakers := speakersText;
             row_format := or_else format (JStr (txt "Unknown Format"));
             row_focus := or_else focus (JStr (txt "No Focus Specified"));
             row_sessionAbstract :=
               or_else (or_opt sessionAbstract abstract)
                 (JStr (txt "No abstract available")) |}
      end
  | _, _, _, _, _, _, _, _, _, _, _ => Throw
  end.

Fixpoint format_sessions (schedule : list JSON) : exc (list row) :=
  match schedule with
  | [] => Ret []
  | session :: rest =>
      match format_session session with
      | Ret r =>
          match format_sessions rest with
          | Ret l => Ret (r :: l)
          | Throw => Throw
          end
      | Throw => Throw
      end
  end.

(** The getter [formattedScheduleForDisplay]. *)
Definition formattedScheduleForDisplay (proposedSchedule : option shown)
  : exc (list row) :=
  match proposedSchedule with
  | None => Ret []
  | Some p =>
      if negb (sh_success p) then Ret []
      else if is_nil (sh_schedule p) then Ret []
      else format_sessions (sh_schedule p)
  end.

(** [logScheduleDebugInfo] writes to the console only; it throws when
    [Object.keys] is given a [null] first session or when the getter
    [formattedScheduleForDisplay] throws. *)
Definition logScheduleDebugInfo (proposedSchedule : option shown) : exc unit :=
  match proposedSchedule with
  | None => Ret tt
  | Some p =>
      match sh_schedule p with
      | JNull :: _ => Throw
      | _ =>
          match formattedScheduleForDisplay proposedSchedule with
          | Ret _ => Ret tt
          | Throw => Throw
          end
      end
  end.

(** What [handleAgentResponse] leaves behind: the new
    [proposedSchedule], the [errorMessage] it assigns ([None] when it
    assigns none), whether it sets [showResults], and whether it ends
    by an exception. *)
Record handled := {
  proposedSchedule : shown;
  errorMessage : option text;
  showResults : bool;
  thrown : bool
}.

(** The object that [handleAgentResponse] assigns first. *)
Definition default_schedule : shown :=
  {| sh_success := false; sh_schedule := []; sh_totalSessions := 0;
     sh_locations := []; sh_timeRange := no_range;
     sh_message := txt "No schedule data available";
     sh_error := None; sh_rawResponse := None; sh_note := [] |}.

Definition handleAgentResponse (response : agent_reply) : handled :=
  if ar_success response then
    match
      (if ar_isChunked response && truthy_opt (ar_chunks response)
       then reconstructChunkedResponse (ar_chunks response)
       else Ret (ar_agentResponse response))
    with
    | Throw =>
        (* [chunks.join] threw: the default object stays *)
        {| proposedSchedule := default_schedule; errorMessage := None;
           showResults := false; thrown := true |}
    | Ret agentResponse =>
    let agentResponse := combineMultipleResponses agentResponse in
    let parsedSchedule := parseAgentResponse Date_parse agentResponse in
    if success parsedSchedule then
      let p :=
        {| sh_success := true;
           sh_schedule :=
             match schedule parsedSchedule with Some l => l | None => [] end;
           sh_totalSessions :=
             match totalSessions parsedSchedule with Some n => n | None => 0%nat end;
           sh_locations :=
             match locations parsedSchedule with Some l => l | None => [] end;
           sh_timeRange :=
             match timeRange parsedSchedule with Some r => r | None => no_range end;
           sh_message :=
             text_or (ar_message response) (txt "Schedule generated successfully");
           sh_error := None;
           sh_rawResponse := None;
           sh_note := text_or (note parsedSchedule) [] |} in
      {| proposedSchedule := p; errorMessage := None; showResults := true;
         thrown :=
           match logScheduleDebugInfo (Some p) with
           | Ret _ => false
           | Throw => true
           end |}
    else
      {| proposedSchedule :=
           {| sh_success := false; sh_schedule := []; sh_totalSessions := 0;
              sh_locations := []; sh_timeRange := no_range;
              sh_message := txt "Failed to parse schedule data";
              sh_error :=
                Some (text_or (error parsedSchedule) (txt "Unknown parsing error"));
              sh_rawResponse :=
                Some (text_or (rawResponse parsedSchedule) agentResponse);
              sh_note := text_or (note parsedSchedule) [] |};
         errorMessage :=
           Some (text_or (error parsedSchedule) (txt "Failed to parse schedule data"));
         showResults := false; thrown := false |}
    end
  else
    {| proposedSchedule :=
         {| sh_success := false; sh_schedule := []; sh_totalSessions := 0;
            sh_locations := []; sh_timeRange := no_range;
            sh_message := text_or (ar_message response) (txt "Agent invocation failed");
            sh_error := Some (text_or (ar_error response) (txt "Unknown error"));
            sh_rawResponse :=
              match ar_rawResponse response with
              | Some s => if is_nil s then None else Some s
              | None => None
              end;
            sh_note := [] |};
       errorMessage :=
         Some (text_or (ar_message response) (txt "Failed to generate schedule"));
       showResults := false; thrown := false |}.

End Display.

(** The getter [hasScheduleError], as a condition. *)
Definition hasScheduleError (proposedSchedule : option shown) : bool :=
  match proposedSchedule with
  | None => true
  | Some p =>
      negb (sh_success p)
      || match sh_error p with Some e => negb (is_nil e) | None => false end
      || is_nil (sh_schedule p)
  end.

(** The getter [scheduleErrorMessage]; [None] is [null]. *)
Definition scheduleErrorMessage (proposedSchedule : option shown) : option text :=
  match proposedSchedule with
  | None => Some (txt "No schedule data available")
  | Some p =>
      if match sh_error p with Some e => negb (is_nil e) | None => false end
      then sh_error p
      else if negb (sh_success p)
      then Some (text_or (Some (sh_message p)) (txt "Schedule generation failed"))
      else if is_nil (sh_schedule p)
      then Some (txt "No sessions found in the schedule")
      else None
  end.

(** The getter [hasNoScheduleData]. *)
Definition hasNoScheduleData (proposedSchedule : option shown) : bool :=
  match proposedSchedule with
  | None => true
  | Some p => negb (sh_success p) || is_nil (sh_schedule p)
  end.

(** The getter [noDataMessage]. *)
Definition noDataMessage (proposedSchedule : option shown) : text :=
  match proposedSchedule with
  | None => txt "No schedule data available. Please generate a schedule first."
  | Some p =>
      if negb (sh_success p)
      then text_or (sh_error p) (txt "Failed to generate schedule.")
      else if is_nil (sh_schedule p)
      then
        if negb (is_nil (sh_note p)) && includes (sh_note p) (txt "truncated")
        then txt "The response was truncated and no complete session data could be extracted. Please try again or contact support."
        else txt "No sessions found in the schedule."
      else txt "No schedule data available."
  end.

(** ** Status polling: [pollAsyncSessionStatus], [simulateAsyncProgress] *)

Module Polling.

Open Scope Q_scope.

(** The fields of the component that the two timers read and write.
    [pollInterval] and [progressInterval] tell whether the interval
    created by [setInterval] is still scheduled; [inflight] counts the
    status requests that have not been answered yet; [completions] and
    [failures] count the calls of [handleAsyncAgentCompletion] and
    [handleAsyncAgentFailure]. *)
Record component := {
  asyncSessionId : bool;
  asyncStatus : text;
  asyncProgress : Q;
  pollInterval : bool;
  progressInterval : bool;
  inflight : nat;
  completions : nat;
  failures : nat
}.

(** What [getAsyncSchedulingAgentStatus] answers, as far as the
    callbacks look at it. *)
Record status_response := {
  status : text;
  agentResponse : text
}.

Inductive event :=
| PollFire                          (* the callback of the 15 s interval *)
| PollAnswer (r : status_response)  (* the [then] of one status request *)
| ProgressFire (random : Q).        (* the callback of the 2 s interval,
                                       with the value of [Math.random()] *)

(** The component after [handleAsyncAgentInitiation] has started the
    monitoring of a session. *)
Definition monitoring : component :=
  {| asyncSessionId := true; asyncStatus := txt "Processing";
     asyncProgress := 0; pollInterval := true; progressInterval := true;
     inflight := 0; completions := 0; failures := 0 |}.

(** [handleAsyncAgentCompletion]: the progress is set to 100; the
    branch for a plain-text completion message returns before
    [cleanupAsyncIntervals], every other branch ends with it. *)
Definition handleAsyncAgentCompletion (r : status_response) (c : component) : component :=
  let direct := negb (is_nil (agentResponse r))
                && negb (startsWith (agentResponse r) [c_lbrace]) in
  {| asyncSessionId := asyncSessionId c; asyncStatus := asyncStatus c;
     asyncProgress := 100;
     pollInterval := if direct then pollInterval c else false;
     progressInterval := if direct then progressInterval c else false;
     inflight := inflight c;
     completions := S (completions c); failures := failures c |}.

(** [handleAsyncAgentFailure] *)
Definition handleAsyncAgentFailure (r : status_response) (c : component) : component :=
  {| asyncSessionId := asyncSessionId c; asyncStatus := asyncStatus c;
     asyncProgress := asyncProgress c;
     pollInterval := false; progressInterval := false;
     inflight := inflight c;
     completions := completions c; failures := S (failures c) |}.

Definition with_progress (c : component) (st : text) (p : Q) (poll : bool) : component :=
  {| asyncSessionId := asyncSessionId c; asyncStatus := st;
     asyncProgress := p; pollInterval := poll;
     progressInterval := progressInterval c; inflight := inflight c;
     completions := completions c; failures := failures c |}.

(** The [then] callback of [pollAsyncSessionStatus]. *)
Definition poll_answer (r : status_response) (c : component) : component :=
  let st := status r in
  if text_eqb st (txt "Pending") then with_progress c st 10 (pollInterval c)
  else if text_eqb st (txt "Processing")
  then with_progress c st (Qmin (asyncProgress c + 15) 85) (pollInterval c)
  else if text_eqb st (txt "Completed")
  then handleAsyncAgentCompletion r (with_progress c st 100 false)
  else if text_eqb st (txt "Failed")
  then handleAsyncAgentFailure r (with_progress c st 100 false)
  else with_progress c st (asyncProgress c) (pollInterval c).

(** The callback given to [setInterval] in [simulateAsyncProgress]. *)
Definition progress_fire (random : Q) (c : component) : component :=
  if negb (asyncSessionId c) || text_eqb (asyncStatus c) (txt "Completed")
     || text_eqb (asyncStatus c) (txt "Failed")
  then {| asyncSessionId := asyncSessionId c; asyncStatus := asyncStatus c;
          asyncProgress := asyncProgress c; pollInterval := pollInterval c;
          progressInterval := false; inflight := inflight c;
          completions := completions c; failures := failures c |}
  else if text_eqb (asyncStatus c) (txt "Processing")
          && negb (Qle_bool 85 (asyncProgress c))
  then with_progress c (asyncStatus c) (asyncProgress c + random * 5) (pollInterval c)
  else c.

(** The callback given to [setInterval] in [pollAsyncSessionStatus]. *)
Definition poll_fire (c : component) : component :=
  if negb (asyncSessionId c) then
    {| asyncSessionId := asyncSessionId c; asyncStatus := asyncStatus c;
       asyncProgress := asyncProgress c; pollInterval := false;
       progressInterval := progressInterval c; inflight := inflight c;
       completions := completions c; failures := failures c |}
  else
    {| asyncSessionId := asyncSessionId c; asyncStatus := asyncStatus c;
       asyncProgress := asyncProgress c; pollInterval := pollInterval c;
       progressInterval := progressInterval c; inflight := S (inflight c);
       completions := completions c; failures := failures c |}.

(** One event of the event loop; a callback of a cleared interval does
    not run, and an answer needs a pending request. *)
Definition step (c : component) (e : event) : component :=
  match e with
  | PollFire => if pollInterval c then poll_fire c else c
  | PollAnswer r =>
      match inflight c with
      | S n =>
          poll_answer r
            {| asyncSessionId := asyncSessionId c; asyncStatus := asyncStatus c;
               asyncProgress := asyncProgress c; pollInterval := pollInterval c;
               progressInterval := progressInterval c; inflight := n;
               completions := completions c; failures := failures c |}
      | O => c
      end
  | ProgressFire r => if progressInterval c then progress_fire r c else c
  end.

Definition run (c : component) (es : list event) : component := fold_left step es c.

Definition answer (st : string) : event :=
  PollAnswer {| status := txt st; agentResponse := [] |}.

(** Three polling periods: seven ticks of the 2 s progress timer, with
    [Math.random()] returning 0.625, before each firing of the 15 s
    status timer; the first two requests are answered "Processing". *)
Definition period : list event := repeat (ProgressFire ((5 # 8)%Q)) 7 ++ [PollFire].

Definition three_periods : list event :=
  period ++ [answer "Processing"] ++ period ++ [answer "Processing"] ++ period.

End Polling.

(** ** Batch coordination *)

Module Coordinator.

(** Modelled from the spec: the states of an AsyncSession (section 3). *)
Inductive status := Pending | Processing | Completed | Failed | Cancelled.

(** Modelled from the spec: the Apex class [SchedulingAgentQueueable]
    is not among the sources (only its README is); this is the
    BatchCoordinator state machine of section 4.5, with the ceiling of
    five links of section 6.  [enqueued] counts the links put on the
    queue for the chain, the first one included; [waiting] tells that
    an enqueued link has not run yet. *)
Record session := {
  st_status : status;
  totalProcessed : nat;
  chainDepth : nat;
  conversationId : option text;
  reason : text;
  enqueued : nat;
  waiting : bool
}.

(** Modelled from the spec: the hard ceiling of section 6, five links
    per chain. *)
Definition MAX_CHAIN_LENGTH : nat := 5.

(** Modelled from the spec: the agent answers a batch request with a
    well-formed batch (the slots created, the conversation id) or
    raises. *)
Inductive agent_outcome :=
| BatchDone (created : nat) (conversation : text)
| AgentRaised (message : text).

(** Modelled from the spec: what one link finds when it runs (the
    cancellation mark, the remaining count read afresh, the answer of
    the agent). *)
Record link_input := {
  cancel_requested : bool;
  remainingCount : nat;
  agent : agent_outcome
}.

(** Modelled from the spec: start of a chain, the first link enqueued,
    status Pending. *)
Definition start_chain : session :=
  {| st_status := Pending; totalProcessed := 0; chainDepth := 0;
     conversationId := None; reason := []; enqueued := 1; waiting := true |}.

(** Modelled from the spec: a terminal transition; no link is enqueued
    after it. *)
Definition stop (s : session) (st : status) (why : text) : session :=
  {| st_status := st; totalProcessed := totalProcessed s;
     chainDepth := chainDepth s; conversationId := conversationId s;
     reason := why; enqueued := enqueued s; waiting := false |}.

(** Modelled from the spec: one link, steps (a) to (f) of section 4.5,
    after the cancellation check of section 5. *)
Definition run_link (s : session) (i : link_input) : session :=
  if negb (waiting s) then s
  else if cancel_requested i then stop s Cancelled (txt "cancelled")
  else if (remainingCount i =? 0)%nat
  then stop s Completed (txt "Successfully scheduled all sessions in batches.")
  else
    match agent i with
    | AgentRaised msg => stop s Failed msg
    | BatchDone created conv =>
        let s' :=
          {| st_status := Processing;
             totalProcessed := totalProcessed s + created;
             chainDepth := S (chainDepth s);
             conversationId :=
               match conversationId s with
               | Some c => Some c
               | None => Some conv
               end;
             reason := reason s; enqueued := enqueued s; waiting := false |} in
        if (MAX_CHAIN_LENGTH <=? chainDepth s')%nat
        then stop s' Failed (txt "chain limit reached")
        else
          {| st_status := Processing; totalProcessed := totalProcessed s';
             chainDepth := chainDepth s'; conversationId := conversationId s';
             reason := reason s'; enqueued := S (enqueued s'); waiting := true |}
    end.

(** Modelled from the spec: the links of a chain run one after the
    other. *)
Definition run_chain (s : session) (inputs : list link_input) : session :=
  fold_left run_link inputs s.

Definition terminal (st : status) : Prop :=
  st = Completed \/ st = Failed \/ st = Cancelled.

(** What holds of every session reached from [start_chain]. *)
Definition chain_inv (s : session) : Prop :=
  (enqueued s <= MAX_CHAIN_LENGTH)%nat
  /\ (waiting s = true ->
      enqueued s = S (chainDepth s) /\ (chainDepth s < MAX_CHAIN_LENGTH)%nat)
  /\ (waiting s = false ->
      terminal (st_status s)
      /\ (chainDepth s <= MAX_CHAIN_LENGTH)%nat
      /\ (chainDepth s = MAX_CHAIN_LENGTH ->
          st_status s = Failed /\ reason s = txt "chain limit reached"
          /\ enqueued s = MAX_CHAIN_LENGTH)).

(** A link that finds work and completes a batch of ten. *)
Definition full_batch : link_input :=
  {| cancel_requested := false; remainingCount := 40;
     agent := BatchDone 10 (txt "conv-1") |}.

End Coordinator.

(** A [Date_parse] for the examples, none of which carries a time. *)
Definition no_dates (_ : JSON) : option Z := None.

(** ** Payloads of the examples *)

Definition keynote_wrapper : text :=
  js "{'type':'Text','value':'[{\'sessionName\':\'Keynote\',\'location\':\'Hall A\'}]'}".

Definition keynote_slot : JSON :=
  JObj [(txt "sessionName", JStr (txt "Keynote"));
        (txt "location", JStr (txt "Hall A"))].

(** ** Vocabulary of the statements *)

(** The sum that [mergeScheduleData] accumulates with [+=] from the
    truthy [totalSessions] properties of the fragments, in order,
    starting from the number 0; [Throw] when one of the additions
    throws. *)
Definition merge_report (acc : exc JSON) (o : list (text * JSON)) : exc JSON :=
  match acc with
  | Ret a =>
      match obj_get (txt "totalSessions") o with
      | Some t => if truthy t then js_add a t else Ret a
      | None => Ret a
      end
  | Throw => Throw
  end.

Definition reported_total (objs : list (list (text * JSON))) : exc JSON :=
  fold_left merge_report objs (Ret (JNum (S754_zero false))).

(** [d] was taken as a default, or the value is a truthy one of the
    candidate. *)
Definition defaulted (d v : JSON) : Prop := v = d \/ truthy v = true.

(** A slot as [extractPartialScheduleData] builds it: the two required
    fields truthy, every other field present. *)
Definition complete_slot (slot : JSON) : Prop :=
  exists name loc speakers startTime endTime format focus abstract,
    slot = JObj [(txt "sessionName", name); (txt "location", loc);
                 (txt "speakers", speakers); (txt "startTime", startTime);
                 (txt "endTime", endTime); (txt "format", format);
                 (txt "focus", focus); (txt "sessionAbstract", abstract)]
    /\ truthy name = true /\ truthy loc = true
    /\ defaulted speaker_tbd speakers
    /\ defaulted JNull startTime /\ defaulted JNull endTime
    /\ defaulted default_format format /\ defaulted default_focus focus
    /\ defaulted default_abstract abstract.

(** [session] is what one of the two recovery loops parses from a
    candidate that it finds in [response]: a candidate of the
    brace-matching loop after the two repairs, or a match of the
    aggressive pattern, closed when it does not end with a brace and
    repaired. *)
Definition parsed_candidate (response : text) (session : JSON) : Prop :=
  (exists cand,
     In cand (partial_scan (clean_response response))
     /\ JSON_parse (strip_trailing_comma (strip_comma_brace cand)) = Some session)
  \/ (exists cand,
        In cand (aggressive_matches (clean_response response))
        /\ JSON_parse
             (strip_comma_brace
                (if endsWith cand [c_rbrace] then cand else cand ++ [c_rbrace]))
           = Some session).

(** [slot] holds the fields of the candidate [session] and nothing
    else: [session] has a truthy [sessionName] and a truthy [location],
    which [slot] carries unchanged, and each other field of [slot] is
    the truthy field of [session] or, without one, its default. *)
Definition completes (session slot : JSON) : Prop :=
  exists name loc speakers startTime endTime format focus sessionAbstract abstract,
    get_prop session "sessionName" = Ret (Some name) /\ truthy name = true
    /\ get_prop session "location" = Ret (Some loc) /\ truthy loc = true
    /\ get_prop session "speakers" = Ret speakers
    /\ get_prop session "startTime" = Ret startTime
    /\ get_prop session "endTime" = Ret endTime
    /\ get_prop session "format" = Ret format
    /\ get_prop session "focus" = Ret focus
    /\ get_prop session "sessionAbstract" = Ret sessionAbstract
    /\ get_prop session "abstract" = Ret abstract
    /\ slot = JObj [(txt "sessionName", name);
                    (txt "location", loc);
                    (txt "speakers", or_else speakers speaker_tbd);
                    (txt "startTime", or_else startTime JNull);
                    (txt "endTime", or_else endTime JNull);
                    (txt "format", or_else format default_format);
                    (txt "focus", or_else focus default_focus);
                    (txt "sessionAbstract",
                     or_else (or_opt sessionAbstract abstract) default_abstract)].

(** What both recovery loops guarantee of a slot that they keep for
    [response]. *)
Definition recovered_from (response : text) (slot : JSON) : Prop :=
  complete_slot slot
  /\ exists session,
       parsed_candidate response session /\ completes session slot.

Definition example_truncated : text :=
  js "[{'sessionName':'A','location':'Room1'},{'sessionName':'B'".

Definition slot_A : JSON :=
  JObj [(txt "sessionName", JStr (txt "A")); (txt "location", JStr (txt "Room1"));
        (txt "speakers", speaker_tbd); (txt "startTime", JNull);
        (txt "endTime", JNull); (txt "format", default_format);
        (txt "focus", default_focus); (txt "sessionAbstract", default_abstract)].

Definition fragment_5 : list (text * JSON) :=
  [(txt "schedule", JArr [keynote_slot]); (txt "totalSessions", JNum (num_of_Z 5))].
Definition fragment_7 : list (text * JSON) :=
  [(txt "schedule", JArr [slot_A]); (txt "totalSessions", JNum (num_of_Z 7))].




(** [s] without its backslashes and without the character after each. *)
Fixpoint delete_escapes (s : text) : text :=
  match s with
  | [] => []
  | c :: r =>
      if c =? c_bslash
      then match r with
           | [] => []
           | _ :: r' => delete_escapes r'
           end
      else c :: delete_escapes r
  end.

Definition no_backslash (s : text) : Prop := ~ In c_bslash s.

Definition escaped_record_payload : text :=
  js "[{'sessionName':'A','location':'R'},{'sessionName':'B\'C','location':'S'},{'sessionName':'D'".

(** The [sessionName] of a slot, when it is a string. *)
Definition session_name (slot : JSON) : option text :=
  match get_prop slot "sessionName" with
  | Ret (Some (JStr n)) => Some n
  | _ => None
  end.

Definition truncated_wrapper : text :=
  js "{'type':'Text','value':'[{\'sessionName\':\'A\'".

Definition truncated_wrapper_content : text :=
  js "[{\'sessionName\':\'A\'".

(** The part of the state of the brace-matching loop that decides its
    control flow. *)
Record ctl := { k_count : Z; k_inString : bool; k_esc : bool }.

Definition ctl_of (st : partial_state) : ctl :=
  {| k_count := ps_braceCount st; k_inString := ps_inString st;
     k_esc := ps_escapeNext st |}.

Definition ctl_step (k : ctl) (c : char) : ctl :=
  if k_esc k then {| k_count := k_count k; k_inString := k_inString k; k_esc := false |}
  else if c =? c_bslash
  then {| k_count := k_count k; k_inString := k_inString k; k_esc := true |}
  else
    let inString := if c =? c_quote then negb (k_inString k) else k_inString k in
    {| k_count :=
         if inString then k_count k
         else if c =? c_lbrace then (k_count k + 1)%Z
         else if c =? c_rbrace then (k_count k - 1)%Z
         else k_count k;
       k_inString := inString; k_esc := false |}.

Definition ctl_run (k : ctl) (s : text) : ctl := fold_left ctl_step s k.

Definition ctl_idle (n : Z) : ctl :=
  {| k_count := n; k_inString := false; k_esc := false |}.

(** Opening minus closing braces among tokens. *)
Definition tok_delta (t : token) : Z :=
  match t with
  | TLBrace => 1
  | TRBrace => -1
  | _ => 0
  end%Z.

Fixpoint brace_delta (ts : list token) : Z :=
  match ts with
  | [] => 0
  | t :: r => tok_delta t + brace_delta r
  end%Z.

Definition lex_in_string (st : lexst) : bool :=
  match st with
  | LStr _ | LEsc _ | LUni _ _ _ => true
  | _ => false
  end.

Definition lex_in_escape (st : lexst) : bool :=
  match st with
  | LEsc _ => true
  | _ => false
  end.

(** The loop of [extractPartialScheduleData] and the lexer of
    [JSON.parse] agree on strings, escapes and braces: [k] is the
    control state of the loop after the text that brought the lexer,
    started outside a string at brace count [n], to [st] and [toks]. *)
Definition lex_sim (n : Z) (st : lexst) (toks : list token) (k : ctl) : Prop :=
  k_count k = (n + brace_delta toks)%Z
  /\ k_inString k = lex_in_string st
  /\ k_esc k = lex_in_escape st.

Fixpoint obj_depth (stack : list frame) : Z :=
  match stack with
  | [] => 0
  | FObj _ _ :: r => 1 + obj_depth r
  | FArr _ :: r => obj_depth r
  end%Z.

(** A state of the brace-matching loop, from what it has recorded, the
    object it is reading and its control state. *)
Definition scan_state_of (objs : list text) (cur : text) (k : ctl) : partial_state :=
  {| ps_sessionObjects := objs; ps_currentObject := cur;
     ps_braceCount := k_count k; ps_inString := k_inString k;
     ps_escapeNext := k_esc k |}.

Definition backslash_free (s : text) : bool :=
  forallb (fun c => negb (c =? c_bslash)) s.

(** A character that the loop does not react to outside a string. *)
Definition inert (c : char) : bool :=
  negb ((c =? c_bslash) || (c =? c_quote) || (c =? c_lbrace) || (c =? c_rbrace)).

(** The bottom frame of the stack is an object. *)
Definition rooted (stack : list frame) : Prop :=
  exists up acc pend, stack = up ++ [FObj acc pend].

Definition is_done (m : pmode) : bool :=
  match m with PDone _ => true | _ => false end.

(** After a step, either the bottom object is still open or the
    top-level value is complete. *)
Definition settled (m : pmode) (stack : list frame) : Prop :=
  (rooted stack /\ is_done m = false) \/ (stack = [] /\ is_done m = true).

(** ** Truncated arrays of session records *)

(** One complete record of a payload: the text between the previous
    record (or the opening bracket) and this one, the text of the
    record, and what recovery is to return for it. *)
Record piece := {
  p_sep : text;
  p_text : text;
  p_slot : JSON;
  p_loc : JSON
}.

(** Commas and JSON white space. *)
Definition is_separator (s : text) : bool :=
  forallb (fun c => (c =? c_comma) || is_json_ws c) s.

(** [r] runs from an opening to a closing brace and [JSON.parse]
    accepts it. *)
Definition is_object_text (r : text) : bool :=
  match r with
  | c :: rest =>
      (c =? c_lbrace)
      && match rev rest with
         | d :: _ => d =? c_rbrace
         | [] => false
         end
      && match JSON_parse r with
         | Some _ => true
         | None => false
         end
  | [] => false
  end.

(** The record [r] parsed and completed with the defaults, as a full
    parse followed by the completion of [extractPartialScheduleData]
    gives it. *)
Definition normalised (r : text) : option (JSON * JSON) :=
  match JSON_parse r with
  | Some session =>
      match complete_session session with
      | Ret x => x
      | Throw => None
      end
  | None => None
  end.

(** [new Date] accepts the value of a time property of a slot: the
    value is falsy and not converted, or it can be made primitive. *)
Definition time_converts (v : option JSON) : bool :=
  match v with
  | Some x =>
      if truthy x
      then match to_primitive x with Ret _ => true | Throw => false end
      else true
  | None => true
  end.

Definition times_convert (slot : JSON) : bool :=
  match get_prop slot "startTime", get_prop slot "endTime" with
  | Ret startTime, Ret endTime => time_converts startTime && time_converts endTime
  | _, _ => false
  end.

(** A well-formed record: an object text without backslash escape and
    without a comma followed by white space and a closing brace, that
    has a truthy [sessionName] and [location], and whose [startTime]
    and [endTime], when truthy, are values that [new Date] accepts. *)
Definition piece_ok (pc : piece) : Prop :=
  is_separator (p_sep pc) = true
  /\ is_object_text (p_text pc) = true
  /\ backslash_free (p_text pc) = true
  /\ strip_comma_brace (p_text pc) = p_text pc
  /\ normalised (p_text pc) = Some (p_slot pc, p_loc pc)
  /\ times_convert (p_slot pc) = true.

Definition pieces_text (pieces : list piece) : text :=
  concat (map (fun pc => p_sep pc ++ p_text pc) pieces).

(** The opening bracket, the complete records, and what is left of the
    payload after them. *)
Definition truncated_array (pieces : list piece) (tail : text) : text :=
  c_lbrack :: pieces_text pieces ++ tail.

Definition example_piece : piece :=
  {| p_sep := []; p_text := js "{'sessionName':'A','location':'Room1'}";
     p_slot := slot_A; p_loc := JStr (txt "Room1") |}.

Definition example_last : text := js "{'sessionName':'B','location':'Room2'}".

Definition first_record_truncated : text := js "[{'sessionName':'A','location':'Room1'".

Definition comma_brace_payload : text :=
  js "[{'sessionName':'A, }B','location':'R'},{'sessionName':'C'".

Definition counted_fragments : text :=
  js "{'schedule':[{'sessionName':'A','location':'X'}],'totalSessions':5}{'schedule':[{'sessionName':'B','location':'Y'}],'totalSessions':7}".

(** The wrapper example with its escapes already undone (not valid
    JSON any more). *)
Definition keynote_wrapper_unescaped : text :=
  js "{'type':'Text','value':'[{'sessionName':'Keynote','location':'Hall A'}]'}".

(** ** Vocabulary of the statements on the fragment scanners *)

(** [frag] is a contiguous part of [response] that runs from [op] to
    [cl] and that [JSON.parse] accepts. *)
Definition delimited_json (op cl : char) (response frag : text) : Prop :=
  JSON_parse frag <> None
  /\ exists pre mid post,
       response = pre ++ frag ++ post /\ frag = op :: mid ++ [cl].

(** What the loop of the scanners keeps after it has read [pre]: a
    recorded start index points at an opening character of [pre], and
    the fragments found so far are well delimited. *)
Definition scan_inv (op cl : char) (response pre : text) (st : scan_state) : Prop :=
  (forall a, sc_start st = Some a ->
     (a < length pre)%nat /\ nth_error response a = Some op)
  /\ Forall (delimited_json op cl response) (sc_found st).

(** A state of the scanner, from its control state, the start index
    and the fragments found. *)
Definition scan_state_at (k : ctl) (start : option nat) (found : list text)
  : scan_state :=
  {| sc_count := k_count k; sc_start := start; sc_inString := k_inString k;
     sc_escapeNext := k_esc k; sc_found := found |}.

Definition ctl_of_scan (st : scan_state) : ctl :=
  {| k_count := sc_count st; k_inString := sc_inString st;
     k_esc := sc_escapeNext st |}.

(** Object texts, each after a text that the scanner does not react
    to, and what follows the last of them. *)
Definition fragments_text (frs : list (text * text)) (tail : text) : text :=
  concat (map (fun f => fst f ++ snd f) frs) ++ tail.

Definition fragment_ok (f : text * text) : Prop :=
  forallb inert (fst f) = true /\ is_object_text (snd f) = true.

Definition two_records : list (text * text) :=
  [(js "[", js "{'sessionName':'A','location':'Room1'}");
   (js ", ", js "{'sessionName':'B \'x\'','location':'Room2'}")].

(** ** Vocabulary of the statements on the result of [parseAgentResponse] *)

(** The summary fields of a successful result are computed from its
    schedule [sched]. *)
Definition derived_summary (Date_parse : JSON -> option Z) (p : proposal)
  (sched : list JSON) : Prop :=
  exists locs tr,
    schedule p = Some sched
    /\ totalSessions p = Some (length sched)
    /\ location_values sched = Ret locs
    /\ locations p = Some (set_of_list locs)
    /\ calculateTimeRange Date_parse sched = Ret tr
    /\ timeRange p = Some tr
    /\ error p = None.

(** A failure carries a message and no schedule data. *)
Definition failure_report (p : proposal) : Prop :=
  schedule p = None /\ totalSessions p = None /\ locations p = None
  /\ timeRange p = None /\ isPartial p = None
  /\ exists e, error p = Some e /\ e <> [].

(** The three kinds of result: a failure, a fully parsed schedule, a
    schedule recovered from the response [raw]. *)
Definition result_kind (Date_parse : JSON -> option Z) (raw : text)
  (p : proposal) : Prop :=
  (success p = false /\ failure_report p)
  \/ (success p = true /\ isPartial p = None /\ rawResponse p = None
      /\ exists sched, derived_summary Date_parse p sched)
  \/ (success p = true /\ isPartial p = Some true /\ rawResponse p = Some raw
      /\ exists sched,
           derived_summary Date_parse p sched /\ sched <> []
           /\ Forall complete_slot sched).

(** ** Vocabulary of the statements on [calculateTimeRange] *)

(** The time that [calculateTimeRange] takes from the property [key] of
    an entry: the property is truthy and [new Date] gives a valid
    date. *)
Definition valid_time (Date_parse : JSON -> option Z) (key : string)
  (item : JSON) : option Z :=
  match get_prop item key with
  | Ret v =>
      match time_of Date_parse v with
      | Ret t => t
      | Throw => None
      end
  | Throw => None
  end.

(** The lesser, or the greater, of two times of which either may be
    missing. *)
Definition earlier (a b : option Z) : option Z :=
  match a, b with
  | Some x, Some y => Some (Z.min x y)
  | Some x, None => Some x
  | None, y => y
  end.

Definition later (a b : option Z) : option Z :=
  match a, b with
  | Some x, Some y => Some (Z.max x y)
  | Some x, None => Some x
  | None, y => y
  end.

(** [m] is the least of the times [ts] ([None] when there is none). *)
Definition least_of (ts : list (option Z)) (m : option Z) : Prop :=
  (forall t, In (Some t) ts -> exists s, m = Some s /\ (s <= t)%Z)
  /\ (forall s, m = Some s -> In (Some s) ts).

Definition greatest_of (ts : list (option Z)) (m : option Z) : Prop :=
  (forall t, In (Some t) ts -> exists s, m = Some s /\ (t <= s)%Z)
  /\ (forall s, m = Some s -> In (Some s) ts).

(** A [Date_parse] for the examples: the time value of a number that
    is a whole number of milliseconds, no date for a string. *)
Definition dates_of_numbers (v : JSON) : option Z :=
  match v with
  | JNum (S754_zero _) => Some 0%Z
  | JNum (S754_finite s m e) =>
      let z := if s then Z.neg m else Z.pos m in
      match e with
      | Zneg k =>
          if (z mod Z.pos (2 ^ k) =? 0)%Z then Some (z / Z.pos (2 ^ k))%Z
          else None
      | _ => Some (z * 2 ^ e)%Z
      end
  | _ => None
  end.

Definition three_timed_slots : list JSON :=
  [JObj [(txt "startTime", JNum (num_of_Z 50)); (txt "endTime", JNum (num_of_Z 60))];
   JObj [(txt "startTime", JNum (num_of_Z 20)); (txt "endTime", JStr (txt "later"))];
   JObj [(txt "startTime", JNum (num_of_Z 0)); (txt "endTime", JNum (num_of_Z 90))]].

(** ** Vocabulary of the statements on the polling client *)

(** [Math.random()] returns a number from 0 up to, but not including,
    1. *)
Definition unit_random (e : Polling.event) : Prop :=
  match e with
  | Polling.ProgressFire r => (0 <= r /\ r < 1)%Q
  | _ => True
  end.

(** The progress is a percentage, and stays under 90 until one of the
    two terminal handlers has run. *)
Definition progress_in_range (c : Polling.component) : Prop :=
  (0 <= Polling.asyncProgress c /\ Polling.asyncProgress c <= 100)%Q
  /\ ((Polling.completions c + Polling.failures c = 0)%nat ->
      (Polling.asyncProgress c < 90)%Q).

(** A session whose terminal answer has been handled and that has no
    status request left in flight. *)
Definition session_closed (c : Polling.component) : Prop :=
  Polling.pollInterval c = false /\ Polling.inflight c = 0%nat
  /\ (Polling.asyncStatus c = txt "Completed"
      \/ Polling.asyncStatus c = txt "Failed")
  /\ Polling.asyncProgress c = 100%Q.

(** ** Vocabulary of the statements on cleaning, scanning and merging *)

(** What the brace-matching loop of [extractPartialScheduleData] keeps:
    the object under construction is empty while the brace count is
    not positive and starts with an opening brace otherwise, and every
    recorded candidate runs from an opening to a closing brace. *)
Definition braced (s : text) : Prop := exists mid, s = c_lbrace :: mid ++ [c_rbrace].

Definition partial_inv (st : partial_state) : Prop :=
  ((ps_braceCount st <= 0)%Z -> ps_currentObject st = [])
  /\ ((0 < ps_braceCount st)%Z -> exists m, ps_currentObject st = c_lbrace :: m)
  /\ Forall braced (ps_sessionObjects st).

(** The items that [mergeScheduleData] takes from one fragment:
    [schedule.schedule || schedule.sessions || schedule.proposedSchedule
    || []] when that is an array. *)
Definition fragment_items (o : list (text * JSON)) : list JSON :=
  array_items
    (or_else (or_opt (or_opt (obj_get (txt "schedule") o) (obj_get (txt "sessions") o))
                (obj_get (txt "proposedSchedule") o))
       (JArr [])).

(** The locations that [mergeScheduleData] takes from one fragment. *)
Definition fragment_locations (o : list (text * JSON)) : list JSON :=
  match obj_get (txt "locations") o with
  | Some (JArr l) => l
  | _ => []
  end.

(** A record of an array: an object without a truthy [schedule],
    [sessions] or [proposedSchedule]. *)
Definition plain_record (r : text) : bool :=
  match JSON_parse r with
  | Some (JObj m) =>
      negb (truthy_opt (obj_get (txt "schedule") m)
            || truthy_opt (obj_get (txt "sessions") m)
            || truthy_opt (obj_get (txt "proposedSchedule") m))
  | _ => false
  end.

(** The text of an array whose elements are the object texts of [frs],
    each after its separator. *)
Definition array_text (frs : list (text * text)) (tail : text) : text :=
  c_lbrack :: fragments_text frs (tail ++ [c_rbrack]).

Definition two_plain_records : list (text * text) :=
  [([], js "{'sessionName':'A','location':'Room1'}");
   (js ",", js "{'sessionName':'B','location':'Room2'}")].

(** A reply of the controller that carries [agentResponse] only. *)
Definition plain_reply (agentResponse : text) : agent_reply :=
  {| ar_success := true; ar_isChunked := false; ar_chunks := None;
     ar_agentResponse := agentResponse; ar_message := None;
     ar_error := None; ar_rawResponse := None |}.

Definition no_format (_ : Z) : text := [].

(** No entry of [l] is the same [Set] entry as an earlier one. *)
Fixpoint distinct_values (l : list JSON) : Prop :=
  match l with
  | [] => True
  | a :: r => Forall (fun b => same_value b a = false) r /\ distinct_values r
  end.

Definition two_rooms : text :=
  js "[{'sessionName':'A','location':'Room1'},{'sessionName':'B','location':'Room1'},{'sessionName':'C','location':'Room2'}]".

(** A text that starts with an opening brace, an opening bracket or a
    double quote and ends with a closing brace, a closing bracket or a
    double quote. *)
Definition json_shaped (core : text) : Prop :=
  exists x mid y,
    (core = x :: mid ++ [y] \/ (core = [x] /\ y = x))
    /\ is_json_starter x = true /\ is_json_ender y = true.

(* ================================================================== *)
(** * Part II.  Properties                                             *)
(* ================================================================== *)

(** ** Fragment combination on concatenated arrays *)

(** C2.  Two valid arrays of session records, concatenated with or
    without a "Part 2" marker, are not merged into one array of
    [len(A) + len(B)] items: the object scanner of
    [combineMultipleResponses] runs first, finds the two records inside
    the arrays, and [combineJsonObjects] returns the first record
    alone. *)
Theorem C2_concatenated_arrays_give_first_object :
  combineMultipleResponses
    (js "[{'sessionName':'A','location':'X'}][{'sessionName':'B','location':'Y'}]")
  = js "{'sessionName':'A','location':'X'}"
  /\
  combineMultipleResponses
    (js "[{'sessionName':'A','location':'X'}] Part 2 [{'sessionName':'B','location':'Y'}]")
  = js "{'sessionName':'A','location':'X'}".
Proof. split; vm_compute; reflexivity. Qed.

(** Arrays without objects do reach [combineJsonArrays] and are
    concatenated in order. *)
Example combine_scalar_arrays :
  combineMultipleResponses (js "[1,2] Part 2 [3]") = js "[1,2,3]".
Proof. vm_compute; reflexivity. Qed.

(** ** The wrapper example *)


(** C4.  On the wrapper example the only slot has no [speakers]
    property: the full-parse path returns the parsed objects as they
    are. *)
Lemma C4_speakers_not_defaulted :
  ~ (exists slot,
        schedule (parseAgentResponse no_dates keynote_wrapper) = Some [slot]
        /\ get_prop slot "speakers" = Ret (Some speaker_tbd)).
Proof.
  intros [slot [H1 H2]].
  vm_compute in H1. injection H1 as <-. vm_compute in H2. discriminate.
Qed.

(** C4 (amended).  For the wrapper example [parseAgentResponse]
    succeeds with exactly one slot, named Keynote and located in
    Hall A, left as parsed (no [speakers] default is added);
    [totalSessions] is 1 and [locations] is [["Hall A"]]. *)
Theorem C4_wrapper_example (Date_parse : JSON -> option Z) :
  parseAgentResponse Date_parse keynote_wrapper
  = {| success := true;
       schedule := Some [keynote_slot];
       totalSessions := Some 1%nat;
       locations := Some [JStr (txt "Hall A")];
       timeRange := Some no_range;
       error := None; rawResponse := None;
       note := Some (txt "Response may be truncated due to platform limits");
       isPartial := None |}.
Proof. vm_compute; reflexivity. Qed.

(** When the same payload first goes through
    [combineMultipleResponses], as in [handleAgentResponse], the
    wrapper is unescaped in place and no longer parses; the slot is
    then rebuilt by the manual fall-back and the recovery path, with
    the default speakers and the partial flag. *)
Example keynote_through_handleAgentResponse :
  combineMultipleResponses keynote_wrapper = keynote_wrapper_unescaped
  /\ isPartial (parseAgentResponse no_dates keynote_wrapper_unescaped) = Some true
  /\ exists slot,
       schedule (parseAgentResponse no_dates keynote_wrapper_unescaped) = Some [slot]
       /\ get_prop slot "speakers" = Ret (Some speaker_tbd).
Proof.
  vm_compute. split; [reflexivity|]. split; [reflexivity|].
  eexists. split; reflexivity.
Qed.

(** ** The chain of the batch coordinator *)

Section ChainLimit.
Import Coordinator.



Lemma chain_inv_start : chain_inv start_chain.
Proof.
  unfold chain_inv, start_chain, MAX_CHAIN_LENGTH; simpl.
  repeat split; try lia; discriminate.
Qed.

Lemma chain_inv_link s i : chain_inv s -> chain_inv (run_link s i).
Proof.
  unfold run_link.
  destruct (waiting s) eqn:W; cbn [negb]; intros H; [|exact H].
  destruct H as (Hq & Hw & _). destruct (Hw W) as [He Hd].
  unfold MAX_CHAIN_LENGTH in *.
  destruct (cancel_requested i).
  { unfold chain_inv, stop, terminal, MAX_CHAIN_LENGTH; simpl.
    repeat split; auto; try lia; try discriminate. }
  destruct (remainingCount i =? 0)%nat.
  { unfold chain_inv, stop, terminal, MAX_CHAIN_LENGTH; simpl.
    repeat split; auto; try lia; try discriminate. }
  destruct (agent i) as [created conv|msg].
  - cbv zeta. cbn [chainDepth]. destruct (5 <=? S (chainDepth s))%nat eqn:L.
    + apply Nat.leb_le in L.
      unfold chain_inv, stop, terminal, MAX_CHAIN_LENGTH; simpl.
      repeat split; auto; try lia; try discriminate.
    + apply Nat.leb_gt in L.
      unfold chain_inv, terminal, MAX_CHAIN_LENGTH; simpl.
      repeat split; auto; try lia; try discriminate.
  - unfold chain_inv, stop, terminal, MAX_CHAIN_LENGTH; simpl.
    repeat split; auto; try lia; try discriminate.
Qed.

Lemma chain_inv_run inputs : forall s, chain_inv s -> chain_inv (run_chain s inputs).
Proof.
  induction inputs as [|i r IH]; intros s H; simpl; auto.
  apply IH, chain_inv_link, H.
Qed.

(** C3.  Whatever the links of a chain find, at most five links are
    ever enqueued for it; and once five links have run (the sixth
    would be next) the session is Failed with a reason that contains
    "chain limit": the chain never just stops. *)
Theorem C3_chain_limit (inputs : list link_input) :
  let s := run_chain start_chain inputs in
  (enqueued s <= 5)%nat
  /\ (chainDepth s = 5%nat ->
      st_status s = Failed
      /\ includes (reason s) (txt "chain limit") = true
      /\ enqueued s = 5%nat)
  /\ (waiting s = false -> terminal (st_status s)).
Proof.
  intros s.
  destruct (chain_inv_run inputs chain_inv_start) as (Hq & Hw & Hs).
  fold s in Hq, Hw, Hs. unfold MAX_CHAIN_LENGTH in *.
  split; [exact Hq|]. split.
  - intros D. destruct (waiting s) eqn:W.
    + destruct (Hw eq_refl) as [_ Hd]. lia.
    + destruct (Hs eq_refl) as (_ & _ & Hf).
      destruct (Hf D) as (F & R & E).
      rewrite F, R, E. repeat split. 
  - intros W. apply Hs, W.
Qed.


(** Five links that each find work and complete a batch. *)
Lemma C3_chain_limit_witness :
  let s := run_chain start_chain (repeat full_batch 5) in
  chainDepth s = 5%nat
  /\ st_status s = Failed
  /\ includes (reason s) (txt "chain limit") = true
  /\ enqueued s = 5%nat.
Proof.
  intros s. split; [reflexivity|].
  exact (proj1 (proj2 (C3_chain_limit (repeat full_batch 5))) eq_refl).
Defined.

End ChainLimit.

(** ** The progress estimate of the polling client *)

Section PollingProgress.
Import Polling.
Open Scope Q_scope.


(** C9.  The progress estimate is not monotone: after the trace above
    the simulated progress stands at 86.25 (the guard [asyncProgress <
    85] lets one more increment through), and the next "Processing"
    answer sets it back to [Math.min(86.25 + 15, 85) = 85]. *)
Theorem C9_progress_estimate_decreases :
  let before := run monitoring three_periods in
  let after := step before (answer "Processing") in
  asyncStatus before = txt "Processing"
  /\ asyncProgress before == 345 # 4
  /\ asyncProgress after == 85
  /\ asyncProgress after < asyncProgress before.
Proof.
  vm_compute. repeat split; intro; discriminate.
Qed.

(** The terminal part of the claim does hold: an answer "Completed" or
    "Failed" sets the progress to 100, clears the polling interval and
    calls the matching handler once. *)
Lemma poll_answer_terminal (r : status_response) (c : component) :
  status r = txt "Completed" \/ status r = txt "Failed" ->
  let c' := poll_answer r c in
  asyncProgress c' == 100
  /\ pollInterval c' = false
  /\ (completions c' + failures c' = S (completions c + failures c))%nat.
Proof.
  intros [H|H]; unfold poll_answer; rewrite H; simpl;
    repeat split; try reflexivity; try lia.
  destruct (negb (is_nil (agentResponse r)) && _); reflexivity.
Qed.

End PollingProgress.

(** ** [totalSessions] *)

Lemma partial_result_total dp content raw a b c :
  totalSessions (partial_result dp content raw a b c)
  = option_map (@length JSON) (schedule (partial_result dp content raw a b c)).
Proof.
  unfold partial_result.
  destruct (negb (is_nil (pd_schedule (extractPartialScheduleData dp content))));
    reflexivity.
Qed.

Lemma parsed_success_total dp sched msg p :
  parsed_success dp sched msg = Ret p ->
  totalSessions p = option_map (@length JSON) (schedule p).
Proof.
  unfold parsed_success.
  destruct (location_values sched); [|discriminate].
  destruct (calculateTimeRange dp sched); [|discriminate].
  intros H; injection H as <-; reflexivity.
Qed.

Lemma parse_content_total dp manual content raw :
  totalSessions (parse_content dp manual content raw)
  = option_map (@length JSON) (schedule (parse_content dp manual content raw)).
Proof.
  unfold parse_content.
  destruct (looks_like_json content).
  - destruct (JSON_parse content) as [v|].
    + destruct (parsed_success dp _ _) as [p|] eqn:E.
      * eapply parsed_success_total, E.
      * destruct manual; apply partial_result_total.
    + destruct manual; apply partial_result_total.
  - destruct manual; apply partial_result_total.
Qed.

Lemma parseAgentResponse_total dp s :
  totalSessions (parseAgentResponse dp s)
  = option_map (@length JSON) (schedule (parseAgentResponse dp s)).
Proof.
  assert (M : totalSessions (manual_fallback dp s)
              = option_map (@length JSON) (schedule (manual_fallback dp s))).
  { unfold manual_fallback. destruct (manual_value_content s);
      [apply parse_content_total | reflexivity]. }
  unfold parseAgentResponse.
  destruct (is_nil s); [reflexivity|].
  destruct (has_wrapper_markers s).
  - destruct (JSON_parse s) as [v|]; [|exact M].
    destruct (get_prop v "type"); [|exact M].
    destruct (get_prop v "value") as [va|]; [|exact M].
    destruct (is_Text a && truthy_opt va); [|reflexivity].
    destruct va as [[| | | c | |]|]; try exact M.
    apply parse_content_total.
  - unfold parse_plain.
    destruct (JSON_parse s) as [[| | | | [|first rest] |]|];
      try reflexivity; try apply partial_result_total.
    destruct (get_prop first "sessionName") as [name|];
      [|apply partial_result_total].
    destruct (truthy_opt name); [|reflexivity].
    destruct (parsed_success dp _ _) as [p|] eqn:E.
    + eapply parsed_success_total, E.
    + apply partial_result_total.
Qed.

(** On an object, [merge_one] throws exactly when the addition of its
    [totalSessions] does. *)
Lemma merge_one_object m o :
  match merge_report (Ret (mg_totalSessions m)) o with
  | Ret t => exists m', merge_one m (JObj o) = Ret m' /\ mg_totalSessions m' = t
  | Throw => merge_one m (JObj o) = Throw
  end.
Proof.
  unfold merge_one, get_prop, merge_report.
  destruct (obj_get (txt "totalSessions") o) as [t|]; [destruct (truthy t)|].
  - destruct (obj_get (txt "locations") o) as [[]|];
      destruct (is_array _); cbn [mg_totalSessions];
      destruct (js_add (mg_totalSessions m) t); try reflexivity;
      eexists; split; reflexivity.
  - destruct (obj_get (txt "locations") o) as [[]|];
      destruct (is_array _); eexists; split; reflexivity.
  - destruct (obj_get (txt "locations") o) as [[]|];
      destruct (is_array _); eexists; split; reflexivity.
Qed.

Lemma merge_report_Throw objs : fold_left merge_report objs Throw = Throw.
Proof. induction objs as [|o r IH]; [reflexivity | exact IH]. Qed.

Lemma merge_all_objects objs : forall m,
  match fold_left merge_report objs (Ret (mg_totalSessions m)) with
  | Ret t =>
      exists m', merge_all m (map JObj objs) = Ret m' /\ mg_totalSessions m' = t
  | Throw => merge_all m (map JObj objs) = Throw
  end.
Proof.
  induction objs as [|o r IH]; intros m.
  - exists m; split; reflexivity.
  - cbn [map merge_all fold_left].
    pose proof (merge_one_object m o) as H1.
    destruct (merge_report (Ret (mg_totalSessions m)) o) as [t|].
    + destruct H1 as [m1 [E1 T1]]. rewrite E1, <- T1. apply IH.
    + rewrite H1, merge_report_Throw. reflexivity.
Qed.

(** C6.  The fragments of the counterexample report 5 and 7 sessions
    and carry one slot each: the merged [totalSessions] is 12 for a
    schedule of 2. *)
Lemma C6_merge_trusts_reported_counts :
  let m := mergeScheduleData [JObj fragment_5; JObj fragment_7] in
  get_prop m "schedule" = Ret (Some (JArr [keynote_slot; slot_A]))
  /\ get_prop m "totalSessions" = Ret (Some (JNum (num_of_Z 12))).
Proof. vm_compute. split; reflexivity. Qed.

(** The same through [combineMultipleResponses]: two schedule objects
    that report 5 and 7 sessions are merged into an object of two slots
    with [totalSessions] 12. *)
Example merge_counts_end_to_end :
  combineMultipleResponses counted_fragments
  = js "{'schedule':[{'sessionName':'A','location':'X'},{'sessionName':'B','location':'Y'}],'sessions':[{'sessionName':'A','location':'X'},{'sessionName':'B','location':'Y'}],'totalSessions':12,'locations':[],'timeRange':{'start':null,'end':null}}".
Proof. vm_compute; reflexivity. Qed.

(** C6 (amended).  Every result of [parseAgentResponse] has
    [totalSessions] equal to the length of its schedule.
    [mergeScheduleData] instead adds up with [+=] the truthy
    [totalSessions] reported by the fragments: when the additions
    return, the merged object carries their result, or the length of
    the merged schedule when that result is the number zero; when one
    of them throws, the first fragment is returned as it is. *)
Theorem C6_totalSessions
  (Date_parse : JSON -> option Z) (s : text) (objs : list (list (text * JSON))) :
  totalSessions (parseAgentResponse Date_parse s)
  = option_map (@length JSON) (schedule (parseAgentResponse Date_parse s))
  /\ match reported_total objs with
     | Ret total =>
         exists m,
           mergeScheduleData (map JObj objs) = merged_json m
           /\ mg_totalSessions m
              = if is_zero total
                then JNum (num_of_nat (length (mg_schedule m)))
                else total
     | Throw =>
         mergeScheduleData (map JObj objs)
         = or_else (hd_error (map JObj objs)) (JObj [])
     end.
Proof.
  split; [apply parseAgentResponse_total|].
  pose proof (merge_all_objects objs merged_init) as H.
  unfold reported_total. cbn [merged_init mg_totalSessions] in H.
  destruct (fold_left merge_report objs _) as [total|].
  - destruct H as [m' [E T]].
    exists (merge_finish m'). unfold mergeScheduleData. rewrite E.
    split; [reflexivity|].
    unfold merge_finish; simpl. rewrite T. reflexivity.
  - unfold mergeScheduleData. rewrite H. reflexivity.
Qed.

(** A fragment whose [totalSessions] is an object with a [toString]
    property of its own makes the addition throw: the first fragment
    comes back unmerged. *)
Example merge_gives_up_on_unconvertible_count :
  mergeScheduleData
    [JObj fragment_5;
     JObj [(txt "schedule", JArr [slot_A]);
           (txt "totalSessions", JObj [(txt "toString", JNum (num_of_Z 1))])]]
  = JObj fragment_5.
Proof. vm_compute. reflexivity. Qed.

(** ** The slots of [extractPartialScheduleData] *)

Lemma or_else_defaulted a d : defaulted d (or_else a d).
Proof.
  unfold defaulted, or_else. destruct a as [x|]; [|left; reflexivity].
  destruct (truthy x) eqn:T; [right; exact T | left; reflexivity].
Qed.

Lemma complete_session_sound session slot loc :
  complete_session session = Ret (Some (slot, loc)) ->
  complete_slot slot /\ completes session slot.
Proof.
  unfold complete_session.
  destruct (get_prop session "sessionName") as [[name|]|] eqn:En; try discriminate.
  destruct (get_prop session "location") as [[l|]|] eqn:El; try discriminate.
  destruct (get_prop session "speakers") as [sp|] eqn:E1; try discriminate.
  destruct (get_prop session "startTime") as [st|] eqn:E2; try discriminate.
  destruct (get_prop session "endTime") as [en|] eqn:E3; try discriminate.
  destruct (get_prop session "format") as [fm|] eqn:E4; try discriminate.
  destruct (get_prop session "focus") as [fo|] eqn:E5; try discriminate.
  destruct (get_prop session "sessionAbstract") as [sa|] eqn:E6; try discriminate.
  destruct (get_prop session "abstract") as [ab|] eqn:E7; try discriminate.
  destruct (truthy name) eqn:Tn; [|discriminate].
  destruct (truthy l) eqn:Tl; [|discriminate].
  cbn [andb]. intros H; injection H as <- <-. split.
  - do 8 eexists. split; [reflexivity|].
    repeat split; auto using or_else_defaulted.
  - exists name, l, sp, st, en, fm, fo, sa, ab. repeat split; auto.
Qed.

Lemma recover_candidate_from response s slot loc :
  In s (partial_scan (clean_response response)) ->
  recover_candidate s = Some (slot, loc) -> recovered_from response slot.
Proof.
  intros I. unfold recover_candidate.
  destruct (JSON_parse _) as [session|] eqn:P; [|discriminate].
  destruct (complete_session session) as [r|] eqn:C; [|discriminate].
  intros ->. destruct (complete_session_sound _ C) as [S K].
  split; [exact S|]. exists session. split; [|exact K].
  left. exists s. split; assumption.
Qed.

Lemma recover_aggressive_from response s slot loc :
  In s (aggressive_matches (clean_response response)) ->
  recover_aggressive s = Some (slot, loc) -> recovered_from response slot.
Proof.
  intros I. unfold recover_aggressive.
  destruct (JSON_parse _) as [session|] eqn:P; [|discriminate].
  destruct (complete_session session) as [r|] eqn:C; [|discriminate].
  intros ->. destruct (complete_session_sound _ C) as [S K].
  split; [exact S|]. exists session. split; [|exact K].
  right. exists s. split; assumption.
Qed.

Lemma recover_all_Forall (P : JSON -> Prop) f :
  forall cands sessions locs,
    (forall s slot loc, In s cands -> f s = Some (slot, loc) -> P slot) ->
    Forall P sessions ->
    Forall P (fst (recover_all f cands sessions locs)).
Proof.
  induction cands as [|s r IH]; intros sessions locs Hf H; simpl; auto.
  destruct (f s) as [[slot loc]|] eqn:E; apply IH; auto.
  - intros s0 slot0 loc0 I. apply Hf. right; exact I.
  - apply Forall_app; split; auto. constructor; auto.
    apply (Hf s slot loc); [left; reflexivity | exact E].
  - intros s0 slot0 loc0 I. apply Hf. right; exact I.
Qed.

Lemma extractPartialScheduleData_Forall dp response :
  Forall (recovered_from response)
    (pd_schedule (extractPartialScheduleData dp response)).
Proof.
  unfold extractPartialScheduleData.
  pose proof (@recover_all_Forall (recovered_from response) recover_candidate
                (partial_scan (clean_response response)) [] []
                (@recover_candidate_from response) (Forall_nil _)) as H1.
  destruct (recover_all recover_candidate _ [] []) as [sessions locs].
  simpl in H1.
  pose proof (@recover_all_Forall (recovered_from response) recover_aggressive
                (aggressive_matches (clean_response response)) sessions locs
                (@recover_aggressive_from response) H1) as H2.
  destruct (is_nil sessions).
  - destruct (recover_all recover_aggressive _ sessions locs) as [s2 l2].
    simpl in H2. destruct (calculateTimeRange dp s2); simpl; auto.
  - destruct (calculateTimeRange dp sessions); simpl; auto.
Qed.

(** C7.  Every slot of the schedule returned by
    [extractPartialScheduleData] is the completion of a candidate that
    recovery found in the response and parsed: that candidate has a
    truthy [sessionName] and a truthy [location], the slot carries
    these two values unchanged, and each of its six other fields is the
    truthy field of the candidate or, without one, its default
    ([["Speaker TBD"]], [null], [null], "Session", "General", the
    sentinel abstract).  So no slot stands for a candidate that misses
    a required field, no slot is made up, and no field of a kept slot
    is undefined. *)
Theorem C7_recovered_slots_are_complete
  (Date_parse : JSON -> option Z) (response : text) (slot : JSON) :
  In slot (pd_schedule (extractPartialScheduleData Date_parse response)) ->
  complete_slot slot
  /\ exists session,
       parsed_candidate response session /\ completes session slot.
Proof.
  intros H.
  pose proof (extractPartialScheduleData_Forall Date_parse response) as F.
  rewrite Forall_forall in F. exact (F slot H).
Qed.

Lemma C7_recovered_slots_witness :
  In slot_A (pd_schedule (extractPartialScheduleData no_dates example_truncated))
  /\ complete_slot slot_A.
Proof.
  assert (H : In slot_A (pd_schedule (extractPartialScheduleData no_dates example_truncated))).
  { vm_compute. left. reflexivity. }
  split; [exact H|].
  exact (proj1 (C7_recovered_slots_are_complete no_dates example_truncated slot_A H)).
Defined.

(** A candidate without a truthy [sessionName] or [location] yields no
    slot. *)
Lemma complete_session_requires session r :
  complete_session session = Ret (Some r) ->
  exists name loc,
    get_prop session "sessionName" = Ret (Some name) /\ truthy name = true
    /\ get_prop session "location" = Ret (Some loc) /\ truthy loc = true.
Proof.
  destruct r as [slot l]. intros H.
  destruct (complete_session_sound _ H)
    as [_ (name & loc & ? & ? & ? & ? & ? & ? & ? & A & B & C & D & _)].
  exists name, loc. repeat split; assumption.
Qed.

(** ** Lists cut at both ends *)

Section DropWhile.
Context {A : Type} (f : A -> bool).

Lemma dropWhile_head l :
  dropWhile f l = [] \/ exists x r, dropWhile f l = x :: r /\ f x = false.
Proof.
  induction l as [|x r IH]; simpl; [left; reflexivity|].
  destruct (f x) eqn:E; [exact IH|]. right. exists x, r. split; auto.
Qed.

Lemma dropWhile_fix x r : f x = false -> dropWhile f (x :: r) = x :: r.
Proof. intros H; simpl; rewrite H; reflexivity. Qed.

Lemma dropWhile_suffix l : exists p, l = p ++ dropWhile f l /\ forallb f p = true.
Proof.
  induction l as [|x r IH]; simpl.
  - exists []; split; reflexivity.
  - destruct (f x) eqn:E.
    + destruct IH as [p [H1 H2]]. exists (x :: p). simpl. rewrite E, H2.
      split; [f_equal; exact H1 | reflexivity].
    + exists []; split; reflexivity.
Qed.

Lemma dropWhileEnd_snoc l x :
  dropWhileEnd f (l ++ [x]) = if f x then dropWhileEnd f l else l ++ [x].
Proof.
  unfold dropWhileEnd. rewrite rev_app_distr. simpl.
  destruct (f x); [reflexivity|].
  simpl. rewrite rev_involutive. reflexivity.
Qed.

Lemma dropWhileEnd_nil : dropWhileEnd f [] = [].
Proof. reflexivity. Qed.

Lemma dropWhileEnd_last l :
  dropWhileEnd f l = [] \/ exists p x, dropWhileEnd f l = p ++ [x] /\ f x = false.
Proof.
  induction l as [|x r IH] using rev_ind; [left; reflexivity|].
  rewrite dropWhileEnd_snoc. destruct (f x) eqn:E; [exact IH|].
  right. exists r, x. split; auto.
Qed.

Lemma dropWhileEnd_prefix l :
  exists t, l = dropWhileEnd f l ++ t /\ forallb f t = true.
Proof.
  induction l as [|x r IH] using rev_ind.
  - exists []; split; reflexivity.
  - rewrite dropWhileEnd_snoc. destruct (f x) eqn:E.
    + destruct IH as [t [H1 H2]]. exists (t ++ [x]). split.
      * rewrite app_assoc, <- H1. reflexivity.
      * rewrite forallb_app, H2. simpl. rewrite E. reflexivity.
    + exists []. rewrite app_nil_r. split; reflexivity.
Qed.

Lemma dropWhileEnd_fix p x : f x = false -> dropWhileEnd f (p ++ [x]) = p ++ [x].
Proof. intros H. rewrite dropWhileEnd_snoc, H. reflexivity. Qed.

(** Cutting the end of [a ++ t] stops at the latest at the end of [a]
    when [a] ends with a character that is kept. *)
Lemma dropWhileEnd_app_keep a x t :
  f x = false ->
  exists t', dropWhileEnd f ((a ++ [x]) ++ t) = (a ++ [x]) ++ t'
             /\ exists t'', t = t' ++ t''.
Proof.
  intros H. induction t as [|y r IH] using rev_ind.
  - exists []. rewrite !app_nil_r. split; [apply dropWhileEnd_fix, H|].
    exists []; reflexivity.
  - rewrite app_assoc, dropWhileEnd_snoc. destruct (f y).
    + destruct IH as [t' [E [t'' ->]]]. exists t'. split; [exact E|].
      exists (t'' ++ [y]). rewrite app_assoc. reflexivity.
    + exists (r ++ [y]). split; [rewrite <- app_assoc; reflexivity|].
      exists []. rewrite app_nil_r. reflexivity.
Qed.

End DropWhile.

(** ** Cleaning is idempotent *)

Lemma starter_not_space c : is_json_starter c = true -> is_space c = false.
Proof.
  unfold is_json_starter, c_lbrace, c_lbrack, c_quote.
  rewrite !orb_true_iff, !N.eqb_eq. intros [[->| ->]| ->]; reflexivity.
Qed.

Lemma ender_not_space c : is_json_ender c = true -> is_space c = false.
Proof.
  unfold is_json_ender, c_rbrace, c_rbrack, c_quote.
  rewrite !orb_true_iff, !N.eqb_eq. intros [[->| ->]| ->]; reflexivity.
Qed.

(** The shape of a cleaned response. *)
Lemma clean_response_shape s :
  clean_response s = []
  \/ exists x mid y,
       (clean_response s = x :: mid ++ [y] \/ (clean_response s = [x] /\ y = x))
       /\ is_json_starter x = true /\ is_json_ender y = true.
Proof.
  unfold clean_response.
  set (notS := fun c => negb (is_json_starter c)).
  set (notE := fun c => negb (is_json_ender c)).
  destruct (dropWhile_head notS (trim s)) as [E|(x & r & E & Hx)].
  - rewrite E. left. reflexivity.
  - rewrite E. unfold notS in Hx. apply negb_false_iff in Hx.
    destruct (dropWhileEnd_last notE (x :: r)) as [E2|(p & y & E2 & Hy)];
      [left; exact E2|].
    right. unfold notE in Hy. apply negb_false_iff in Hy.
    destruct (dropWhileEnd_prefix notE (x :: r)) as [t [E3 _]].
    rewrite E2 in E3 |- *.
    destruct p as [|x' p'].
    + simpl in E3. injection E3 as <- _. exists x, [], x. repeat split; auto.
    + simpl in E3. injection E3 as <- _. exists x, p', y. repeat split; auto.
Qed.

Lemma clean_response_fix x mid y :
  is_json_starter x = true -> is_json_ender y = true ->
  clean_response (x :: mid ++ [y]) = x :: mid ++ [y].
Proof.
  intros Hx Hy. unfold clean_response, trim.
  rewrite (dropWhile_fix is_space); [|apply starter_not_space, Hx].
  change (x :: mid ++ [y]) with ((x :: mid) ++ [y]).
  rewrite (dropWhileEnd_fix is_space); [|apply ender_not_space, Hy].
  simpl. rewrite Hx. simpl.
  change (x :: mid ++ [y]) with ((x :: mid) ++ [y]).
  apply dropWhileEnd_fix. rewrite Hy. reflexivity.
Qed.

Lemma clean_response_single x :
  is_json_starter x = true -> is_json_ender x = true ->
  clean_response [x] = [x].
Proof.
  intros Hx Hy. unfold clean_response, trim, dropWhileEnd. simpl.
  rewrite (starter_not_space _ Hx). simpl.
  rewrite (starter_not_space _ Hx). simpl. rewrite Hx. simpl. rewrite Hy.
  reflexivity.
Qed.

Lemma clean_response_idempotent s :
  clean_response (clean_response s) = clean_response s.
Proof.
  destruct (clean_response_shape s) as [E|(x & mid & y & [E|[E ->]] & Hx & Hy)];
    rewrite E.
  - reflexivity.
  - apply clean_response_fix; assumption.
  - apply clean_response_single; assumption.
Qed.

(** ** Applying [combineMultipleResponses] twice *)


(** When nothing is detected the stage returns the cleaned text. *)
Lemma combine_pass_through (s : text) :
  (length (extractMultipleJsonObjects (clean_response s)) <= 1)%nat ->
  (length (extractMultipleJsonArrays (clean_response s)) <= 1)%nat ->
  has_part_indicator (clean_response s) = false ->
  has_wrapper_markers (clean_response s) = false ->
  combineMultipleResponses s = clean_response s.
Proof.
  intros Ho Ha Hp Hw. unfold combineMultipleResponses.
  destruct s as [|c s']; [reflexivity|]. cbn [is_nil].
  replace (1 <? length (extractMultipleJsonObjects _))%nat with false
    by (symmetry; apply Nat.ltb_ge; exact Ho).
  replace (1 <? length (extractMultipleJsonArrays _))%nat with false
    by (symmetry; apply Nat.ltb_ge; exact Ha).
  rewrite Hp, Hw. reflexivity.
Qed.

(** A payload that the first application passed through, that is,
    returned as the cleaned text, is returned unchanged by the
    second. *)
Lemma combine_pass_through_idempotent (s : text) :
  combineMultipleResponses s = clean_response s ->
  combineMultipleResponses (combineMultipleResponses s) = combineMultipleResponses s.
Proof.
  intros H. rewrite H.
  destruct s as [|c s']; [reflexivity|].
  revert H. generalize (c :: s'). intros s H.
  unfold combineMultipleResponses at 1.
  destruct (is_nil (clean_response s)) eqn:N.
  - destruct (clean_response s); [reflexivity|discriminate].
  - rewrite clean_response_idempotent.
    unfold combineMultipleResponses in H.
    destruct (is_nil s) eqn:N2.
    + destruct s; [|discriminate]. discriminate.
    + exact H.
Qed.




(** ** Backslashes in the brace-matching scan *)

Lemma partial_state_eta st :
  {| ps_sessionObjects := ps_sessionObjects st;
     ps_currentObject := ps_currentObject st;
     ps_braceCount := ps_braceCount st;
     ps_inString := ps_inString st;
     ps_escapeNext := ps_escapeNext st |} = st.
Proof. destruct st; reflexivity. Qed.

(** A backslash and the character after it leave no trace. *)
Lemma partial_step_escape st d :
  ps_escapeNext st = false ->
  partial_step (partial_step st c_bslash) d = st.
Proof.
  intros H. unfold partial_step at 2. rewrite H.
  rewrite N.eqb_refl. unfold partial_step. cbn [ps_escapeNext].
  cbn [ps_sessionObjects ps_currentObject ps_braceCount ps_inString].
  rewrite <- H. apply partial_state_eta.
Qed.

Lemma partial_step_plain st c :
  ps_escapeNext st = false -> (c =? c_bslash) = false ->
  ps_escapeNext (partial_step st c) = false.
Proof.
  intros H1 H2. unfold partial_step. rewrite H1, H2.
  destruct (if c =? c_quote then _ else _); [reflexivity|].
  destruct (c =? c_lbrace); [reflexivity|].
  destruct (c =? c_rbrace); [|reflexivity].
  destruct (_ =? 0)%Z; reflexivity.
Qed.

Lemma partial_step_objects_escape st :
  ps_escapeNext st = false ->
  ps_sessionObjects (partial_step st c_bslash) = ps_sessionObjects st.
Proof.
  intros H. unfold partial_step. rewrite H, N.eqb_refl. reflexivity.
Qed.

Lemma scan_delete_escapes s :
  (forall st, ps_escapeNext st = false ->
     ps_sessionObjects (fold_left partial_step s st)
     = ps_sessionObjects (fold_left partial_step (delete_escapes s) st))
  /\ (forall c st, ps_escapeNext st = false ->
     ps_sessionObjects (fold_left partial_step (c :: s) st)
     = ps_sessionObjects (fold_left partial_step (delete_escapes (c :: s)) st)).
Proof.
  induction s as [|d r [IH1 IH2]].
  - split; [reflexivity|]. intros c st H. cbn [delete_escapes fold_left].
    destruct (c =? c_bslash) eqn:E; [|reflexivity].
    apply N.eqb_eq in E. subst c. apply partial_step_objects_escape, H.
  - split; [exact (IH2 d)|]. intros c st H.
    cbn [delete_escapes]. destruct (c =? c_bslash) eqn:E.
    + apply N.eqb_eq in E. subst c. cbn [fold_left].
      rewrite partial_step_escape by exact H. apply IH1, H.
    + change (fold_left partial_step (c :: d :: r) st)
        with (fold_left partial_step (d :: r) (partial_step st c)).
      rewrite (IH2 d (partial_step st c)) by (apply partial_step_plain; assumption).
      reflexivity.
Qed.

Lemma In_dropWhile {A} (f : A -> bool) x l : In x (dropWhile f l) -> In x l.
Proof.
  destruct (dropWhile_suffix f l) as [p [E _]]. intros H.
  rewrite E. apply in_or_app. right. exact H.
Qed.

Lemma In_dropWhileEnd {A} (f : A -> bool) x l : In x (dropWhileEnd f l) -> In x l.
Proof.
  destruct (dropWhileEnd_prefix f l) as [t [E _]]. intros H.
  rewrite E. apply in_or_app. left. exact H.
Qed.

Lemma In_trim x s : In x (trim s) -> In x s.
Proof. intros H. apply In_dropWhileEnd, In_dropWhile in H. exact H. Qed.

Lemma partial_step_no_backslash st c :
  no_backslash (ps_currentObject st) ->
  Forall no_backslash (ps_sessionObjects st) ->
  no_backslash (ps_currentObject (partial_step st c))
  /\ Forall no_backslash (ps_sessionObjects (partial_step st c)).
Proof.
  intros Hc Ho. unfold partial_step.
  destruct (ps_escapeNext st); [split; assumption|].
  destruct (c =? c_bslash) eqn:E; [split; assumption|].
  apply N.eqb_neq in E.
  assert (Hsnoc : forall l, no_backslash l -> no_backslash (l ++ [c])).
  { intros l Hl Hin. apply in_app_or in Hin. destruct Hin as [Hin|[Hin|[]]];
      [exact (Hl Hin) | congruence]. }
  assert (Hnil : no_backslash []) by (intros []).
  assert (Hone : no_backslash [c]) by exact (Hsnoc [] Hnil).
  destruct (if c =? c_quote then _ else _).
  { cbn. destruct (0 <? _)%Z; split; auto. }
  destruct (c =? c_lbrace).
  { cbn. destruct (_ =? 0)%Z; destruct (0 <? _)%Z; split; auto. }
  destruct (c =? c_rbrace).
  2:{ cbn. destruct (0 <? _)%Z; split; auto. }
  destruct (_ =? 0)%Z.
  - assert (Ho' : Forall no_backslash
                    (if is_nil (trim (ps_currentObject st ++ [c]))
                     then ps_sessionObjects st
                     else ps_sessionObjects st ++ [trim (ps_currentObject st ++ [c])])).
    { destruct (is_nil _); [exact Ho|]. apply Forall_app. split; [exact Ho|].
      constructor; [|constructor]. intros Hin. apply In_trim in Hin.
      exact (Hsnoc _ Hc Hin). }
    cbn. destruct (0 <? _)%Z; split; auto.
  - cbn. destruct (0 <? _)%Z; split; auto.
Qed.

Lemma partial_scan_no_backslash s : forall st,
  no_backslash (ps_currentObject st) ->
  Forall no_backslash (ps_sessionObjects st) ->
  Forall no_backslash (ps_sessionObjects (fold_left partial_step s st)).
Proof.
  induction s as [|c r IH]; intros st Hc Ho; [exact Ho|].
  destruct (@partial_step_no_backslash st c Hc Ho) as [Hc' Ho'].
  apply IH; assumption.
Qed.

(** In the brace-matching scan the two [continue] statements come
    before the character is appended, so neither a backslash nor the
    character after it reaches a candidate: the candidates of a payload
    are those of the payload with every backslash and the character
    after it deleted, and no candidate contains a backslash. *)
Lemma scan_drops_escapes (s : text) :
  partial_scan s = partial_scan (delete_escapes s)
  /\ Forall no_backslash (partial_scan s).
Proof.
  split.
  - apply (proj1 (scan_delete_escapes s)). reflexivity.
  - apply partial_scan_no_backslash; [intros []|constructor].
Qed.

(** C10.  The payload holds a complete record whose [sessionName], B
    followed by an escaped quote and C, contains a backslash escape,
    after a record that is recovered and before a record that is cut.
    The candidate that the scan makes of it is the record without the
    backslash and the quote; [JSON.parse] accepts it, and the record is
    not omitted: it is recovered with the name BC. *)
Theorem C10_escaped_record_is_recovered :
  partial_scan (clean_response escaped_record_payload)
  = [js "{'sessionName':'A','location':'R'}";
     js "{'sessionName':'BC','location':'S'}"]
  /\ map session_name
       (pd_schedule (extractPartialScheduleData no_dates escaped_record_payload))
     = [Some (txt "A"); Some (txt "BC")].
Proof. vm_compute. split; reflexivity. Qed.

(** ** The wrapper that does not parse *)

Lemma startsWith_app s p : startsWith s p = true -> exists b, s = p ++ b.
Proof.
  revert s. induction p as [|y p IH]; intros s H.
  - exists s; reflexivity.
  - destruct s as [|x s]; [discriminate|]. simpl in H.
    apply andb_true_iff in H. destruct H as [H1 H2].
    apply N.eqb_eq in H1. subst y.
    destruct (IH s H2) as [b ->]. exists b; reflexivity.
Qed.

Lemma indexOf_Some s p : forall i,
  indexOf s p = Some i -> exists a b, s = a ++ p ++ b /\ length a = i.
Proof.
  induction s as [|x s IH]; intros i H.
  - cbn [indexOf] in H. destruct (startsWith [] p) eqn:E; [|discriminate].
    injection H as <-. destruct (startsWith_app _ _ E) as [b Hb].
    exists [], b. split; [exact Hb|reflexivity].
  - cbn [indexOf] in H. destruct (startsWith (x :: s) p) eqn:E.
    + injection H as <-. destruct (startsWith_app _ _ E) as [b Hb].
      exists [], b. split; [exact Hb|reflexivity].
    + destruct (indexOf s p) as [j|] eqn:Ej; [|discriminate].
      cbn in H. injection H as <-. destruct (IH j eq_refl) as (a & b & -> & <-).
      exists (x :: a), b. split; reflexivity.
Qed.

Lemma manual_value_content_suffix s content :
  manual_value_content s = Some content ->
  exists pre, s = pre ++ content /\ pre <> [].
Proof.
  unfold manual_value_content.
  destruct (indexOf s marker_value) as [i|] eqn:E; [|discriminate].
  destruct (indexOf_Some _ _ E) as (a & b & -> & <-).
  unfold substring_from.
  replace (length a + 8)%nat with (length (a ++ marker_value))
    by (rewrite length_app; reflexivity).
  rewrite app_assoc, skipn_app, skipn_all, Nat.sub_diag. cbn [skipn app].
  destruct (dropWhile_suffix is_manual_space b) as [ws [Hb _]].
  intros H. injection H as <-.
  destruct (dropWhile is_manual_space b) as [|c r] eqn:D.
  - exists ((a ++ marker_value) ++ ws). rewrite Hb, app_nil_r.
    split; [rewrite app_nil_r; reflexivity|].
    intros N. apply (f_equal (@length _)) in N.
    rewrite !length_app in N. cbn in N. lia.
  - destruct (c =? c_quote).
    + exists ((a ++ marker_value) ++ ws ++ [c]). rewrite Hb.
      split; [rewrite <- !app_assoc; reflexivity|].
      intros N. apply (f_equal (@length _)) in N.
      rewrite !length_app in N. cbn in N. lia.
    + exists ((a ++ marker_value) ++ ws). rewrite Hb.
      split; [rewrite <- !app_assoc; reflexivity|].
      intros N. apply (f_equal (@length _)) in N.
      rewrite !length_app in N. cbn in N. lia.
Qed.

Lemma has_wrapper_markers_value s :
  has_wrapper_markers s = true -> exists i, indexOf s marker_value = Some i.
Proof.
  unfold has_wrapper_markers, includes. intros H.
  apply andb_true_iff in H. destruct H as [_ H].
  destruct (indexOf s marker_value) as [i|]; [exists i; reflexivity|discriminate].
Qed.

(** C5.  On a truncated wrapper the later stages do not receive the
    original text: they receive what follows the marker ["value":] and
    the opening quote of the value. *)
Lemma C5_downstream_gets_value_text :
  JSON_parse truncated_wrapper = None
  /\ parseAgentResponse no_dates truncated_wrapper
     = parse_content no_dates true truncated_wrapper_content truncated_wrapper
  /\ truncated_wrapper_content <> truncated_wrapper
  /\ rawResponse (parseAgentResponse no_dates truncated_wrapper)
     = Some (truncated_wrapper_content ++ txt "...").
Proof. vm_compute. repeat split; discriminate. Qed.

(** C5 (amended).  When the text carries the wrapper markers and its
    outer object is not valid JSON, [parseAgentResponse] does not throw
    and does not hand the original text on: the later stages
    ([JSON.parse] of the content, then [extractPartialScheduleData])
    receive the part of the text that follows the first ["value":],
    white space and one opening quote, a proper suffix of the input. *)
Theorem C5_wrapper_parse_failure (Date_parse : JSON -> option Z) (s : text) :
  has_wrapper_markers s = true ->
  JSON_parse s = None ->
  exists pre content,
    s = pre ++ content /\ pre <> []
    /\ manual_value_content s = Some content
    /\ parseAgentResponse Date_parse s = parse_content Date_parse true content s.
Proof.
  intros W P.
  destruct (has_wrapper_markers_value _ W) as [i Hi].
  assert (M : exists content, manual_value_content s = Some content).
  { unfold manual_value_content. rewrite Hi. eexists; reflexivity. }
  destruct M as [content M].
  destruct (manual_value_content_suffix _ M) as [pre [E N]].
  exists pre, content. repeat split; auto.
  unfold parseAgentResponse. rewrite W, P.
  destruct (is_nil s) eqn:Z.
  { destruct s; [|discriminate]. destruct pre; [congruence|discriminate]. }
  unfold manual_fallback. rewrite M. reflexivity.
Qed.

Lemma C5_wrapper_parse_failure_witness :
  exists pre,
    truncated_wrapper = pre ++ truncated_wrapper_content /\ pre <> []
    /\ parseAgentResponse no_dates truncated_wrapper
       = parse_content no_dates true truncated_wrapper_content truncated_wrapper.
Proof.
  assert (W : has_wrapper_markers truncated_wrapper = true) by (vm_compute; reflexivity).
  assert (P : JSON_parse truncated_wrapper = None) by (vm_compute; reflexivity).
  destruct (C5_wrapper_parse_failure no_dates truncated_wrapper W P)
    as (pre & content & E & N & M & R).
  assert (C : content = truncated_wrapper_content).
  { vm_compute in M. injection M as <-. vm_compute. reflexivity. }
  subst content. exists pre. repeat split; assumption.
Defined.

(** ** The scan loop and the lexer of [JSON.parse] *)

Lemma ctl_of_step st c : ctl_of (partial_step st c) = ctl_step (ctl_of st) c.
Proof.
  unfold partial_step, ctl_step, ctl_of. cbn [k_esc k_count k_inString].
  destruct (ps_escapeNext st); [reflexivity|].
  destruct (c =? c_bslash); [reflexivity|].
  destruct (if c =? c_quote then _ else _); [reflexivity|].
  destruct (c =? c_lbrace); [reflexivity|].
  destruct (c =? c_rbrace); [|reflexivity].
  destruct (_ =? 0)%Z; reflexivity.
Qed.

Lemma ctl_of_run s : forall st,
  ctl_of (fold_left partial_step s st) = ctl_run (ctl_of st) s.
Proof.
  induction s as [|c r IH]; intros st; [reflexivity|].
  cbn [fold_left ctl_run]. rewrite IH, ctl_of_step. reflexivity.
Qed.

Lemma ctl_run_app k a b : ctl_run k (a ++ b) = ctl_run (ctl_run k a) b.
Proof. apply fold_left_app. Qed.

Ltac chars :=
  unfold is_numchar, is_json_ws, is_digit, is_lower, is_space,
    c_lbrace, c_rbrace, c_lbrack, c_rbrack, c_quote, c_bslash, c_comma,
    c_colon in *.

Ltac eqb_cases :=
  repeat match goal with
    | H : (_ =? _) = true |- _ => apply N.eqb_eq in H
    | H : (_ =? _) = false |- _ => apply N.eqb_neq in H
    | H : (_ <=? _) = true |- _ => apply N.leb_le in H
    | H : (_ <=? _) = false |- _ => apply N.leb_gt in H
    | H : (_ <? _) = true |- _ => apply N.ltb_lt in H
    | H : (_ <? _) = false |- _ => apply N.ltb_ge in H
    | H : (_ && _) = true |- _ => apply andb_true_iff in H; destruct H
    | H : (_ || _) = false |- _ => apply orb_false_iff in H; destruct H
    | H : (_ || _) = true |- _ => apply orb_true_iff in H; destruct H
    | H : (_ && _) = false |- _ => apply andb_false_iff in H; destruct H
    end.

Lemma ctl_step_inert n c : inert c = true -> ctl_step (ctl_idle n) c = ctl_idle n.
Proof.
  unfold inert, ctl_step, ctl_idle. cbn [k_esc k_count k_inString].
  intros H. apply negb_true_iff in H.
  apply orb_false_iff in H. destruct H as [H H4].
  apply orb_false_iff in H. destruct H as [H H3].
  apply orb_false_iff in H. destruct H as [H1 H2].
  rewrite H1, H2, H3, H4. reflexivity.
Qed.

Lemma ctl_run_inert n s : forallb inert s = true -> ctl_run (ctl_idle n) s = ctl_idle n.
Proof.
  induction s as [|c r IH]; intros H; [reflexivity|].
  cbn in H. apply andb_true_iff in H. destruct H as [H1 H2].
  cbn [ctl_run fold_left]. rewrite ctl_step_inert by exact H1. apply IH, H2.
Qed.

(** The characters on which [lex_idle] succeeds. *)
Lemma lex_idle_sim n c toks st' toks' k :
  lex_idle c toks = Some (st', toks') ->
  lex_sim n LIdle toks k ->
  lex_sim n st' toks' (ctl_step k c).
Proof.
  unfold lex_idle, lex_sim. intros H (Hc & Hs & He).
  destruct k as [cnt ins esc]. cbn in Hc, Hs, He. subst ins esc.
  unfold ctl_step. cbn [k_esc k_count k_inString].
  repeat match type of H with
    | (if ?b then _ else _) = _ => destruct b eqn:?
    end;
    try discriminate; injection H as <- <-; chars; eqb_cases; subst;
    cbn [brace_delta tok_delta lex_in_string lex_in_escape negb];
    repeat match goal with
      | |- context [?a =? ?b] =>
          let E := fresh in destruct (a =? b) eqn:E; eqb_cases; try lia
      end;
    cbn [negb k_count k_inString k_esc]; repeat split; try reflexivity; try lia.
Qed.

Lemma brace_delta_scalar toks t :
  tok_delta t = 0%Z -> brace_delta (t :: toks) = brace_delta toks.
Proof. intros H. cbn [brace_delta]. rewrite H. reflexivity. Qed.

Lemma lex_flush_delta st toks toks' :
  lex_flush st toks = Some toks' -> brace_delta toks' = brace_delta toks.
Proof.
  unfold lex_flush. destruct st; try discriminate.
  - intros H; injection H as <-; reflexivity.
  - destruct (parse_number _); [|discriminate].
    intros H; injection H as <-; reflexivity.
  - unfold word_token.
    repeat match goal with
      | |- context [if ?b then _ else _] => destruct b
      end; try discriminate; intros H; injection H as <-; reflexivity.
Qed.

Lemma lex_flush_in_string st toks toks' :
  lex_flush st toks = Some toks' -> lex_in_string st = false.
Proof. destruct st; try discriminate; reflexivity. Qed.

Lemma hex_val_plain c h :
  hex_val c = Some h -> (c =? c_bslash) = false /\ (c =? c_quote) = false.
Proof.
  unfold hex_val. chars. intros H.
  repeat match type of H with
    | (if ?b then _ else _) = _ => destruct b eqn:?
    end; try discriminate; eqb_cases;
    split; apply N.eqb_neq; lia.
Qed.

Lemma numchar_inert c : is_numchar c = true -> inert c = true.
Proof.
  unfold inert. chars. intros H. eqb_cases;
    apply negb_true_iff; repeat (apply orb_false_iff; split);
    apply N.eqb_neq; lia.
Qed.

Lemma lower_inert c : is_lower c = true -> inert c = true.
Proof.
  unfold inert. chars. intros H. eqb_cases;
    apply negb_true_iff; repeat (apply orb_false_iff; split);
    apply N.eqb_neq; lia.
Qed.

Lemma lex_sim_idle_ctl n st toks k :
  lex_sim n st toks k -> lex_in_string st = false ->
  k = ctl_idle (n + brace_delta toks).
Proof.
  intros (Hc & Hs & He) H. destruct k as [cnt ins esc]. cbn in *.
  unfold ctl_idle. subst cnt. rewrite Hs, He, H.
  destruct st; try discriminate; reflexivity.
Qed.

(** One character: the loop follows the lexer. *)
Lemma lex_step_sim n st toks c st' toks' k :
  lex_step st toks c = Some (st', toks') ->
  lex_sim n st toks k ->
  lex_sim n st' toks' (ctl_step k c).
Proof.
  intros H S. destruct st as [|acc|acc|acc d v|acc|acc]; cbn [lex_step] in H.
  - eapply lex_idle_sim; eassumption.
  - destruct S as (Hc & Hs & He). destruct k as [cnt ins esc]. cbn in Hc, Hs, He.
    subst. unfold lex_sim, ctl_step. cbn [k_esc k_count k_inString].
    destruct (c =? c_quote) eqn:Q.
    + injection H as <- <-. apply N.eqb_eq in Q. subst c.
      cbn; repeat split; try lia.
    + destruct (c =? c_bslash) eqn:B.
      * injection H as <- <-. cbn. repeat split.
      * destruct (c <? 32); [discriminate|]. injection H as <- <-.
        cbn. repeat split.
  - destruct S as (Hc & Hs & He). destruct k as [cnt ins esc]. cbn in Hc, Hs, He.
    subst. unfold lex_sim, ctl_step. cbn [k_esc k_count k_inString].
    destruct (c =? 117).
    + injection H as <- <-. cbn. repeat split.
    + destruct (lex_escape c); [|discriminate]. injection H as <- <-.
      cbn. repeat split.
  - destruct S as (Hc & Hs & He). destruct k as [cnt ins esc]. cbn in Hc, Hs, He.
    subst. unfold lex_sim, ctl_step. cbn [k_esc k_count k_inString].
    destruct (hex_val c) as [h|] eqn:Hh; [|discriminate].
    destruct (hex_val_plain _ Hh) as [B Q]. rewrite B, Q.
    destruct d as [|[|d']]; try discriminate; injection H as <- <-;
      cbn; repeat split.
  - destruct (is_numchar c) eqn:Nc.
    + injection H as <- <-.
      rewrite (lex_sim_idle_ctl S eq_refl).
      rewrite ctl_step_inert by (apply numchar_inert, Nc).
      unfold lex_sim, ctl_idle; cbn. repeat split.
    + destruct (lex_flush (LNum acc) toks) as [toks1|] eqn:F; [|discriminate].
      eapply lex_idle_sim; [exact H|].
      destruct S as (Hc & Hs & He). unfold lex_sim.
      rewrite (lex_flush_delta _ _ F). repeat split; assumption.
  - destruct (is_lower c) eqn:Nc.
    + injection H as <- <-.
      rewrite (lex_sim_idle_ctl S eq_refl).
      rewrite ctl_step_inert by (apply lower_inert, Nc).
      unfold lex_sim, ctl_idle; cbn. repeat split.
    + destruct (lex_flush (LWord acc) toks) as [toks1|] eqn:F; [|discriminate].
      eapply lex_idle_sim; [exact H|].
      destruct S as (Hc & Hs & He). unfold lex_sim.
      rewrite (lex_flush_delta _ _ F). repeat split; assumption.
Qed.

Lemma lex_run_sim n s : forall st toks st' toks' k,
  lex_run st toks s = Some (st', toks') ->
  lex_sim n st toks k ->
  lex_sim n st' toks' (ctl_run k s).
Proof.
  induction s as [|c r IH]; intros st toks st' toks' k H S.
  - injection H as <- <-. exact S.
  - cbn [lex_run] in H. destruct (lex_step st toks c) as [[st1 toks1]|] eqn:E;
      [|discriminate].
    cbn [ctl_run fold_left]. eapply IH; [exact H|].
    eapply lex_step_sim; eassumption.
Qed.

(** ** Braces among the tokens of an accepted text *)

Lemma brace_delta_app a b : brace_delta (a ++ b) = (brace_delta a + brace_delta b)%Z.
Proof. induction a as [|t a IH]; cbn [app brace_delta]; [reflexivity|]. rewrite IH. lia. Qed.

Lemma brace_delta_rev a : brace_delta (rev a) = brace_delta a.
Proof.
  induction a as [|t a IH]; [reflexivity|].
  cbn [rev]. rewrite brace_delta_app, IH. cbn [brace_delta]. lia.
Qed.

Lemma rooted_depth stack : rooted stack -> (1 <= obj_depth stack)%Z.
Proof.
  intros (up & acc & pend & ->).
  induction up as [|f up IH]; cbn [app obj_depth]; [lia|].
  destruct f; lia.
Qed.

Lemma obj_depth_nonneg stack : (0 <= obj_depth stack)%Z.
Proof. induction stack as [|[] r IH]; cbn [obj_depth]; lia. Qed.

Lemma rooted_cons f stack : rooted stack -> rooted (f :: stack).
Proof. intros (up & acc & pend & ->). exists (f :: up), acc, pend. reflexivity. Qed.

Lemma rooted_single acc pend : rooted [FObj acc pend].
Proof. exists [], acc, pend. reflexivity. Qed.

(** Replacing or removing the top frame. *)
Lemma rooted_top f g stack : rooted (f :: stack) -> stack <> [] -> rooted (g :: stack).
Proof.
  intros (up & acc & pend & E) N. destruct up as [|f' up].
  - injection E as _ ->. congruence.
  - injection E as _ ->. exists (g :: up), acc, pend. reflexivity.
Qed.

Lemma rooted_tail f stack : rooted (f :: stack) -> stack <> [] -> rooted stack.
Proof.
  intros (up & acc & pend & E) N. destruct up as [|f' up].
  - injection E as _ ->. congruence.
  - injection E as _ ->. exists up, acc, pend. reflexivity.
Qed.

Lemma rooted_retop acc pend acc' pend' stack :
  rooted (FObj acc pend :: stack) -> rooted (FObj acc' pend' :: stack).
Proof.
  intros R. destruct stack as [|f r].
  - apply rooted_single.
  - eapply rooted_top; [exact R|discriminate].
Qed.

Lemma deliver_spec v stack m' stack' :
  deliver v stack = Some (m', stack') ->
  obj_depth stack' = obj_depth stack
  /\ (rooted stack -> rooted stack' /\ is_done m' = false)
  /\ (stack = [] -> stack' = [] /\ is_done m' = true).
Proof.
  destruct stack as [|[acc|acc [k|]] st]; cbn [deliver]; try discriminate;
    intros H; injection H as <- <-.
  - split; [reflexivity|]. split.
    + intros (up & a & p & E). destruct up; discriminate.
    + intros _. split; reflexivity.
  - split; [reflexivity|]. split; [|discriminate].
    intros R. split; [|reflexivity]. destruct st as [|f r].
    + destruct R as (up & a & p & E). destruct up as [|? [|? ?]]; discriminate.
    + eapply rooted_top; [exact R|discriminate].
  - split; [reflexivity|]. split; [|discriminate].
    intros R. split; [|reflexivity]. eapply rooted_retop, R.
Qed.

Lemma parse_step_spec m stack t m' stack' :
  parse_step m stack t = Some (m', stack') ->
  obj_depth stack' = (obj_depth stack + tok_delta t)%Z
  /\ (rooted stack -> settled m' stack').
Proof.
  assert (D : forall v st,
             deliver v st = Some (m', stack') ->
             obj_depth stack' = obj_depth st
             /\ (rooted st -> settled m' stack') /\ (st = [] -> settled m' stack')).
  { intros v st H. destruct (deliver_spec _ _ H) as (A & B & C).
    split; [exact A|]. split; intros X; [left; apply B, X | right; apply C, X]. }
  assert (Pop : forall f st, rooted (f :: st) -> rooted st \/ st = []).
  { intros f st R. destruct st as [|g r]; [right; reflexivity|].
    left. eapply rooted_tail; [exact R|discriminate]. }
  unfold parse_step, parse_value_token.
  destruct m; destruct t; try discriminate;
    repeat match goal with
      | |- context [match stack with _ => _ end] => destruct stack as [|[?|? [?|]] ?]
      | |- context [match ?l with [] => _ | _ :: _ => _ end] => destruct l
      end; try discriminate; cbn [obj_depth tok_delta];
    intros H;
    try (injection H as <- <-; split; [cbn [obj_depth]; lia|];
         intros R; left; split; [|reflexivity];
         first [ assumption | apply rooted_cons; assumption
               | eapply rooted_retop; eassumption ]);
    try (destruct (D _ _ H) as (A & B & C); split; [rewrite A; cbn [obj_depth]; lia|];
         intros R; first [ apply B; assumption
                         | destruct (Pop _ _ R); [apply B|apply C]; assumption ]).
Qed.

Lemma parse_run_app m st a : forall b,
  parse_run m st (a ++ b)
  = match parse_run m st a with
    | Some (m1, st1) => parse_run m1 st1 b
    | None => None
    end.
Proof.
  revert m st. induction a as [|t a IH]; intros m st b; [reflexivity|].
  cbn [app parse_run]. destruct (parse_step m st t) as [[m1 st1]|]; [apply IH|reflexivity].
Qed.

Lemma parse_run_depth ts : forall m st m' st',
  parse_run m st ts = Some (m', st') ->
  obj_depth st' = (obj_depth st + brace_delta ts)%Z.
Proof.
  induction ts as [|t r IH]; intros m st m' st' H.
  - injection H as <- <-. cbn [brace_delta]. lia.
  - cbn [parse_run] in H. destruct (parse_step m st t) as [[m1 st1]|] eqn:E; [|discriminate].
    rewrite (IH _ _ _ _ H). destruct (parse_step_spec _ _ _ E) as [D _].
    rewrite D. cbn [brace_delta]. lia.
Qed.

Lemma parse_run_done m st ts r :
  is_done m = true -> parse_run m st ts = Some r -> ts = [].
Proof.
  intros D H. destruct ts as [|t ts]; [reflexivity|].
  destruct m; discriminate.
Qed.

(** While tokens remain to be read, the bottom object stays open. *)
Lemma parse_run_rooted tp : forall m st tq r,
  rooted st -> is_done m = false ->
  parse_run m st (tp ++ tq) = Some r -> tq <> [] ->
  exists m1 st1, parse_run m st tp = Some (m1, st1) /\ rooted st1.
Proof.
  induction tp as [|t tp IH]; intros m st tq r R D H N.
  - exists m, st. split; [reflexivity|exact R].
  - cbn [app parse_run] in H |- *.
    destruct (parse_step m st t) as [[m1 st1]|] eqn:E; [|discriminate].
    destruct (parse_step_spec _ _ _ E) as [_ S].
    destruct (S R) as [[R1 D1]|[_ D1]].
    + eapply IH; eassumption.
    + apply (@parse_run_done _ _ _ _ D1) in H.
      destruct tp; destruct tq; try discriminate; congruence.
Qed.

Lemma accepted_balanced ts v :
  parse_run PValue [] ts = Some (PDone v, []) -> brace_delta ts = 0%Z.
Proof.
  intros H. apply parse_run_depth in H. cbn [obj_depth] in H. lia.
Qed.

Lemma accepted_prefix_depth tp tq v :
  parse_run PValue [] ((TLBrace :: tp) ++ tq) = Some (PDone v, []) ->
  tq <> [] ->
  (1 <= brace_delta (TLBrace :: tp))%Z.
Proof.
  intros H N. cbn [app parse_run parse_step parse_value_token] in H.
  destruct (@parse_run_rooted tp PFirstKey _ tq _ (rooted_single [] None) eq_refl H N)
    as (m1 & st1 & E & R).
  apply parse_run_depth in E. apply rooted_depth in R.
  cbn [obj_depth brace_delta tok_delta] in *. lia.
Qed.

(** ** Prefixes of a text that [JSON.parse] accepts *)

Lemma lex_run_app a : forall st toks b,
  lex_run st toks (a ++ b)
  = match lex_run st toks a with
    | Some (s1, t1) => lex_run s1 t1 b
    | None => None
    end.
Proof.
  induction a as [|c a IH]; intros st toks b; [reflexivity|].
  cbn [app lex_run]. destruct (lex_step st toks c) as [[s1 t1]|]; [apply IH|reflexivity].
Qed.

Lemma lex_flush_grow st toks toks' :
  lex_flush st toks = Some toks' -> exists new, toks' = new ++ toks.
Proof.
  unfold lex_flush. destruct st; try discriminate.
  - intros H; injection H as <-. exists []; reflexivity.
  - destruct (parse_number _); [|discriminate].
    intros H; injection H as <-. eexists [_]; reflexivity.
  - destruct (word_token _); [|discriminate].
    intros H; injection H as <-. eexists [_]; reflexivity.
Qed.

Lemma lex_idle_grow c toks st' toks' :
  lex_idle c toks = Some (st', toks') -> exists new, toks' = new ++ toks.
Proof.
  unfold lex_idle.
  repeat match goal with
    | |- context [if ?b then _ else _] => destruct b
    end; try discriminate; intros H; injection H as <- <-;
    first [exists []; reflexivity | eexists [_]; reflexivity].
Qed.

Lemma lex_step_grow st toks c st' toks' :
  lex_step st toks c = Some (st', toks') -> exists new, toks' = new ++ toks.
Proof.
  destruct st as [|acc|acc|acc d v|acc|acc]; cbn [lex_step].
  - apply lex_idle_grow.
  - repeat match goal with
      | |- context [if ?b then _ else _] => destruct b
      end; try discriminate; intros H; injection H as <- <-;
      first [exists []; reflexivity | eexists [_]; reflexivity].
  - destruct (c =? 117); [intros H; injection H as <- <-; exists []; reflexivity|].
    destruct (lex_escape c); [|discriminate].
    intros H; injection H as <- <-; exists []; reflexivity.
  - destruct (hex_val c); [|discriminate].
    destruct d as [|[|d']]; try discriminate;
      intros H; injection H as <- <-; exists []; reflexivity.
  - destruct (is_numchar c); [intros H; injection H as <- <-; exists []; reflexivity|].
    destruct (lex_flush _ toks) as [t1|] eqn:F; [|discriminate].
    intros H. destruct (lex_flush_grow _ _ F) as [n1 ->].
    destruct (lex_idle_grow _ _ H) as [n2 ->].
    exists (n2 ++ n1). rewrite app_assoc. reflexivity.
  - destruct (is_lower c); [intros H; injection H as <- <-; exists []; reflexivity|].
    destruct (lex_flush _ toks) as [t1|] eqn:F; [|discriminate].
    intros H. destruct (lex_flush_grow _ _ F) as [n1 ->].
    destruct (lex_idle_grow _ _ H) as [n2 ->].
    exists (n2 ++ n1). rewrite app_assoc. reflexivity.
Qed.

Lemma lex_run_grow s : forall st toks st' toks',
  lex_run st toks s = Some (st', toks') -> exists new, toks' = new ++ toks.
Proof.
  induction s as [|c r IH]; intros st toks st' toks' H.
  - injection H as <- <-. exists []; reflexivity.
  - cbn [lex_run] in H. destruct (lex_step st toks c) as [[s1 t1]|] eqn:E; [|discriminate].
    destruct (lex_step_grow _ _ _ E) as [n1 ->].
    destruct (IH _ _ _ _ H) as [n2 ->].
    exists (n2 ++ n1). rewrite app_assoc. reflexivity.
Qed.

(** A closing brace that ends an accepted text is its last token. *)
Lemma lex_step_closing st toks st' toks' :
  lex_step st toks c_rbrace = Some (st', toks') ->
  lex_in_string st' = false ->
  st' = LIdle /\ exists mid, toks' = TRBrace :: mid ++ toks.
Proof.
  assert (I : forall t s' t', lex_idle c_rbrace t = Some (s', t') ->
                              s' = LIdle /\ t' = TRBrace :: t).
  { intros t s' t' H. vm_compute in H. injection H as <- <-. split; reflexivity. }
  destruct st as [|acc|acc|acc d v|acc|acc]; cbn [lex_step].
  - intros H _. destruct (I _ _ _ H) as [-> ->]. split; [reflexivity|].
    exists []; reflexivity.
  - vm_compute. intros H; injection H as <- <-. discriminate.
  - vm_compute. discriminate.
  - vm_compute. discriminate.
  - change (is_numchar c_rbrace) with false. cbv iota.
    destruct (lex_flush _ toks) as [t1|] eqn:F; [|discriminate].
    intros H _. destruct (I _ _ _ H) as [-> ->]. split; [reflexivity|].
    destruct (lex_flush_grow _ _ F) as [n1 ->]. exists n1; reflexivity.
  - change (is_lower c_rbrace) with false. cbv iota.
    destruct (lex_flush _ toks) as [t1|] eqn:F; [|discriminate].
    intros H _. destruct (I _ _ _ H) as [-> ->]. split; [reflexivity|].
    destruct (lex_flush_grow _ _ F) as [n1 ->]. exists n1; reflexivity.
Qed.

Lemma parse_tokens_run ts v :
  parse_tokens ts = Some v -> parse_run PValue [] ts = Some (PDone v, []).
Proof.
  unfold parse_tokens.
  destruct (parse_run PValue [] ts) as [[[] [|? ?]]|]; try discriminate.
  intros H; injection H as <-; reflexivity.
Qed.

Lemma lex_sim_start n : lex_sim n LIdle [] (ctl_idle n).
Proof. unfold lex_sim, ctl_idle; cbn. repeat split. lia. Qed.

(** A text accepted by [JSON.parse] brings the loop back to where it
    started: same brace count, outside any string. *)
Lemma parsed_text_neutral s v n :
  JSON_parse s = Some v -> ctl_run (ctl_idle n) s = ctl_idle n.
Proof.
  unfold JSON_parse, lex.
  destruct (lex_run LIdle [] s) as [[stf toksf]|] eqn:L; [|discriminate].
  destruct (lex_flush stf toksf) as [toksF|] eqn:F; [|discriminate].
  cbn [option_map]. intros P. apply parse_tokens_run, accepted_balanced in P.
  rewrite brace_delta_rev, (lex_flush_delta _ _ F) in P.
  pose proof (lex_run_sim _ L (lex_sim_start n)) as S.
  rewrite (lex_sim_idle_ctl S (lex_flush_in_string _ _ F)), P.
  f_equal. lia.
Qed.

(** Inside an accepted object text, after its opening brace and before
    its closing brace, the brace count of the loop is above the count
    at which the text started. *)
Lemma parsed_object_inside p q v n :
  JSON_parse ((c_lbrace :: p) ++ q ++ [c_rbrace]) = Some v ->
  (n + 1 <= k_count (ctl_run (ctl_idle n) (c_lbrace :: p)))%Z.
Proof.
  unfold JSON_parse, lex.
  destruct (lex_run LIdle [] _) as [[stf toksf]|] eqn:L; [|discriminate].
  destruct (lex_flush stf toksf) as [toksF|] eqn:F; [|discriminate].
  cbn [option_map]. intros P. apply parse_tokens_run in P.
  rewrite lex_run_app in L.
  destruct (lex_run LIdle [] (c_lbrace :: p)) as [[s1 t1]|] eqn:L1; [|discriminate].
  rewrite lex_run_app in L.
  destruct (lex_run s1 t1 q) as [[s2 t2]|] eqn:L2; [|discriminate].
  cbn [lex_run] in L.
  destruct (lex_step s2 t2 c_rbrace) as [[s3 t3]|] eqn:L3; [|discriminate].
  injection L as -> ->.
  destruct (lex_step_closing _ _ L3 (lex_flush_in_string _ _ F)) as [-> [mid ->]].
  injection F as <-.
  destruct (lex_run_grow _ _ _ L2) as [n2 ->].
  assert (L1' : lex_run LIdle [TLBrace] p = Some (s1, t1)) by exact L1.
  destruct (lex_run_grow _ _ _ L1') as [n1 E1]. subst t1.
  assert (E : rev (TRBrace :: mid ++ n2 ++ n1 ++ [TLBrace])
              = (TLBrace :: rev n1) ++ (rev n2 ++ rev mid ++ [TRBrace])).
  { cbn [rev]. rewrite !rev_app_distr. cbn [rev app].
    rewrite <- !app_assoc. reflexivity. }
  rewrite E in P. apply accepted_prefix_depth in P.
  2:{ intros N. destruct (rev n2); destruct (rev mid); discriminate. }
  pose proof (lex_run_sim _ L1 (lex_sim_start n)) as (Hc & _ & _).
  rewrite Hc, brace_delta_app. cbn [brace_delta tok_delta] in *.
  rewrite brace_delta_rev in P. lia.
Qed.

(** ** The scan loop on one record *)

Lemma ctl_step_esc k c :
  k_esc k = false -> (c =? c_bslash) = false -> k_esc (ctl_step k c) = false.
Proof. intros H1 H2. unfold ctl_step. rewrite H1, H2. reflexivity. Qed.

Lemma ctl_run_esc s : forall k,
  k_esc k = false -> backslash_free s = true -> k_esc (ctl_run k s) = false.
Proof.
  induction s as [|c r IH]; intros k H B; [exact H|].
  cbn in B. apply andb_true_iff in B. destruct B as [B1 B2].
  apply negb_true_iff in B1. cbn [ctl_run fold_left].
  apply IH; [apply ctl_step_esc; assumption|exact B2].
Qed.

(** A step that starts and ends inside an object appends the
    character and records nothing. *)
Lemma partial_step_interior objs cur k c :
  k_esc k = false -> (c =? c_bslash) = false ->
  (1 <= k_count k)%Z -> (1 <= k_count (ctl_step k c))%Z ->
  partial_step (scan_state_of objs cur k) c
  = scan_state_of objs (cur ++ [c]) (ctl_step k c).
Proof.
  intros He Hb H1 H2. revert H2.
  unfold partial_step, ctl_step, scan_state_of.
  cbn [ps_escapeNext ps_inString ps_braceCount ps_currentObject ps_sessionObjects
       k_esc k_count k_inString].
  rewrite He, Hb. cbn [k_count k_inString k_esc].
  destruct (if c =? c_quote then _ else _).
  - intros _. replace (0 <? k_count k)%Z with true by (symmetry; apply Z.ltb_lt; lia).
    reflexivity.
  - destruct (c =? c_lbrace).
    + intros _. replace (k_count k =? 0)%Z with false by (symmetry; apply Z.eqb_neq; lia).
      replace (0 <? k_count k + 1)%Z with true by (symmetry; apply Z.ltb_lt; lia).
      reflexivity.
    + destruct (c =? c_rbrace).
      * intros H2.
        replace (k_count k - 1 =? 0)%Z with false by (symmetry; apply Z.eqb_neq; lia).
        replace (0 <? k_count k - 1)%Z with true by (symmetry; apply Z.ltb_lt; lia).
        reflexivity.
      * intros _. replace (0 <? k_count k)%Z with true by (symmetry; apply Z.ltb_lt; lia).
        reflexivity.
Qed.

Lemma scan_interior mid : forall objs cur k,
  k_esc k = false -> backslash_free mid = true ->
  (forall a b, mid = a ++ b -> (1 <= k_count (ctl_run k a))%Z) ->
  fold_left partial_step mid (scan_state_of objs cur k)
  = scan_state_of objs (cur ++ mid) (ctl_run k mid).
Proof.
  induction mid as [|c r IH]; intros objs cur k He B H.
  - cbn. rewrite app_nil_r. reflexivity.
  - cbn in B. apply andb_true_iff in B. destruct B as [B1 B2].
    apply negb_true_iff in B1.
    cbn [fold_left ctl_run].
    rewrite partial_step_interior; auto.
    + rewrite IH; auto.
      * rewrite <- app_assoc. reflexivity.
      * apply ctl_step_esc; assumption.
      * intros a b E. apply (H (c :: a) b). rewrite E. reflexivity.
    + apply (H [] (c :: r)). reflexivity.
    + apply (H [c] r). reflexivity.
Qed.

Lemma trim_fix x mid y :
  is_space x = false -> is_space y = false -> trim (x :: mid ++ [y]) = x :: mid ++ [y].
Proof.
  intros Hx Hy. unfold trim. rewrite (dropWhile_fix is_space) by exact Hx.
  change (x :: mid ++ [y]) with ((x :: mid) ++ [y]).
  apply dropWhileEnd_fix, Hy.
Qed.

(** The loop on the text of one object, started outside any object:
    the whole text is recorded as one candidate. *)
Lemma scan_object_text mid v objs cur :
  JSON_parse (c_lbrace :: mid ++ [c_rbrace]) = Some v ->
  backslash_free mid = true ->
  fold_left partial_step (c_lbrace :: mid ++ [c_rbrace])
    (scan_state_of objs cur (ctl_idle 0))
  = scan_state_of (objs ++ [c_lbrace :: mid ++ [c_rbrace]]) [] (ctl_idle 0).
Proof.
  intros P B.
  pose proof (@parsed_text_neutral _ _ 0%Z P) as N.
  cbn [fold_left]. rewrite fold_left_app.
  change (partial_step (scan_state_of objs cur (ctl_idle 0)) c_lbrace)
    with (scan_state_of objs [c_lbrace] (ctl_idle 1)).
  rewrite scan_interior; [|reflexivity|exact B|].
  2:{ intros a b E. subst mid.
      pose proof (@parsed_object_inside a b v 0%Z) as I.
      rewrite <- app_assoc in P. specialize (I P). exact I. }
  change (ctl_run (ctl_idle 0) (c_lbrace :: mid ++ [c_rbrace]))
    with (ctl_run (ctl_idle 1) (mid ++ [c_rbrace])) in N.
  rewrite ctl_run_app in N. cbn [ctl_run fold_left] in N.
  set (k := ctl_run (ctl_idle 1) mid) in *.
  assert (Ek : k_esc k = false) by (apply ctl_run_esc; [reflexivity|exact B]).
  assert (K : k = ctl_idle 1).
  { revert N. unfold ctl_step. rewrite Ek.
    change (c_rbrace =? c_bslash) with false.
    change (c_rbrace =? c_quote) with false.
    change (c_rbrace =? c_lbrace) with false.
    change (c_rbrace =? c_rbrace) with true. cbv iota.
    destruct k as [cnt ins esc]. cbn [k_count k_inString k_esc] in *.
    unfold ctl_idle. destruct ins; intros N; injection N; intros;
      try discriminate. rewrite Ek. f_equal. lia. }
  rewrite K. cbn [fold_left].
  unfold partial_step, scan_state_of, ctl_idle.
  cbn [ps_escapeNext ps_inString ps_braceCount ps_currentObject ps_sessionObjects
       k_esc k_count k_inString].
  change (c_rbrace =? c_bslash) with false.
  change (c_rbrace =? c_quote) with false.
  change (c_rbrace =? c_lbrace) with false.
  change (c_rbrace =? c_rbrace) with true.
  change (1 - 1 =? 0)%Z with true. change (0 <? 1 - 1)%Z with false. cbv iota.
  change ([c_lbrace] ++ mid) with (c_lbrace :: mid).
  change ((c_lbrace :: mid) ++ [c_rbrace]) with (c_lbrace :: mid ++ [c_rbrace]).
  rewrite trim_fix by reflexivity. reflexivity.
Qed.

(** Outside any object, a character that is neither a brace, a quote
    nor a backslash changes nothing. *)
Lemma partial_step_inert objs cur c :
  inert c = true ->
  partial_step (scan_state_of objs cur (ctl_idle 0)) c
  = scan_state_of objs cur (ctl_idle 0).
Proof.
  unfold inert. intros H. apply negb_true_iff in H.
  apply orb_false_iff in H. destruct H as [H H4].
  apply orb_false_iff in H. destruct H as [H H3].
  apply orb_false_iff in H. destruct H as [H1 H2].
  unfold partial_step, scan_state_of, ctl_idle.
  cbn [ps_escapeNext ps_inString ps_braceCount ps_currentObject ps_sessionObjects
       k_esc k_count k_inString].
  rewrite H1, H2, H3, H4. reflexivity.
Qed.

Lemma scan_inert s : forall objs cur,
  forallb inert s = true ->
  fold_left partial_step s (scan_state_of objs cur (ctl_idle 0))
  = scan_state_of objs cur (ctl_idle 0).
Proof.
  induction s as [|c r IH]; intros objs cur H; [reflexivity|].
  cbn in H. apply andb_true_iff in H. destruct H as [H1 H2].
  cbn [fold_left]. rewrite partial_step_inert by exact H1. apply IH, H2.
Qed.

(** ** The scan loop on a truncated array *)

Lemma separator_inert s : is_separator s = true -> forallb inert s = true.
Proof.
  unfold is_separator. induction s as [|c r IH]; intros H; [reflexivity|].
  cbn in H |- *. apply andb_true_iff in H. destruct H as [H1 H2].
  rewrite (IH H2), andb_true_r.
  unfold inert. chars. eqb_cases; subst; try reflexivity.
Qed.

Lemma is_object_text_shape r :
  is_object_text r = true ->
  exists mid v, r = c_lbrace :: mid ++ [c_rbrace] /\ JSON_parse r = Some v.
Proof.
  unfold is_object_text. destruct r as [|c rest]; [discriminate|].
  intros H. apply andb_true_iff in H. destruct H as [H H3].
  apply andb_true_iff in H. destruct H as [H1 H2].
  apply N.eqb_eq in H1. subst c.
  destruct (rev rest) as [|d t] eqn:E; [discriminate|].
  apply N.eqb_eq in H2. subst d.
  apply (f_equal (@rev _)) in E. rewrite rev_involutive in E. cbn [rev] in E.
  subst rest.
  destruct (JSON_parse _) as [v|] eqn:P; [|discriminate].
  exists (rev t), v. split; reflexivity.
Qed.

(** Strictly inside an object text the loop is inside an object. *)
Lemma object_prefix_inside r a b :
  is_object_text r = true -> r = a ++ b -> a <> [] -> b <> [] ->
  (1 <= k_count (ctl_run (ctl_idle 0) a))%Z.
Proof.
  intros O E Na Nb.
  destruct (is_object_text_shape _ O) as (mid & v & Er & P).
  destruct a as [|c a']; [congruence|].
  destruct (exists_last Nb) as (b' & y & ->).
  rewrite Er in E.
  assert (c = c_lbrace) by (cbn in E; congruence). subst c.
  assert (y = c_rbrace).
  { apply (f_equal (@rev _)) in E. cbn [rev app] in E.
    rewrite !rev_app_distr in E. cbn in E. congruence. }
  subst y. rewrite Er, E in P.
  exact (@parsed_object_inside a' b' v 0%Z P).
Qed.

(** The recorded candidates only change on a step that brings the
    brace count to zero. *)
Lemma partial_step_objects st c :
  ps_sessionObjects (partial_step st c) = ps_sessionObjects st
  \/ k_count (ctl_step (ctl_of st) c) = 0%Z.
Proof.
  unfold partial_step, ctl_step, ctl_of.
  cbn [k_esc k_count k_inString].
  destruct (ps_escapeNext st); [left; reflexivity|].
  destruct (c =? c_bslash); [left; reflexivity|].
  cbn [k_esc k_count k_inString].
  destruct (if c =? c_quote then _ else _); [left; reflexivity|].
  destruct (c =? c_lbrace); [left; reflexivity|].
  destruct (c =? c_rbrace); [|left; reflexivity].
  destruct (ps_braceCount st - 1 =? 0)%Z eqn:E; [|left; reflexivity].
  right. apply Z.eqb_eq, E.
Qed.

Lemma scan_no_push t : forall st,
  (forall a b, t = a ++ b -> a <> [] -> k_count (ctl_run (ctl_of st) a) <> 0%Z) ->
  ps_sessionObjects (fold_left partial_step t st) = ps_sessionObjects st.
Proof.
  induction t as [|c r IH]; intros st H; [reflexivity|].
  cbn [fold_left]. rewrite IH.
  - destruct (partial_step_objects st c) as [E|E]; [exact E|].
    exfalso. apply (H [c] r); [reflexivity|discriminate|exact E].
  - intros a b E N. rewrite ctl_of_step.
    apply (H (c :: a) b); [rewrite E; reflexivity|discriminate].
Qed.

(** What is left after the last complete record adds no candidate. *)
Lemma scan_tail sep last cut t rest objs cur :
  is_separator sep = true -> is_object_text last = true ->
  (cut < length last)%nat ->
  sep ++ firstn cut last = t ++ rest ->
  ps_sessionObjects
    (fold_left partial_step t (scan_state_of objs cur (ctl_idle 0)))
  = objs.
Proof.
  intros S O C E.
  apply separator_inert in S.
  apply app_eq_app in E. destruct E as [x [[E1 E2]|[E1 E2]]].
  - (* the tail ends inside the separator *)
    subst sep. rewrite forallb_app in S. apply andb_true_iff in S.
    rewrite scan_inert by apply S. reflexivity.
  - subst t. rewrite fold_left_app, scan_inert by exact S.
    rewrite scan_no_push; [reflexivity|].
    intros a b Ea Na. change (ctl_of (scan_state_of objs cur (ctl_idle 0)))
      with (ctl_idle 0).
    enough (1 <= k_count (ctl_run (ctl_idle 0) a))%Z by lia.
    apply (@object_prefix_inside last a (b ++ rest ++ skipn cut last)); auto.
    + rewrite <- (firstn_skipn cut last) at 1. rewrite E2, Ea, <- !app_assoc.
      reflexivity.
    + intros Nb. apply app_eq_nil in Nb. destruct Nb as [_ Nb].
      apply app_eq_nil in Nb. destruct Nb as [_ Nb].
      apply (f_equal (@length _)) in Nb. rewrite length_skipn in Nb. cbn in Nb. lia.
Qed.

Lemma piece_ok_scan pc objs cur :
  piece_ok pc ->
  fold_left partial_step (p_sep pc ++ p_text pc) (scan_state_of objs cur (ctl_idle 0))
  = scan_state_of (objs ++ [p_text pc]) [] (ctl_idle 0).
Proof.
  intros (S & O & B & _).
  destruct (is_object_text_shape _ O) as (mid & v & Er & P).
  rewrite fold_left_app, scan_inert by (apply separator_inert, S).
  rewrite Er in *. apply scan_object_text with (v := v); [exact P|].
  cbn in B. unfold backslash_free in B. rewrite forallb_app in B.
  apply andb_true_iff in B. apply B.
Qed.

Lemma scan_pieces pieces : forall objs cur,
  Forall piece_ok pieces ->
  fold_left partial_step (pieces_text pieces) (scan_state_of objs cur (ctl_idle 0))
  = scan_state_of (objs ++ map p_text pieces)
      (match pieces with [] => cur | _ => [] end) (ctl_idle 0).
Proof.
  induction pieces as [|pc r IH]; intros objs cur F.
  - cbn. rewrite app_nil_r. reflexivity.
  - inversion F as [|? ? Hpc Hr]; subst.
    unfold pieces_text. cbn [map concat]. rewrite fold_left_app.
    rewrite piece_ok_scan by exact Hpc.
    fold (pieces_text r). rewrite IH by exact Hr.
    rewrite <- app_assoc. cbn [app]. destruct r; reflexivity.
Qed.

Lemma ctl_run_pieces pieces :
  Forall piece_ok pieces ->
  ctl_run (ctl_idle 0) (pieces_text pieces) = ctl_idle 0.
Proof.
  intros F.
  pose proof (scan_pieces [] [] F) as H.
  apply (f_equal ctl_of) in H. rewrite ctl_of_run in H. exact H.
Qed.

(** A truncated array is not valid JSON. *)
Lemma truncated_array_not_json pieces sep last cut :
  Forall piece_ok pieces -> is_separator sep = true ->
  is_object_text last = true -> (0 < cut < length last)%nat ->
  JSON_parse (truncated_array pieces (sep ++ firstn cut last)) = None.
Proof.
  intros F S O C.
  destruct (JSON_parse _) as [v|] eqn:P; [exfalso|reflexivity].
  apply (@parsed_text_neutral _ _ 0%Z) in P.
  unfold truncated_array in P. cbn [ctl_run fold_left] in P.
  change (ctl_step (ctl_idle 0) c_lbrack) with (ctl_idle 0) in P.
  fold (ctl_run (ctl_idle 0) (pieces_text pieces ++ sep ++ firstn cut last)) in P.
  rewrite !ctl_run_app, ctl_run_pieces in P by exact F.
  rewrite ctl_run_inert in P by (apply separator_inert, S).
  assert (I : (1 <= k_count (ctl_run (ctl_idle 0) (firstn cut last)))%Z).
  { apply (@object_prefix_inside last _ (skipn cut last)); auto.
    - symmetry. apply firstn_skipn.
    - intros N. apply (f_equal (@length _)) in N.
      rewrite length_firstn in N. cbn in N. lia.
    - intros N. apply (f_equal (@length _)) in N.
      rewrite length_skipn in N. cbn in N. lia. }
  rewrite P in I. cbn in I. lia.
Qed.

Lemma pieces_text_last pieces :
  pieces <> [] -> Forall piece_ok pieces ->
  exists a, pieces_text pieces = a ++ [c_rbrace].
Proof.
  intros N F. destruct (exists_last N) as (front & pc & ->).
  apply Forall_app in F. destruct F as [_ F]. inversion F as [|? ? Hpc _]; subst.
  destruct Hpc as (_ & O & _).
  destruct (is_object_text_shape _ O) as (mid & v & Er & _).
  unfold pieces_text. rewrite map_app, concat_app. cbn [map concat].
  rewrite Er, app_nil_r.
  exists (concat (map (fun pc0 => p_sep pc0 ++ p_text pc0) front)
            ++ p_sep pc ++ c_lbrace :: mid).
  rewrite <- !app_assoc. reflexivity.
Qed.

(** Cleaning a truncated array cuts characters of the part after the
    last complete record only. *)
Lemma clean_truncated_array pieces tail :
  pieces <> [] -> Forall piece_ok pieces ->
  exists t rest,
    clean_response (truncated_array pieces tail) = truncated_array pieces t
    /\ tail = t ++ rest.
Proof.
  intros N F. destruct (pieces_text_last N F) as [a Ea].
  unfold truncated_array, clean_response, trim. rewrite Ea.
  rewrite (dropWhile_fix is_space) by reflexivity.
  change (c_lbrack :: (a ++ [c_rbrace]) ++ tail)
    with (((c_lbrack :: a) ++ [c_rbrace]) ++ tail).
  destruct (@dropWhileEnd_app_keep _ is_space (c_lbrack :: a) c_rbrace tail eq_refl)
    as (t1 & E1 & r1 & ->).
  rewrite E1.
  change (((c_lbrack :: a) ++ [c_rbrace]) ++ t1)
    with (c_lbrack :: (a ++ [c_rbrace]) ++ t1) at 1.
  rewrite (dropWhile_fix (fun c => negb (is_json_starter c))) by reflexivity.
  change (c_lbrack :: (a ++ [c_rbrace]) ++ t1)
    with (((c_lbrack :: a) ++ [c_rbrace]) ++ t1).
  destruct (@dropWhileEnd_app_keep _ (fun c => negb (is_json_ender c))
              (c_lbrack :: a) c_rbrace t1 eq_refl) as (t2 & E2 & r2 & ->).
  rewrite E2. exists t2, (r2 ++ r1). split; [reflexivity|].
  rewrite app_assoc. reflexivity.
Qed.

(** The candidates found in a cleaned truncated array are its complete
    records. *)
Lemma partial_scan_truncated pieces sep last cut t rest :
  Forall piece_ok pieces -> is_separator sep = true ->
  is_object_text last = true -> (cut < length last)%nat ->
  sep ++ firstn cut last = t ++ rest ->
  partial_scan (truncated_array pieces t) = map p_text pieces.
Proof.
  intros F S O C E. unfold partial_scan, truncated_array.
  cbn [fold_left].
  change (partial_step partial_init c_lbrack) with (scan_state_of [] [] (ctl_idle 0)).
  rewrite fold_left_app, scan_pieces by exact F.
  rewrite (@scan_tail sep last cut t rest _ _ S O C E). reflexivity.
Qed.

(** ** Recovery from a truncated array *)

Lemma strip_trailing_comma_fix s y :
  is_space y = false -> (y =? c_comma) = false ->
  strip_trailing_comma (s ++ [y]) = s ++ [y].
Proof.
  intros Hs Hc. induction s as [|c r IH]; cbn [app strip_trailing_comma].
  - rewrite Hc. reflexivity.
  - rewrite forallb_app. cbn [forallb]. rewrite Hs, andb_false_r, andb_false_r, IH.
    reflexivity.
Qed.

Lemma recover_candidate_piece pc :
  piece_ok pc -> recover_candidate (p_text pc) = Some (p_slot pc, p_loc pc).
Proof.
  intros (_ & O & _ & R & Nm & _).
  destruct (is_object_text_shape _ O) as (mid & v & Er & _).
  unfold recover_candidate. rewrite R.
  replace (strip_trailing_comma (p_text pc)) with (p_text pc).
  - exact Nm.
  - rewrite Er. change (c_lbrace :: mid ++ [c_rbrace]) with ((c_lbrace :: mid) ++ [c_rbrace]).
    symmetry. apply strip_trailing_comma_fix; reflexivity.
Qed.

Lemma recover_all_pieces pieces : forall sessions locs,
  Forall piece_ok pieces ->
  recover_all recover_candidate (map p_text pieces) sessions locs
  = (sessions ++ map p_slot pieces, fold_left set_add (map p_loc pieces) locs).
Proof.
  induction pieces as [|pc r IH]; intros sessions locs F.
  - cbn. rewrite app_nil_r. reflexivity.
  - inversion F as [|? ? Hpc Hr]; subst. cbn [map recover_all].
    rewrite (recover_candidate_piece Hpc), IH by exact Hr.
    rewrite <- app_assoc. reflexivity.
Qed.

Lemma time_of_converts dp v :
  time_converts v = true <-> exists t, time_of dp v = Ret t.
Proof.
  unfold time_converts, time_of, new_Date.
  destruct v as [x|]; [destruct (truthy x); [destruct (to_primitive x)|]|];
    split; intros H; try reflexivity; eauto; try discriminate.
  destruct H as [t H]. discriminate.
Qed.

Lemma range_step_converts dp r s :
  times_convert s = true <-> exists r', range_step dp r s = Ret r'.
Proof.
  unfold times_convert, range_step.
  destruct (get_prop s "startTime") as [st|];
    [|split; [discriminate | intros [? H]; discriminate]].
  destruct (get_prop s "endTime") as [en|];
    [|split; [discriminate | intros [? H]; discriminate]].
  pose proof (time_of_converts dp st) as Hs.
  pose proof (time_of_converts dp en) as He.
  destruct (time_of dp st) as [a|].
  - destruct (time_of dp en) as [b|].
    + rewrite (proj2 Hs), (proj2 He) by eauto. split; eauto.
    + split.
      * intros H. apply andb_true_iff in H. destruct H as [_ H].
        apply He in H. destruct H as [? H]. discriminate.
      * intros [? H]. discriminate.
  - split.
    + intros H. apply andb_true_iff in H. destruct H as [H _].
      apply Hs in H. destruct H as [? H]. discriminate.
    + intros [? H]. discriminate.
Qed.

Lemma calculateTimeRange_converts dp l : forall r,
  Forall (fun s => times_convert s = true) l ->
  exists tr, calculateTimeRange_from dp r l = Ret tr.
Proof.
  induction l as [|s l IH]; intros r F.
  - exists r. reflexivity.
  - inversion F as [|? ? Hs Hl]; subst. cbn [calculateTimeRange_from].
    destruct (proj1 (range_step_converts dp r s) Hs) as [r' ->].
    apply IH, Hl.
Qed.

Lemma piece_times_convert pc : piece_ok pc -> times_convert (p_slot pc) = true.
Proof. intros (_ & _ & _ & _ & _ & T). exact T. Qed.

(** C1 (amended).  Take a payload made of an opening bracket, one or
    more complete records (each an object text without backslash
    escape and without a comma-space-brace sequence, with a truthy
    [sessionName] and [location] and with a [startTime] and an
    [endTime] that [new Date] accepts) separated by commas and white
    space, and the first [cut] characters of a further object text, cut
    strictly inside it; let the payload not carry the wrapper markers.
    Then [parseAgentResponse] falls back to
    [extractPartialScheduleData] and returns exactly the complete
    records, each normalised with the defaults, with [totalSessions]
    their number, the set of their locations, and [isPartial = true]. *)
Theorem C1_truncated_array_recovery
  (Date_parse : JSON -> option Z) (pieces : list piece) (sep last : text) (cut : nat) :
  pieces <> [] ->
  Forall piece_ok pieces ->
  is_separator sep = true ->
  is_object_text last = true ->
  (0 < cut < length last)%nat ->
  has_wrapper_markers (truncated_array pieces (sep ++ firstn cut last)) = false ->
  exists tr,
    calculateTimeRange Date_parse (map p_slot pieces) = Ret tr
    /\ parseAgentResponse Date_parse (truncated_array pieces (sep ++ firstn cut last))
       = {| success := true;
            schedule := Some (map p_slot pieces);
            totalSessions := Some (length pieces);
            locations := Some (set_of_list (map p_loc pieces));
            timeRange := Some tr;
            error := None;
            rawResponse := Some (truncated_array pieces (sep ++ firstn cut last));
            note := Some (txt "Response was truncated - showing partial data. Some sessions may be incomplete.");
            isPartial := Some true |}.
Proof.
  intros N F S O C W.
  destruct (@calculateTimeRange_converts Date_parse (map p_slot pieces) no_range)
    as [tr Htr].
  { apply Forall_map. revert F. apply Forall_impl. apply piece_times_convert. }
  exists tr. split; [exact Htr|].
  set (payload := truncated_array pieces (sep ++ firstn cut last)) in *.
  assert (X : extractPartialScheduleData Date_parse payload
              = {| pd_schedule := map p_slot pieces;
                   pd_locations := set_of_list (map p_loc pieces);
                   pd_timeRange := tr |}).
  { unfold extractPartialScheduleData, payload.
    destruct (clean_truncated_array (sep ++ firstn cut last) N F) as (t & rest & -> & E).
    rewrite (@partial_scan_truncated pieces sep last cut t rest F S O (proj2 C) E).
    rewrite recover_all_pieces by exact F. cbn [app].
    destruct pieces as [|pc r]; [congruence|].
    cbn [map is_nil] in *. fold (calculateTimeRange Date_parse) in Htr.
    unfold calculateTimeRange. rewrite Htr. reflexivity. }
  unfold parseAgentResponse.
  change (is_nil payload) with false. cbv iota. rewrite W.
  unfold parse_plain, payload at 1.
  rewrite (@truncated_array_not_json pieces sep last cut F S O C). fold payload.
  unfold partial_result. rewrite X. cbn [pd_schedule pd_locations pd_timeRange].
  rewrite length_map.
  destruct pieces as [|pc r]; [congruence|]. reflexivity.
Qed.

(** The example of the specification: the second record is cut after
    its [sessionName]; the recovered schedule holds the record A,
    completed with the defaults, and the result is flagged partial. *)
Lemma C1_truncated_array_witness :
  truncated_array [example_piece] (js "," ++ firstn 18 example_last) = example_truncated
  /\ exists tr,
       calculateTimeRange no_dates [slot_A] = Ret tr
       /\ parseAgentResponse no_dates example_truncated
          = {| success := true;
               schedule := Some [slot_A];
               totalSessions := Some 1%nat;
               locations := Some [JStr (txt "Room1")];
               timeRange := Some tr;
               error := None;
               rawResponse := Some example_truncated;
               note := Some (txt "Response was truncated - showing partial data. Some sessions may be incomplete.");
               isPartial := Some true |}.
Proof.
  split; [vm_compute; reflexivity|].
  apply (@C1_truncated_array_recovery no_dates [example_piece] (js ",") example_last 18).
  - discriminate.
  - constructor; [|constructor].
    unfold piece_ok. repeat split; vm_compute; reflexivity.
  - vm_compute; reflexivity.
  - vm_compute; reflexivity.
  - split; [lia | vm_compute; lia].
  - vm_compute; reflexivity.
Defined.

(** C1.  When the cut falls inside the first record there is no
    complete record before it: [parseAgentResponse] then reports a
    failure, and the result carries no partial flag. *)
Lemma C1_first_record_truncated :
  success (parseAgentResponse no_dates first_record_truncated) = false
  /\ isPartial (parseAgentResponse no_dates first_record_truncated) = None
  /\ schedule (parseAgentResponse no_dates first_record_truncated) = None.
Proof. vm_compute. repeat split. Qed.

(** A record whose [startTime] is an object with a [toString] property
    of its own is outside the theorem: [new Date] throws on it in
    [calculateTimeRange], the [catch] of [extractPartialScheduleData]
    returns an empty schedule, and the result is a failure. *)
Example unconvertible_time_loses_the_records :
  success
    (parseAgentResponse no_dates
       (js "[{'sessionName':'A','location':'Room1','startTime':{'toString':1}},{'sessionName':'B'"))
  = false.
Proof. vm_compute. reflexivity. Qed.

(** The repair of trailing commas is not aware of strings: a name that
    contains a comma, white space and a closing brace is recovered
    without the comma and the white space. *)
Example repair_alters_string_values :
  map session_name
    (pd_schedule (extractPartialScheduleData no_dates comma_brace_payload))
  = [Some (txt "A}B")].
Proof. vm_compute. reflexivity. Qed.

(** ** What the two fragment scanners return *)

Section ScanSound.

Variables op cl : char.
Variable response : text.

Lemma substring_delimited pre rest a :
  response = pre ++ cl :: rest ->
  (a < length pre)%nat -> nth_error response a = Some op ->
  exists p1 mid,
    pre = p1 ++ op :: mid
    /\ substring response a (length pre + 1) = op :: mid ++ [cl].
Proof.
  intros E La Ha.
  assert (Ep : pre = firstn a pre ++ skipn a pre) by (symmetry; apply firstn_skipn).
  assert (L1 : length (firstn a pre) = a) by (rewrite length_firstn; lia).
  destruct (skipn a pre) as [|x mid] eqn:Es.
  { apply (f_equal (@length _)) in Es. rewrite length_skipn in Es. simpl in Es. lia. }
  assert (x = op).
  { rewrite E, Ep in Ha. rewrite <- app_assoc in Ha.
    rewrite nth_error_app2 in Ha by lia.
    rewrite L1, Nat.sub_diag in Ha. simpl in Ha. congruence. }
  subst x. exists (firstn a pre), mid. split; [exact Ep|].
  unfold substring. rewrite E.
  rewrite Ep at 2. rewrite <- app_assoc.
  replace a with (length (firstn a pre) + 0)%nat at 2 by lia.
  rewrite skipn_app, skipn_all2 by lia.
  replace (length (firstn a pre) + 0 - length (firstn a pre))%nat with 0%nat by lia.
  cbn [skipn app].
  assert (Lp : length pre = (a + S (length mid))%nat).
  { rewrite Ep at 1. rewrite length_app, L1. reflexivity. }
  replace (length pre + 1 - a)%nat with (length (op :: mid ++ [cl]) + 0)%nat
    by (cbn [length]; rewrite length_app; cbn [length]; lia).
  change (op :: mid ++ cl :: rest) with ((op :: mid) ++ cl :: rest).
  replace ((op :: mid) ++ cl :: rest) with ((op :: mid ++ [cl]) ++ rest)
    by (cbn [app]; rewrite <- app_assoc; reflexivity).
  rewrite firstn_app_2. cbn [firstn]. rewrite app_nil_r. reflexivity.
Qed.

Lemma scan_step_inv pre c rest st :
  response = pre ++ c :: rest ->
  scan_inv op cl response pre st ->
  scan_inv op cl response (pre ++ [c]) (scan_step op cl response st (length pre) c).
Proof.
  intros E [Hs Hf].
  assert (Keep : forall a, sc_start st = Some a ->
            (a < length (pre ++ [c]))%nat /\ nth_error response a = Some op).
  { intros a Ha. destruct (Hs a Ha). rewrite length_app. cbn [length]. split; [lia|assumption]. }
  unfold scan_step.
  destruct (sc_escapeNext st); [split; assumption|].
  destruct (c =? c_bslash); [split; assumption|].
  match goal with |- context [if ?b then _ else _] => destruct b end;
    [split; assumption|].
  destruct (c =? op) eqn:Eop.
  { split; [|exact Hf]. cbn [sc_start]. intros a Ha.
    destruct (sc_count st =? 0)%Z; [|auto].
    injection Ha as <-. apply N.eqb_eq in Eop. subst c.
    rewrite length_app. cbn [length]. split; [lia|].
    rewrite E, nth_error_app2, Nat.sub_diag by lia. reflexivity. }
  destruct (c =? cl) eqn:Ecl; [|split; assumption].
  cbv zeta.
  destruct (sc_count st - 1 =? 0)%Z; [|split; assumption].
  destruct (sc_start st) as [a|] eqn:Est; [|split; [assumption|exact Hf]].
  split; [cbn [sc_start]; discriminate|]. cbn [sc_found].
  destruct (JSON_parse (substring response a (length pre + 1))) eqn:EP; [|exact Hf].
  apply Forall_app. split; [exact Hf|]. constructor; [|constructor].
  apply N.eqb_eq in Ecl. subst c.
  destruct (Hs a eq_refl) as [La Ha].
  destruct (substring_delimited pre rest E La Ha) as (p1 & mid & Ep & Es).
  split; [congruence|].
  exists p1, mid, rest. split; [|exact Es].
  rewrite Es, E, Ep. rewrite <- !app_assoc. cbn [app].
  rewrite <- app_assoc. reflexivity.
Qed.

Lemma scan_loop_inv rest : forall pre st,
  response = pre ++ rest ->
  scan_inv op cl response pre st ->
  Forall (delimited_json op cl response)
    (sc_found (scan_loop op cl response st (length pre) rest)).
Proof.
  induction rest as [|c rest IH]; intros pre st E I; cbn [scan_loop].
  - apply I.
  - replace (S (length pre)) with (length (pre ++ [c]))
      by (rewrite length_app; cbn [length]; lia).
    apply IH.
    + rewrite <- app_assoc. exact E.
    + eapply scan_step_inv; eassumption.
Qed.

Lemma scan_found_delimited :
  Forall (delimited_json op cl response)
    (sc_found (scan_loop op cl response scan_init 0 response)).
Proof.
  apply (scan_loop_inv response (pre := []) (st := scan_init)); [reflexivity|].
  split; [discriminate|constructor].
Qed.

End ScanSound.

(** X1.  Every fragment that [extractMultipleJsonObjects] returns is a
    contiguous part of the response that runs from an opening to a
    closing brace and that [JSON.parse] accepts; the same holds of
    [extractMultipleJsonArrays] with brackets. *)
Theorem extracted_fragments_are_delimited_json (response : text) :
  Forall (fun frag =>
            JSON_parse frag <> None
            /\ exists pre mid post,
                 response = pre ++ frag ++ post
                 /\ frag = c_lbrace :: mid ++ [c_rbrace])
    (extractMultipleJsonObjects response)
  /\ Forall (fun frag =>
            JSON_parse frag <> None
            /\ exists pre mid post,
                 response = pre ++ frag ++ post
                 /\ frag = c_lbrack :: mid ++ [c_rbrack])
    (extractMultipleJsonArrays response).
Proof.
  split.
  - exact (scan_found_delimited c_lbrace c_rbrace response).
  - exact (scan_found_delimited c_lbrack c_rbrack response).
Qed.

(** ** The object scanner on a sequence of object texts *)

Lemma scan_state_at_eta st :
  st = scan_state_at (ctl_of_scan st) (sc_start st) (sc_found st).
Proof. destruct st; reflexivity. Qed.

Lemma ctl_of_scan_step response st i c :
  ctl_of_scan (scan_step c_lbrace c_rbrace response st i c)
  = ctl_step (ctl_of_scan st) c.
Proof.
  unfold scan_step, ctl_step, ctl_of_scan; cbn [k_esc k_count k_inString].
  destruct (sc_escapeNext st); [reflexivity|].
  destruct (c =? c_bslash); [reflexivity|].
  cbv zeta.
  destruct (if c =? c_quote then negb (sc_inString st) else sc_inString st);
    [reflexivity|].
  destruct (c =? c_lbrace); [reflexivity|].
  destruct (c =? c_rbrace); [|reflexivity].
  destruct (sc_count st - 1 =? 0)%Z; [|reflexivity].
  destruct (sc_start st); reflexivity.
Qed.

Lemma scan_loop_app op cl response a : forall st i b,
  scan_loop op cl response st i (a ++ b)
  = scan_loop op cl response (scan_loop op cl response st i a) (i + length a) b.
Proof.
  induction a as [|c a IH]; intros st i b; cbn [app scan_loop length].
  - rewrite Nat.add_0_r. reflexivity.
  - rewrite IH. f_equal. lia.
Qed.

(** Inside an object the scanner records nothing. *)
Lemma scan_step_interior response k start found i c :
  (1 <= k_count k)%Z -> (1 <= k_count (ctl_step k c))%Z ->
  scan_step c_lbrace c_rbrace response (scan_state_at k start found) i c
  = scan_state_at (ctl_step k c) start found.
Proof.
  intros H1 H2. unfold scan_step, scan_state_at, ctl_step in *.
  cbn [sc_escapeNext sc_count sc_start sc_inString sc_found] in *.
  destruct (k_esc k); [reflexivity|].
  destruct (c =? c_bslash); [reflexivity|].
  cbv zeta in *. cbn [k_count k_inString k_esc] in *.
  destruct (if c =? c_quote then negb (k_inString k) else k_inString k);
    [reflexivity|].
  destruct (c =? c_lbrace).
  { replace (k_count k =? 0)%Z with false by (symmetry; apply Z.eqb_neq; lia).
    reflexivity. }
  destruct (c =? c_rbrace); [|reflexivity].
  replace (k_count k - 1 =? 0)%Z with false by (symmetry; apply Z.eqb_neq; lia).
  reflexivity.
Qed.

Lemma scan_loop_interior response mid : forall k start found i,
  (forall a b, mid = a ++ b -> (1 <= k_count (ctl_run k a))%Z) ->
  scan_loop c_lbrace c_rbrace response (scan_state_at k start found) i mid
  = scan_state_at (ctl_run k mid) start found.
Proof.
  induction mid as [|c mid IH]; intros k start found i H; cbn [scan_loop].
  - reflexivity.
  - rewrite scan_step_interior.
    + rewrite IH; [reflexivity|].
      intros a b E. apply (H (c :: a) b). rewrite E. reflexivity.
    + apply (H [] (c :: mid)). reflexivity.
    + apply (H [c] mid). reflexivity.
Qed.

Lemma scan_loop_inert response s : forall start found i,
  forallb inert s = true ->
  scan_loop c_lbrace c_rbrace response (scan_state_at (ctl_idle 0) start found) i s
  = scan_state_at (ctl_idle 0) start found.
Proof.
  induction s as [|c s IH]; intros start found i H; cbn [scan_loop].
  - reflexivity.
  - cbn [forallb] in H. apply andb_true_iff in H. destruct H as [Hc Hs].
    replace (scan_step c_lbrace c_rbrace response
               (scan_state_at (ctl_idle 0) start found) i c)
      with (scan_state_at (ctl_idle 0) start found); [apply IH; exact Hs|].
    unfold inert in Hc. apply negb_true_iff in Hc. eqb_cases.
    unfold scan_step, scan_state_at, ctl_idle.
    cbn [sc_escapeNext sc_count sc_start sc_inString sc_found k_count k_inString k_esc].
    rewrite (proj2 (N.eqb_neq _ _) H), (proj2 (N.eqb_neq _ _) H2),
      (proj2 (N.eqb_neq _ _) H1), (proj2 (N.eqb_neq _ _) H0).
    reflexivity.
Qed.

Lemma substring_middle (pre r post : text) :
  substring (pre ++ r ++ post) (length pre) (length pre + length r) = r.
Proof.
  unfold substring.
  rewrite skipn_app, skipn_all, Nat.sub_diag. cbn [skipn app].
  replace (length pre + length r - length pre)%nat with (length r + 0)%nat by lia.
  rewrite firstn_app_2. cbn [firstn]. apply app_nil_r.
Qed.

(** An object text is found as one fragment. *)
Lemma scan_loop_object pre r post start found :
  is_object_text r = true ->
  scan_loop c_lbrace c_rbrace (pre ++ r ++ post)
    (scan_state_at (ctl_idle 0) start found) (length pre) r
  = scan_state_at (ctl_idle 0) None (found ++ [r]).
Proof.
  intro Hr.
  destruct (is_object_text_shape r Hr) as (mid & v & Er & Hv).
  assert (Hin : forall a b, mid = a ++ b ->
            (1 <= k_count (ctl_run (ctl_idle 0) (c_lbrace :: a)))%Z).
  { intros a b E. apply (@object_prefix_inside r (c_lbrace :: a) (b ++ [c_rbrace]) Hr).
    - rewrite Er, E. cbn [app]. rewrite <- app_assoc. reflexivity.
    - discriminate.
    - destruct b; discriminate. }
  assert (Hend : ctl_run (ctl_idle 0) r = ctl_idle 0)
    by (eapply parsed_text_neutral; exact Hv).
  set (response := pre ++ r ++ post).
  rewrite Er at 1.
  change (c_lbrace :: mid ++ [c_rbrace]) with ([c_lbrace] ++ mid ++ [c_rbrace]).
  rewrite !scan_loop_app. cbn [scan_loop length].
  (* the opening brace *)
  assert (E1 : scan_step c_lbrace c_rbrace response
                 (scan_state_at (ctl_idle 0) start found) (length pre) c_lbrace
               = scan_state_at (ctl_step (ctl_idle 0) c_lbrace) (Some (length pre)) found)
    by reflexivity.
  rewrite E1.
  rewrite scan_loop_interior.
  2:{ intros a b E. exact (Hin a b E). }
  (* the closing brace *)
  set (k := ctl_run (ctl_step (ctl_idle 0) c_lbrace) mid).
  assert (Hk : (1 <= k_count k)%Z) by (apply (Hin mid []); symmetry; apply app_nil_r).
  assert (Hlast : ctl_step k c_rbrace = ctl_idle 0).
  { rewrite <- Hend. rewrite Er.
    change (c_lbrace :: mid ++ [c_rbrace]) with ((c_lbrace :: mid) ++ [c_rbrace]).
    rewrite ctl_run_app. reflexivity. }
  unfold scan_step, scan_state_at.
  cbn [sc_escapeNext sc_count sc_start sc_inString sc_found].
  unfold ctl_step in Hlast.
  destruct (k_esc k).
  { apply (f_equal k_count) in Hlast. cbn [k_count ctl_idle] in Hlast. lia. }
  change (c_rbrace =? c_bslash) with false in *.
  change (c_rbrace =? c_quote) with false in *.
  change (c_rbrace =? c_lbrace) with false in *.
  change (c_rbrace =? c_rbrace) with true in *.
  cbv zeta in *. cbv iota in *.
  destruct (k_inString k).
  { apply (f_equal k_inString) in Hlast. discriminate Hlast. }
  apply (f_equal k_count) in Hlast. cbn [k_count ctl_idle] in Hlast.
  rewrite Hlast. cbn [Z.eqb].
  replace (length pre + 1 + length mid + 1)%nat with (length pre + length r)%nat
    by (rewrite Er; cbn [length]; rewrite length_app; cbn [length]; lia).
  unfold response. rewrite substring_middle, Hv. reflexivity.
Qed.

Lemma scan_loop_fragments frs : forall pre tail post start found,
  Forall fragment_ok frs -> forallb inert tail = true ->
  exists start',
    scan_loop c_lbrace c_rbrace (pre ++ fragments_text frs tail ++ post)
      (scan_state_at (ctl_idle 0) start found) (length pre)
      (fragments_text frs tail)
    = scan_state_at (ctl_idle 0) start' (found ++ map snd frs).
Proof.
  induction frs as [|[sep r] frs IH]; intros pre tail post start found Hf Ht.
  - exists start. unfold fragments_text. cbn [map concat app].
    rewrite scan_loop_inert by exact Ht. rewrite app_nil_r. reflexivity.
  - inversion Hf as [|? ? [Hsep Hr] Hf']; subst. cbn [fst snd] in *.
    destruct (IH (pre ++ sep ++ r) tail post None (found ++ [r]) Hf' Ht)
      as [start' E].
    exists start'.
    assert (Et : fragments_text ((sep, r) :: frs) tail
                 = sep ++ r ++ fragments_text frs tail).
    { unfold fragments_text. cbn [map concat fst snd]. rewrite <- !app_assoc. reflexivity. }
    rewrite Et.
    rewrite scan_loop_app, scan_loop_inert by exact Hsep.
    rewrite scan_loop_app.
    replace (pre ++ (sep ++ r ++ fragments_text frs tail) ++ post)
      with ((pre ++ sep) ++ r ++ (fragments_text frs tail ++ post))
      by (rewrite <- !app_assoc; reflexivity).
    replace (length pre + length sep)%nat with (length (pre ++ sep))
      by apply length_app.
    rewrite scan_loop_object by exact Hr.
    replace ((pre ++ sep) ++ r ++ fragments_text frs tail ++ post)
      with ((pre ++ sep ++ r) ++ fragments_text frs tail ++ post)
      by (rewrite <- !app_assoc; reflexivity).
    replace (length (pre ++ sep) + length r)%nat with (length (pre ++ sep ++ r))
      by (rewrite !length_app; lia).
    rewrite E. cbn [map snd]. rewrite <- app_assoc. reflexivity.
Qed.

Lemma extract_fragments frs tail :
  Forall fragment_ok frs -> forallb inert tail = true ->
  extractMultipleJsonObjects (fragments_text frs tail) = map snd frs.
Proof.
  intros Hf Ht. unfold extractMultipleJsonObjects.
  destruct (@scan_loop_fragments frs [] tail [] None [] Hf Ht) as [s E].
  cbn [app length] in E. rewrite app_nil_r in E.
  change scan_init with (scan_state_at (ctl_idle 0) None []).
  rewrite E. reflexivity.
Qed.

(** X2.  On object texts that [JSON.parse] accepts, separated by text
    without brace, double quote or backslash (the commas and brackets
    of an array among them), [extractMultipleJsonObjects] returns
    exactly these object texts, in order. *)
Theorem extractMultipleJsonObjects_finds_every_object
  (frs : list (text * text)) (tail : text) :
  Forall fragment_ok frs -> forallb inert tail = true ->
  extractMultipleJsonObjects (fragments_text frs tail) = map snd frs.
Proof.
  intros Hf Ht. unfold extractMultipleJsonObjects.
  destruct (@scan_loop_fragments frs [] tail [] None [] Hf Ht) as [start E].
  cbn [app length] in E. rewrite app_nil_r in E.
  change scan_init with (scan_state_at (ctl_idle 0) None []).
  rewrite E. reflexivity.
Qed.

Lemma extractMultipleJsonObjects_finds_every_object_witness :
  fragments_text two_records (js "]")
  = js "[{'sessionName':'A','location':'Room1'}, {'sessionName':'B \'x\'','location':'Room2'}]"
  /\ extractMultipleJsonObjects (fragments_text two_records (js "]"))
     = map snd two_records.
Proof.
  split; [reflexivity|].
  apply extractMultipleJsonObjects_finds_every_object.
  - repeat constructor.
  - reflexivity.
Defined.

(** ** The result of [parseAgentResponse] *)

Lemma location_values_app a : forall b la lb,
  location_values a = Ret la -> location_values b = Ret lb ->
  location_values (a ++ b) = Ret (la ++ lb).
Proof.
  induction a as [|x a IH]; intros b la lb Ha Hb; cbn [app location_values] in *.
  - injection Ha as <-. exact Hb.
  - destruct (get_prop x "location") as [[v|]|]; try discriminate;
      destruct (location_values a) as [l|]; try discriminate;
      rewrite (IH b l lb eq_refl Hb); injection Ha as <-;
      [destruct (truthy v)|]; reflexivity.
Qed.

Lemma complete_session_location session slot loc :
  complete_session session = Ret (Some (slot, loc)) ->
  get_prop slot "location" = Ret (Some loc) /\ truthy loc = true.
Proof.
  unfold complete_session.
  destruct (get_prop session "sessionName") as [[name|]|]; try discriminate.
  destruct (get_prop session "location") as [[l|]|]; try discriminate.
  destruct (get_prop session "speakers") as [sp|]; try discriminate.
  destruct (get_prop session "startTime") as [st|]; try discriminate.
  destruct (get_prop session "endTime") as [en|]; try discriminate.
  destruct (get_prop session "format") as [fm|]; try discriminate.
  destruct (get_prop session "focus") as [fo|]; try discriminate.
  destruct (get_prop session "sessionAbstract") as [sa|]; try discriminate.
  destruct (get_prop session "abstract") as [ab|]; try discriminate.
  destruct (truthy name); [|discriminate].
  destruct (truthy l) eqn:Tl; [|discriminate].
  cbn [andb]. intros H; injection H as <- <-. split; [reflexivity|exact Tl].
Qed.

Lemma recover_candidate_location s slot loc :
  recover_candidate s = Some (slot, loc) ->
  get_prop slot "location" = Ret (Some loc) /\ truthy loc = true.
Proof.
  unfold recover_candidate.
  destruct (JSON_parse _) as [session|]; [|discriminate].
  destruct (complete_session session) as [r|] eqn:C; [|discriminate].
  intros ->. exact (complete_session_location _ C).
Qed.

Lemma recover_aggressive_location s slot loc :
  recover_aggressive s = Some (slot, loc) ->
  get_prop slot "location" = Ret (Some loc) /\ truthy loc = true.
Proof.
  unfold recover_aggressive.
  destruct (JSON_parse _) as [session|]; [|discriminate].
  destruct (complete_session session) as [r|] eqn:C; [|discriminate].
  intros ->. exact (complete_session_location _ C).
Qed.

(** The location set grows in step with the recovered slots. *)
Lemma recover_all_locations f :
  (forall s slot loc, f s = Some (slot, loc) ->
     get_prop slot "location" = Ret (Some loc) /\ truthy loc = true) ->
  forall cands sessions locs ls,
    location_values sessions = Ret ls -> locs = fold_left set_add ls [] ->
    exists ls',
      location_values (fst (recover_all f cands sessions locs)) = Ret ls'
      /\ snd (recover_all f cands sessions locs) = fold_left set_add ls' [].
Proof.
  intros Hf. induction cands as [|s r IH]; intros sessions locs ls H1 H2;
    cbn [recover_all].
  - exists ls. split; assumption.
  - destruct (f s) as [[slot loc]|] eqn:E; [|eapply IH; eassumption].
    destruct (Hf _ _ _ E) as [G T].
    apply (IH _ _ (ls ++ [loc])).
    + apply location_values_app; [exact H1|].
      cbn [location_values]. rewrite G, T. reflexivity.
    + rewrite fold_left_app, <- H2. reflexivity.
Qed.

Lemma extractPartialScheduleData_summary dp response :
  exists locs,
    location_values (pd_schedule (extractPartialScheduleData dp response)) = Ret locs
    /\ pd_locations (extractPartialScheduleData dp response) = set_of_list locs
    /\ calculateTimeRange dp (pd_schedule (extractPartialScheduleData dp response))
       = Ret (pd_timeRange (extractPartialScheduleData dp response)).
Proof.
  unfold extractPartialScheduleData.
  destruct (@recover_all_locations recover_candidate recover_candidate_location
              (partial_scan (clean_response response)) [] [] [] eq_refl eq_refl)
    as (l1 & A1 & B1).
  destruct (recover_all recover_candidate _ [] []) as [sessions locs].
  cbn [fst snd] in A1, B1.
  destruct (@recover_all_locations recover_aggressive recover_aggressive_location
              (aggressive_matches (clean_response response)) sessions locs l1 A1 B1)
    as (l2 & A2 & B2).
  assert (E : exists s l ls,
            (if is_nil sessions
             then recover_all recover_aggressive
                    (aggressive_matches (clean_response response)) sessions locs
             else (sessions, locs)) = (s, l)
            /\ location_values s = Ret ls /\ l = fold_left set_add ls []).
  { destruct (is_nil sessions).
    - destruct (recover_all recover_aggressive _ sessions locs) as [s l].
      exists s, l, l2. auto.
    - exists sessions, locs, l1. auto. }
  destruct E as (s & l & ls & -> & A & B).
  destruct (calculateTimeRange dp s) as [tr|] eqn:C; cbn [pd_schedule pd_locations pd_timeRange].
  - exists ls. repeat split; assumption.
  - exists []. repeat split; reflexivity.
Qed.

Lemma extractPartialScheduleData_complete dp response :
  Forall complete_slot (pd_schedule (extractPartialScheduleData dp response)).
Proof.
  eapply Forall_impl; [|apply extractPartialScheduleData_Forall].
  intros slot [C _]. exact C.
Qed.

Lemma partial_result_kind dp content raw a b c :
  b <> EmptyString ->
  result_kind dp raw (partial_result dp content raw a b c).
Proof.
  intro Hb. unfold partial_result.
  destruct (extractPartialScheduleData_summary dp content) as (locs & L & S & T).
  pose proof (extractPartialScheduleData_complete dp content) as F.
  destruct (pd_schedule (extractPartialScheduleData dp content)) as [|x r] eqn:E;
    cbn [is_nil negb].
  - left. split; [reflexivity|].
    repeat split. exists (txt b). split; [reflexivity|].
    destruct b; [congruence|discriminate].
  - right. right. cbn [success isPartial rawResponse].
    repeat split. exists (x :: r). split; [|split; [discriminate|exact F]].
    exists locs, (pd_timeRange (extractPartialScheduleData dp content)).
    cbn [schedule totalSessions locations timeRange error].
    rewrite S. repeat split; assumption.
Qed.

Lemma parsed_success_kind dp raw sched msg p :
  parsed_success dp sched msg = Ret p -> result_kind dp raw p.
Proof.
  unfold parsed_success.
  destruct (location_values sched) as [locs|] eqn:L; [|discriminate].
  destruct (calculateTimeRange dp sched) as [tr|] eqn:T; [|discriminate].
  intros H; injection H as <-. right. left.
  cbn [success isPartial rawResponse]. repeat split.
  exists sched, locs, tr. repeat split; assumption.
Qed.

Lemma failure_kind dp raw e r m :
  e <> [] -> result_kind dp raw (failure e r m).
Proof.
  intro He. left. split; [reflexivity|]. repeat split.
  exists e. split; [reflexivity|exact He].
Qed.

Lemma parse_content_kind dp manual content raw :
  result_kind dp raw (parse_content dp manual content raw).
Proof.
  unfold parse_content.
  destruct (looks_like_json content).
  - destruct (JSON_parse content) as [v|].
    + destruct (parsed_success dp _ _) as [p|] eqn:E.
      * eapply parsed_success_kind, E.
      * destruct manual; apply partial_result_kind; discriminate.
    + destruct manual; apply partial_result_kind; discriminate.
  - destruct manual; apply partial_result_kind; discriminate.
Qed.

Lemma parseAgentResponse_kind dp s :
  result_kind dp s (parseAgentResponse dp s).
Proof.
  assert (M : result_kind dp s (manual_fallback dp s)).
  { unfold manual_fallback. destruct (manual_value_content s);
      [apply parse_content_kind | apply failure_kind; discriminate]. }
  unfold parseAgentResponse.
  destruct (is_nil s); [apply failure_kind; discriminate|].
  destruct (has_wrapper_markers s).
  - destruct (JSON_parse s) as [v|]; [|exact M].
    destruct (get_prop v "type"); [|exact M].
    destruct (get_prop v "value") as [va|]; [|exact M].
    destruct (is_Text a && truthy_opt va); [|apply failure_kind; discriminate].
    destruct va as [[| | | c | |]|]; try exact M.
    apply parse_content_kind.
  - unfold parse_plain.
    destruct (JSON_parse s) as [[| | | | [|first rest] |]|];
      try (apply failure_kind; discriminate);
      try (apply partial_result_kind; discriminate).
    destruct (get_prop first "sessionName") as [name|];
      [|apply partial_result_kind; discriminate].
    destruct (truthy_opt name); [|apply failure_kind; discriminate].
    destruct (parsed_success dp _ _) as [p|] eqn:E.
    + eapply parsed_success_kind, E.
    + apply partial_result_kind; discriminate.
Qed.

Lemma parseAgentResponse_summary dp s :
  success (parseAgentResponse dp s) = true ->
  exists sched, derived_summary dp (parseAgentResponse dp s) sched.
Proof.
  intro H.
  destruct (parseAgentResponse_kind dp s)
    as [[F _]|[(_ & _ & _ & sched & D)|(_ & _ & _ & sched & D & _)]];
    [congruence| |]; exists sched; exact D.
Qed.

(** X3.  In every successful result of [parseAgentResponse] the summary
    fields are computed from the returned schedule: [totalSessions] is
    its length, [locations] the insertion-ordered set of the truthy
    [location] values of its entries, [timeRange] what
    [calculateTimeRange] gives on it; [error] is absent. *)
Theorem parseAgentResponse_success_is_derived
  (Date_parse : JSON -> option Z) (s : text) :
  success (parseAgentResponse Date_parse s) = true ->
  exists sched locs tr,
    schedule (parseAgentResponse Date_parse s) = Some sched
    /\ totalSessions (parseAgentResponse Date_parse s) = Some (length sched)
    /\ location_values sched = Ret locs
    /\ locations (parseAgentResponse Date_parse s) = Some (set_of_list locs)
    /\ calculateTimeRange Date_parse sched = Ret tr
    /\ timeRange (parseAgentResponse Date_parse s) = Some tr
    /\ error (parseAgentResponse Date_parse s) = None.
Proof.
  intro H.
  destruct (parseAgentResponse_summary Date_parse s H) as (sched & locs & tr & D).
  exists sched, locs, tr. exact D.
Qed.

Lemma parseAgentResponse_success_is_derived_witness :
  success (parseAgentResponse no_dates keynote_wrapper) = true
  /\ exists sched locs tr,
      schedule (parseAgentResponse no_dates keynote_wrapper) = Some sched
      /\ totalSessions (parseAgentResponse no_dates keynote_wrapper) = Some (length sched)
      /\ location_values sched = Ret locs
      /\ locations (parseAgentResponse no_dates keynote_wrapper) = Some (set_of_list locs)
      /\ calculateTimeRange no_dates sched = Ret tr
      /\ timeRange (parseAgentResponse no_dates keynote_wrapper) = Some tr
      /\ error (parseAgentResponse no_dates keynote_wrapper) = None.
Proof.
  split; [vm_compute; reflexivity|].
  apply parseAgentResponse_success_is_derived. vm_compute. reflexivity.
Defined.

(** X4.  A failed result of [parseAgentResponse] carries a non-empty
    [error] message and none of [schedule], [totalSessions],
    [locations], [timeRange] and [isPartial]. *)
Theorem parseAgentResponse_failure_is_reported
  (Date_parse : JSON -> option Z) (s : text) :
  success (parseAgentResponse Date_parse s) = false ->
  schedule (parseAgentResponse Date_parse s) = None
  /\ totalSessions (parseAgentResponse Date_parse s) = None
  /\ locations (parseAgentResponse Date_parse s) = None
  /\ timeRange (parseAgentResponse Date_parse s) = None
  /\ isPartial (parseAgentResponse Date_parse s) = None
  /\ exists e, error (parseAgentResponse Date_parse s) = Some e /\ e <> [].
Proof.
  intro H.
  destruct (parseAgentResponse_kind Date_parse s)
    as [[_ F]|[(T & _)|(T & _)]]; [exact F|congruence|congruence].
Qed.

Lemma parseAgentResponse_failure_is_reported_witness :
  success (parseAgentResponse no_dates first_record_truncated) = false
  /\ schedule (parseAgentResponse no_dates first_record_truncated) = None
  /\ totalSessions (parseAgentResponse no_dates first_record_truncated) = None
  /\ locations (parseAgentResponse no_dates first_record_truncated) = None
  /\ timeRange (parseAgentResponse no_dates first_record_truncated) = None
  /\ isPartial (parseAgentResponse no_dates first_record_truncated) = None
  /\ exists e, error (parseAgentResponse no_dates first_record_truncated) = Some e
               /\ e <> [].
Proof.
  split; [vm_compute; reflexivity|].
  apply parseAgentResponse_failure_is_reported. vm_compute. reflexivity.
Defined.

(** X5.  A result marked [isPartial] is a success that keeps the whole
    response as [rawResponse]; its schedule is not empty and holds only
    slots completed by the recovery (truthy [sessionName] and
    [location], every other field present). *)
Theorem parseAgentResponse_partial_result
  (Date_parse : JSON -> option Z) (s : text) :
  isPartial (parseAgentResponse Date_parse s) = Some true ->
  success (parseAgentResponse Date_parse s) = true
  /\ rawResponse (parseAgentResponse Date_parse s) = Some s
  /\ exists sched,
       schedule (parseAgentResponse Date_parse s) = Some sched
       /\ sched <> [] /\ Forall complete_slot sched.
Proof.
  intro H.
  destruct (parseAgentResponse_kind Date_parse s)
    as [[_ (_ & _ & _ & _ & P & _)]|[(_ & P & _)|(T & P & R & sched & D & N & F)]];
    try congruence.
  split; [exact T|]. split; [exact R|].
  exists sched. destruct D as (locs & tr & D & _). auto.
Qed.

Lemma parseAgentResponse_partial_result_witness :
  isPartial (parseAgentResponse no_dates example_truncated) = Some true
  /\ success (parseAgentResponse no_dates example_truncated) = true
  /\ rawResponse (parseAgentResponse no_dates example_truncated) = Some example_truncated
  /\ exists sched,
       schedule (parseAgentResponse no_dates example_truncated) = Some sched
       /\ sched <> [] /\ Forall complete_slot sched.
Proof.
  split; [vm_compute; reflexivity|].
  apply parseAgentResponse_partial_result. vm_compute. reflexivity.
Defined.

(** ** [calculateTimeRange] *)

Lemma range_step_times dp r item r' :
  range_step dp r item = Ret r' ->
  tr_start r' = earlier (valid_time dp "startTime" item) (tr_start r)
  /\ tr_end r' = later (valid_time dp "endTime" item) (tr_end r).
Proof.
  unfold range_step, valid_time.
  destruct (get_prop item "startTime") as [st|]; [|discriminate].
  destruct (get_prop item "endTime") as [en|]; [|discriminate].
  destruct (time_of dp st) as [a|]; [|discriminate].
  destruct (time_of dp en) as [b|]; [|discriminate].
  intros H; injection H as <-. cbn [tr_start tr_end]. split.
  - destruct a as [t|]; [|reflexivity].
    destruct (tr_start r) as [e|]; [|reflexivity].
    cbn [earlier]. destruct (t <? e)%Z eqn:C; f_equal;
      [apply Z.ltb_lt in C|apply Z.ltb_ge in C]; lia.
  - destruct b as [t|]; [|reflexivity].
    destruct (tr_end r) as [e|]; [|reflexivity].
    cbn [later]. destruct (e <? t)%Z eqn:C; f_equal;
      [apply Z.ltb_lt in C|apply Z.ltb_ge in C]; lia.
Qed.

Lemma least_of_cons a ts m : least_of ts m -> least_of (a :: ts) (earlier a m).
Proof.
  intros [L1 L2]. split.
  - intros t [E|I].
    + subst a. destruct m as [y|]; cbn [earlier]; eexists; split;
        try reflexivity; lia.
    + destruct (L1 t I) as (s & -> & Hs).
      destruct a as [x|]; cbn [earlier]; eexists; split; try reflexivity; lia.
  - intros s E. destruct a as [x|], m as [y|]; cbn [earlier] in E.
    + injection E as <-. destruct (Z.min_spec x y) as [[_ ->]|[_ ->]];
        [left; reflexivity|right; apply L2; reflexivity].
    + left. exact E.
    + right. apply L2. exact E.
    + discriminate.
Qed.

Lemma greatest_of_cons a ts m : greatest_of ts m -> greatest_of (a :: ts) (later a m).
Proof.
  intros [L1 L2]. split.
  - intros t [E|I].
    + subst a. destruct m as [y|]; cbn [later]; eexists; split;
        try reflexivity; lia.
    + destruct (L1 t I) as (s & -> & Hs).
      destruct a as [x|]; cbn [later]; eexists; split; try reflexivity; lia.
  - intros s E. destruct a as [x|], m as [y|]; cbn [later] in E.
    + injection E as <-. destruct (Z.max_spec x y) as [[_ ->]|[_ ->]];
        [right; apply L2; reflexivity|left; reflexivity].
    + left. exact E.
    + right. apply L2. exact E.
    + discriminate.
Qed.

Lemma least_of_perm ts ts' m :
  (forall x, In x ts <-> In x ts') -> least_of ts m -> least_of ts' m.
Proof.
  intros P [L1 L2]. split.
  - intros t I. apply L1, P, I.
  - intros s E. apply P, L2, E.
Qed.

Lemma greatest_of_perm ts ts' m :
  (forall x, In x ts <-> In x ts') -> greatest_of ts m -> greatest_of ts' m.
Proof.
  intros P [L1 L2]. split.
  - intros t I. apply L1, P, I.
  - intros s E. apply P, L2, E.
Qed.

Lemma calculateTimeRange_from_times dp sched : forall r ts te tr,
  least_of ts (tr_start r) -> greatest_of te (tr_end r) ->
  calculateTimeRange_from dp r sched = Ret tr ->
  least_of (rev (map (valid_time dp "startTime") sched) ++ ts) (tr_start tr)
  /\ greatest_of (rev (map (valid_time dp "endTime") sched) ++ te) (tr_end tr).
Proof.
  induction sched as [|item rest IH]; intros r ts te tr Hs He H;
    cbn [calculateTimeRange_from map rev app] in *.
  - injection H as <-. split; assumption.
  - destruct (range_step dp r item) as [r'|] eqn:E; [|discriminate].
    destruct (range_step_times _ _ _ E) as [E1 E2].
    rewrite <- !app_assoc. cbn [app].
    apply (IH r'); [| |exact H].
    + rewrite E1. apply least_of_cons, Hs.
    + rewrite E2. apply greatest_of_cons, He.
Qed.

(** X6.  When [calculateTimeRange] returns, [start] is the earliest of
    the start times of the entries and [end] the latest of their end
    times, where an entry has such a time when the property is truthy
    and [new Date] gives a valid date for it; a bound is [null] exactly
    when no entry has such a time. *)
Theorem calculateTimeRange_is_earliest_and_latest
  (Date_parse : JSON -> option Z) (sched : list JSON) (tr : time_range) :
  calculateTimeRange Date_parse sched = Ret tr ->
  least_of (map (valid_time Date_parse "startTime") sched) (tr_start tr)
  /\ greatest_of (map (valid_time Date_parse "endTime") sched) (tr_end tr).
Proof.
  intro H.
  destruct (@calculateTimeRange_from_times Date_parse sched no_range [] [] tr)
    as [A B]; try exact H; try (split; [intros ? []|discriminate]).
  rewrite app_nil_r in A, B. split.
  - eapply least_of_perm; [|exact A]. intro x. symmetry. apply in_rev.
  - eapply greatest_of_perm; [|exact B]. intro x. symmetry. apply in_rev.
Qed.

Lemma calculateTimeRange_is_earliest_and_latest_witness :
  calculateTimeRange dates_of_numbers three_timed_slots
  = Ret {| tr_start := Some 20%Z; tr_end := Some 90%Z |}
  /\ least_of (map (valid_time dates_of_numbers "startTime") three_timed_slots)
       (Some 20%Z)
  /\ greatest_of (map (valid_time dates_of_numbers "endTime") three_timed_slots)
       (Some 90%Z).
Proof.
  split; [vm_compute; reflexivity|].
  apply (@calculateTimeRange_is_earliest_and_latest dates_of_numbers
           three_timed_slots {| tr_start := Some 20%Z; tr_end := Some 90%Z |}).
  vm_compute. reflexivity.
Defined.

Lemma get_prop_throws v k : get_prop v k = Throw <-> v = JNull.
Proof.
  destruct v; cbn [get_prop]; split; intro H; try discriminate; reflexivity.
Qed.

(** An entry on which the callback of [calculateTimeRange] throws: it
    is [null], or one of its two times is truthy and cannot be made
    primitive. *)
Lemma times_convert_false item :
  times_convert item = false
  <-> item = JNull
      \/ exists key v,
           (key = "startTime"%string \/ key = "endTime"%string)
           /\ get_prop item key = Ret (Some v)
           /\ truthy v = true /\ to_primitive v = Throw.
Proof.
  unfold times_convert. split.
  - destruct (get_prop item "startTime") as [st|] eqn:Es;
      [|intros _; left; apply (get_prop_throws item "startTime"), Es].
    destruct (get_prop item "endTime") as [en|] eqn:Ee;
      [|intros _; left; apply (get_prop_throws item "endTime"), Ee].
    intros H. right. apply andb_false_iff in H. destruct H as [H|H].
    + exists "startTime"%string. unfold time_converts in H.
      destruct st as [v|]; [|discriminate].
      destruct (truthy v) eqn:T; [|discriminate].
      destruct (to_primitive v) eqn:P; [discriminate|].
      exists v. auto.
    + exists "endTime"%string. unfold time_converts in H.
      destruct en as [v|]; [|discriminate].
      destruct (truthy v) eqn:T; [|discriminate].
      destruct (to_primitive v) eqn:P; [discriminate|].
      exists v. auto.
  - intros [->|(key & v & K & G & T & P)]; [reflexivity|].
    destruct (get_prop item "startTime") as [st|] eqn:Es; [|reflexivity].
    destruct (get_prop item "endTime") as [en|] eqn:Ee; [|reflexivity].
    apply andb_false_iff. destruct K as [-> | ->].
    + left. rewrite G in Es. injection Es as <-.
      unfold time_converts. rewrite T, P. reflexivity.
    + right. rewrite G in Ee. injection Ee as <-.
      unfold time_converts. rewrite T, P. reflexivity.
Qed.

Lemma range_step_throws dp r item :
  range_step dp r item = Throw <-> times_convert item = false.
Proof.
  pose proof (range_step_converts dp r item) as H.
  destruct (range_step dp r item) as [r'|];
    destruct (times_convert item); split; intro E;
    try reflexivity; try discriminate.
  - assert (X : false = true) by (apply H; eauto). discriminate.
  - destruct (proj1 H eq_refl) as [? X]. discriminate.
Qed.

Lemma calculateTimeRange_from_throws dp sched : forall r,
  calculateTimeRange_from dp r sched = Throw
  <-> exists item, In item sched /\ times_convert item = false.
Proof.
  induction sched as [|item rest IH]; intro r; cbn [calculateTimeRange_from In].
  - split; [discriminate|intros [? [F _]]; destruct F].
  - destruct (range_step dp r item) as [r'|] eqn:E.
    + rewrite IH. split.
      * intros [x [I T]]. exists x. auto.
      * intros [x [[<-|I] T]]; [|exists x; auto].
        apply (proj2 (range_step_throws dp r item)) in T. congruence.
    + split; [|reflexivity]. intros _. exists item. split; [left; reflexivity|].
      apply (proj1 (range_step_throws dp r item)), E.
Qed.

(** X7.  [calculateTimeRange] throws exactly on a schedule that has an
    entry which is [null], or whose [startTime] or [endTime] is truthy
    and cannot be made primitive by [new Date] (an object with a
    [toString] property of its own, or an array that holds one); on
    every other schedule it returns a range. *)
Theorem calculateTimeRange_throws_exactly_on_bad_entry
  (Date_parse : JSON -> option Z) (sched : list JSON) :
  calculateTimeRange Date_parse sched = Throw
  <-> exists item,
        In item sched
        /\ (item = JNull
            \/ exists key v,
                 (key = "startTime"%string \/ key = "endTime"%string)
                 /\ get_prop item key = Ret (Some v)
                 /\ truthy v = true /\ to_primitive v = Throw).
Proof.
  unfold calculateTimeRange.
  rewrite (calculateTimeRange_from_throws Date_parse sched no_range).
  split; intros [item [I H]]; exists item; split; try exact I;
    apply times_convert_false; exact H.
Qed.

(** ** Invariants of the polling client *)

Section PollingInvariants.
Import Polling.
Open Scope Q_scope.

Lemma poll_answer_in_range r c :
  progress_in_range c -> progress_in_range (poll_answer r c).
Proof.
  intros [[H0 H1] H2]. unfold poll_answer, progress_in_range.
  destruct (text_eqb (status r) (txt "Pending")).
  { cbn [with_progress asyncProgress completions failures].
    split; [split; lra|intros _; lra]. }
  destruct (text_eqb (status r) (txt "Processing")).
  { cbn [with_progress asyncProgress completions failures].
    assert (B : Qmin (asyncProgress c + 15) 85 <= 85) by apply Q.le_min_r.
    assert (A : 0 <= Qmin (asyncProgress c + 15) 85) by (apply Q.min_glb; lra).
    split; [split; lra|intros _; lra]. }
  destruct (text_eqb (status r) (txt "Completed")).
  { cbn [handleAsyncAgentCompletion with_progress asyncProgress completions failures].
    split; [split; lra|intro H; exfalso; lia]. }
  destruct (text_eqb (status r) (txt "Failed")).
  { cbn [handleAsyncAgentFailure with_progress asyncProgress completions failures].
    split; [split; lra|intro H; exfalso; lia]. }
  cbn [with_progress asyncProgress completions failures]. auto.
Qed.

Lemma progress_fire_in_range x c :
  0 <= x /\ x < 1 ->
  progress_in_range c -> progress_in_range (progress_fire x c).
Proof.
  intros [X0 X1] [[H0 H1] H2]. unfold progress_fire, progress_in_range.
  destruct (negb (asyncSessionId c) || _ || _).
  { cbn [asyncProgress completions failures]. auto. }
  destruct (text_eqb (asyncStatus c) (txt "Processing")); cbn [andb]; [|auto].
  destruct (Qle_bool 85 (asyncProgress c)) eqn:E; cbn [negb]; [auto|].
  assert (L : asyncProgress c < 85).
  { apply Qnot_le_lt. intro A. apply Qle_bool_iff in A. congruence. }
  cbn [with_progress asyncProgress completions failures].
  split; [split; lra|intros _; lra].
Qed.

Lemma step_in_range c e :
  unit_random e -> progress_in_range c -> progress_in_range (step c e).
Proof.
  intros U I. destruct e as [|r|x]; cbn [step].
  - destruct (pollInterval c); [|exact I].
    unfold poll_fire. destruct (negb (asyncSessionId c)); exact I.
  - destruct (inflight c); [exact I|]. apply poll_answer_in_range. exact I.
  - destruct (progressInterval c); [|exact I].
    apply progress_fire_in_range; assumption.
Qed.

Lemma run_in_range es : forall c,
  Forall unit_random es -> progress_in_range c -> progress_in_range (run c es).
Proof.
  induction es as [|e es IH]; intros c U I; [exact I|].
  inversion U; subst. unfold run in *. cbn [fold_left].
  apply IH; [assumption|]. apply step_in_range; assumption.
Qed.

(** X8.  Whatever the timers and the status answers do after
    monitoring has started, the progress estimate stays between 0 and
    100, and it stays under 90 until a "Completed" or "Failed" answer
    has been handled. *)
Theorem progress_estimate_stays_in_range (es : list event) :
  Forall unit_random es ->
  0 <= asyncProgress (run monitoring es)
  /\ asyncProgress (run monitoring es) <= 100
  /\ ((completions (run monitoring es) + failures (run monitoring es) = 0)%nat ->
      asyncProgress (run monitoring es) < 90).
Proof.
  intro U.
  destruct (@run_in_range es monitoring U) as [[A B] C].
  - unfold progress_in_range, monitoring; cbn [asyncProgress completions failures].
    split; [split; lra|intros _; lra].
  - auto.
Qed.

Lemma progress_estimate_stays_in_range_witness :
  0 <= asyncProgress (run monitoring three_periods)
  /\ asyncProgress (run monitoring three_periods) <= 100
  /\ ((completions (run monitoring three_periods)
       + failures (run monitoring three_periods) = 0)%nat ->
      asyncProgress (run monitoring three_periods) < 90).
Proof.
  apply progress_estimate_stays_in_range.
  unfold three_periods, period, answer. cbn [repeat app].
  repeat (constructor; [cbn [unit_random]; try exact I; split; lra|]).
  constructor.
Defined.

Lemma poll_answer_closes r c :
  inflight c = 0%nat ->
  status r = txt "Completed" \/ status r = txt "Failed" ->
  session_closed (poll_answer r c)
  /\ (completions (poll_answer r c) + failures (poll_answer r c)
      = S (completions c + failures c))%nat.
Proof.
  intros F [H|H]; unfold poll_answer, session_closed; rewrite H.
  - change (text_eqb (txt "Completed") (txt "Pending")) with false.
    change (text_eqb (txt "Completed") (txt "Processing")) with false.
    change (text_eqb (txt "Completed") (txt "Completed")) with true.
    cbv iota.
    cbn [handleAsyncAgentCompletion with_progress asyncProgress completions
         failures pollInterval inflight asyncStatus].
    repeat split; auto.
    destruct (negb (is_nil (agentResponse r)) && _); reflexivity.
  - change (text_eqb (txt "Failed") (txt "Pending")) with false.
    change (text_eqb (txt "Failed") (txt "Processing")) with false.
    change (text_eqb (txt "Failed") (txt "Completed")) with false.
    change (text_eqb (txt "Failed") (txt "Failed")) with true.
    cbv iota.
    cbn [handleAsyncAgentFailure with_progress asyncProgress completions
         failures pollInterval inflight asyncStatus].
    repeat split; auto.
Qed.

Lemma step_closed c e :
  session_closed c ->
  session_closed (step c e)
  /\ completions (step c e) = completions c
  /\ failures (step c e) = failures c.
Proof.
  intros (P & F & S & G). destruct e as [|r|x]; cbn [step].
  - rewrite P. repeat split; auto.
  - rewrite F. repeat split; auto.
  - destruct (progressInterval c); [|repeat split; auto].
    unfold progress_fire.
    replace (negb (asyncSessionId c) || text_eqb (asyncStatus c) (txt "Completed")
             || text_eqb (asyncStatus c) (txt "Failed"))%bool with true.
    + unfold session_closed. cbn [pollInterval inflight asyncStatus asyncProgress
                                   completions failures].
      repeat split; auto.
    + destruct S as [-> | ->]; destruct (asyncSessionId c); reflexivity.
Qed.

Lemma run_closed es : forall c,
  session_closed c ->
  session_closed (run c es)
  /\ completions (run c es) = completions c
  /\ failures (run c es) = failures c.
Proof.
  induction es as [|e es IH]; intros c H;
    [split; [exact H|split; reflexivity]|].
  unfold run in *. cbn [fold_left].
  destruct (step_closed e H) as (H' & C & F).
  destruct (IH _ H') as (H'' & C' & F').
  split; [exact H''|split; congruence].
Qed.

(** X9.  When the only status request in flight is answered
    "Completed" or "Failed", exactly one of the two handlers runs, and
    whatever the timers do afterwards no further request is sent, no
    handler runs again and the progress stays at 100. *)
Theorem terminal_answer_is_handled_once
  (c : component) (r : status_response) (es : list event) :
  inflight c = 1%nat ->
  status r = txt "Completed" \/ status r = txt "Failed" ->
  let c' := step c (PollAnswer r) in
  (completions c' + failures c' = S (completions c + failures c))%nat
  /\ completions (run c' es) = completions c'
  /\ failures (run c' es) = failures c'
  /\ inflight (run c' es) = 0%nat
  /\ pollInterval (run c' es) = false
  /\ asyncProgress (run c' es) = 100.
Proof.
  intros F T c'.
  assert (H : session_closed c'
              /\ (completions c' + failures c' = S (completions c + failures c))%nat).
  { unfold c'. cbn [step]. rewrite F.
    match goal with
    | |- context [poll_answer r ?c0] =>
        destruct (@poll_answer_closes r c0 eq_refl T) as [A B]
    end.
    split; [exact A|exact B]. }
  destruct H as [H N].
  destruct (run_closed es H) as ((P & I & _ & G) & C & E).
  repeat split; assumption.
Qed.

Lemma terminal_answer_is_handled_once_witness :
  let c := run monitoring period in
  let c' := step c (answer "Completed") in
  inflight c = 1%nat
  /\ (completions c' + failures c' = S (completions c + failures c))%nat
  /\ completions (run c' three_periods) = completions c'
  /\ failures (run c' three_periods) = failures c'
  /\ inflight (run c' three_periods) = 0%nat
  /\ pollInterval (run c' three_periods) = false
  /\ asyncProgress (run c' three_periods) = 100.
Proof.
  intros c c'.
  assert (F : inflight c = 1%nat) by reflexivity.
  split; [exact F|].
  apply (@terminal_answer_is_handled_once c
           {| status := txt "Completed"; agentResponse := [] |} three_periods F).
  left. reflexivity.
Defined.

End PollingInvariants.

(** ** The cleaned response *)

(** X10.  [clean_response], the prologue of [combineMultipleResponses]
    and of [extractPartialScheduleData], keeps one contiguous part of
    the text: what it cuts in front holds no opening brace, opening
    bracket or double quote, what it cuts at the end holds no closing
    brace, closing bracket or double quote, and what it keeps is empty
    or starts with one of the former and ends with one of the latter.
    Cleaning a cleaned text changes nothing. *)
Theorem clean_response_keeps_the_json_part (s : text) :
  (exists pre post,
     s = pre ++ clean_response s ++ post
     /\ forallb (fun c => negb (is_json_starter c)) pre = true
     /\ forallb (fun c => negb (is_json_ender c)) post = true)
  /\ (clean_response s = []
      \/ exists x mid y,
           (clean_response s = x :: mid ++ [y]
            \/ (clean_response s = [x] /\ y = x))
           /\ is_json_starter x = true /\ is_json_ender y = true)
  /\ clean_response (clean_response s) = clean_response s.
Proof.
  split; [|split; [apply clean_response_shape|apply clean_response_idempotent]].
  unfold clean_response, trim.
  set (notS := fun c => negb (is_json_starter c)).
  set (notE := fun c => negb (is_json_ender c)).
  destruct (dropWhile_suffix is_space s) as (p1 & E1 & F1).
  destruct (dropWhileEnd_prefix is_space (dropWhile is_space s)) as (t1 & E2 & G1).
  set (T := dropWhileEnd is_space (dropWhile is_space s)) in *.
  destruct (dropWhile_suffix notS T) as (p2 & E3 & F2).
  destruct (dropWhileEnd_prefix notE (dropWhile notS T)) as (t2 & E4 & G2).
  set (C := dropWhileEnd notE (dropWhile notS T)) in *.
  exists (p1 ++ p2), (t2 ++ t1). split; [|split].
  - rewrite E1 at 1. rewrite E2 at 1. rewrite E3 at 1. rewrite E4 at 1.
    rewrite <- !app_assoc. reflexivity.
  - rewrite forallb_app, F2, andb_true_r.
    rewrite forallb_forall in *. intros c Hc. specialize (F1 c Hc).
    unfold notS. destruct (is_json_starter c) eqn:S; [|reflexivity].
    apply starter_not_space in S. congruence.
  - rewrite forallb_app, G2. cbn [andb].
    rewrite forallb_forall in *. intros c Hc. specialize (G1 c Hc).
    unfold notE. destruct (is_json_ender c) eqn:S; [|reflexivity].
    apply ender_not_space in S. congruence.
Qed.

(** ** The candidates of the brace-matching loop *)

Lemma partial_step_inv st c : partial_inv st -> partial_inv (partial_step st c).
Proof.
  intros (H0 & H1 & Hf). unfold partial_step.
  destruct (ps_escapeNext st); [repeat split; assumption|].
  destruct (c =? c_bslash); [repeat split; assumption|].
  assert (Keep : forall (b : bool),
            partial_inv
              {| ps_sessionObjects := ps_sessionObjects st;
                 ps_currentObject :=
                   if (0 <? ps_braceCount st)%Z
                   then ps_currentObject st ++ [c] else ps_currentObject st;
                 ps_braceCount := ps_braceCount st;
                 ps_inString := b; ps_escapeNext := false |}).
  { intro b. unfold partial_inv. cbn [ps_sessionObjects ps_currentObject ps_braceCount].
    destruct (0 <? ps_braceCount st)%Z eqn:P;
      [apply Z.ltb_lt in P|apply Z.ltb_ge in P].
    - split; [lia|]. split; [|exact Hf]. intros _.
      destruct (H1 P) as [m ->]. exists (m ++ [c]). reflexivity.
    - split; [auto|]. split; [lia|exact Hf]. }
  destruct (if c =? c_quote then negb (ps_inString st) else ps_inString st);
    [apply Keep|].
  destruct (c =? c_lbrace) eqn:Eo.
  { apply N.eqb_eq in Eo. subst c. unfold partial_inv.
    cbn [ps_sessionObjects ps_currentObject ps_braceCount].
    destruct (ps_braceCount st =? 0)%Z eqn:Z0;
      [apply Z.eqb_eq in Z0|apply Z.eqb_neq in Z0];
      destruct (0 <? ps_braceCount st + 1)%Z eqn:P;
      try apply Z.ltb_lt in P; try apply Z.ltb_ge in P; try lia.
    - split; [lia|]. split; [|exact Hf]. intros _. exists []. reflexivity.
    - split; [lia|]. split; [|exact Hf]. intros _.
      destruct H1 as [m ->]; [lia|]. exists (m ++ [c_lbrace]). reflexivity.
    - split; [intros _; apply H0; lia|]. split; [lia|exact Hf]. }
  destruct (c =? c_rbrace) eqn:Ec; [|apply Keep].
  apply N.eqb_eq in Ec. subst c. cbv zeta.
  destruct (ps_braceCount st - 1 =? 0)%Z eqn:Z0;
    [apply Z.eqb_eq in Z0|apply Z.eqb_neq in Z0].
  - unfold partial_inv. cbn [ps_sessionObjects ps_currentObject ps_braceCount].
    rewrite Z0. cbn [Z.ltb Z.compare].
    split; [reflexivity|]. split; [lia|].
    destruct H1 as [m Em]; [lia|]. rewrite Em.
    change ((c_lbrace :: m) ++ [c_rbrace]) with (c_lbrace :: m ++ [c_rbrace]).
    rewrite trim_fix by reflexivity. cbn [is_nil].
    apply Forall_app. split; [exact Hf|]. constructor; [|constructor].
    exists m. reflexivity.
  - unfold partial_inv. cbn [ps_sessionObjects ps_currentObject ps_braceCount].
    destruct (0 <? ps_braceCount st - 1)%Z eqn:P;
      [apply Z.ltb_lt in P|apply Z.ltb_ge in P].
    + split; [lia|]. split; [|exact Hf]. intros _.
      destruct H1 as [m ->]; [lia|]. exists (m ++ [c_rbrace]). reflexivity.
    + split; [intros _; apply H0; lia|]. split; [lia|exact Hf].
Qed.

Lemma partial_run_inv s : forall st,
  partial_inv st -> partial_inv (fold_left partial_step s st).
Proof.
  induction s as [|c s IH]; intros st H; [exact H|].
  cbn [fold_left]. apply IH, partial_step_inv, H.
Qed.

(** X11.  Every candidate that the brace-matching loop of
    [extractPartialScheduleData] hands to the repair step runs from an
    opening brace to a closing brace. *)
Theorem partial_scan_candidates_are_braced (s : text) :
  Forall (fun cand => exists mid, cand = c_lbrace :: mid ++ [c_rbrace])
    (partial_scan s).
Proof.
  apply (@partial_run_inv s partial_init).
  unfold partial_inv, partial_init.
  cbn [ps_braceCount ps_currentObject ps_sessionObjects].
  split; [reflexivity|]. split; [lia|constructor].
Qed.

(** ** Recovery on an array that is not cut inside a record *)

Lemma partial_scan_complete pieces t :
  Forall piece_ok pieces -> forallb inert t = true ->
  partial_scan (truncated_array pieces t) = map p_text pieces.
Proof.
  intros F I. unfold partial_scan, truncated_array.
  cbn [fold_left].
  change (partial_step partial_init c_lbrack) with (scan_state_of [] [] (ctl_idle 0)).
  rewrite fold_left_app, scan_pieces by exact F.
  rewrite scan_inert by exact I. reflexivity.
Qed.

(** X12.  On an opening bracket followed by one or more complete
    well-formed records (object texts without backslash escape and
    without a comma-space-brace sequence, with a truthy [sessionName]
    and [location] and with times that [new Date] accepts) and by text
    that holds no brace, double quote or backslash (the closing
    bracket, or nothing when the payload was cut between two records),
    [extractPartialScheduleData] returns every record, normalised with
    the defaults, and the set of their locations. *)
Theorem recovery_returns_every_complete_record
  (Date_parse : JSON -> option Z) (pieces : list piece) (tail : text) :
  pieces <> [] ->
  Forall piece_ok pieces ->
  forallb inert tail = true ->
  pd_schedule (extractPartialScheduleData Date_parse (truncated_array pieces tail))
  = map p_slot pieces
  /\ pd_locations (extractPartialScheduleData Date_parse (truncated_array pieces tail))
     = set_of_list (map p_loc pieces).
Proof.
  intros N F I.
  destruct (@calculateTimeRange_converts Date_parse (map p_slot pieces) no_range)
    as [tr Htr].
  { apply Forall_map. revert F. apply Forall_impl. apply piece_times_convert. }
  unfold extractPartialScheduleData.
  destruct (clean_truncated_array tail N F) as (t & rest & -> & E).
  assert (It : forallb inert t = true).
  { rewrite E, forallb_app in I. apply andb_true_iff in I. apply I. }
  rewrite (@partial_scan_complete pieces t F It).
  rewrite recover_all_pieces by exact F. cbn [app].
  destruct pieces as [|pc r]; [congruence|].
  cbn [map is_nil] in *. fold (calculateTimeRange Date_parse) in Htr.
  unfold calculateTimeRange. rewrite Htr. split; reflexivity.
Qed.

Lemma recovery_returns_every_complete_record_witness :
  truncated_array [example_piece] (js "] and more")
  = js "[{'sessionName':'A','location':'Room1'}] and more"
  /\ pd_schedule (extractPartialScheduleData no_dates
                   (truncated_array [example_piece] (js "] and more")))
     = [slot_A]
  /\ pd_locations (extractPartialScheduleData no_dates
                    (truncated_array [example_piece] (js "] and more")))
     = [JStr (txt "Room1")].
Proof.
  split; [reflexivity|].
  apply (@recovery_returns_every_complete_record no_dates [example_piece]
           (js "] and more")).
  - discriminate.
  - constructor; [|constructor]. repeat split; vm_compute; reflexivity.
  - reflexivity.
Defined.

(** ** [mergeScheduleData] on objects *)

Lemma merge_one_items m o m' :
  merge_one m (JObj o) = Ret m' ->
  mg_schedule m' = mg_schedule m ++ fragment_items o
  /\ mg_sessions m' = mg_sessions m ++ fragment_items o
  /\ mg_locations m' = fold_left set_add (fragment_locations o) (mg_locations m).
Proof.
  unfold merge_one, get_prop, fragment_items, fragment_locations.
  set (items := or_else _ (JArr [])).
  assert (A : forall x : merged,
            mg_schedule (if is_array items
                         then {| mg_schedule := mg_schedule m ++ array_items items;
                                 mg_sessions := mg_sessions m ++ array_items items;
                                 mg_totalSessions := mg_totalSessions m;
                                 mg_locations := mg_locations m |}
                         else m) = mg_schedule m ++ array_items items
            /\ mg_sessions (if is_array items
                         then {| mg_schedule := mg_schedule m ++ array_items items;
                                 mg_sessions := mg_sessions m ++ array_items items;
                                 mg_totalSessions := mg_totalSessions m;
                                 mg_locations := mg_locations m |}
                         else m) = mg_sessions m ++ array_items items
            /\ mg_locations (if is_array items
                         then {| mg_schedule := mg_schedule m ++ array_items items;
                                 mg_sessions := mg_sessions m ++ array_items items;
                                 mg_totalSessions := mg_totalSessions m;
                                 mg_locations := mg_locations m |}
                         else m) = mg_locations m).
  { intros _. destruct items; cbn [is_array array_items mg_schedule mg_sessions mg_locations];
      rewrite ?app_nil_r; repeat split; reflexivity. }
  destruct (A m) as (A1 & A2 & A3).
  destruct (obj_get (txt "totalSessions") o) as [t|]; [destruct (truthy t)|];
    destruct (obj_get (txt "locations") o) as [[]|];
    cbn [mg_schedule mg_sessions mg_locations mg_totalSessions fold_left];
    try destruct (js_add _ t); intros H; try discriminate; injection H as <-;
    cbn [mg_schedule mg_sessions mg_locations fold_left];
    rewrite ?A1, ?A2, ?A3; repeat split; reflexivity.
Qed.

Lemma merge_all_items objs : forall m m',
  merge_all m (map JObj objs) = Ret m' ->
  mg_schedule m' = mg_schedule m ++ concat (map fragment_items objs)
  /\ mg_sessions m' = mg_sessions m ++ concat (map fragment_items objs)
  /\ mg_locations m'
     = fold_left set_add (concat (map fragment_locations objs)) (mg_locations m).
Proof.
  induction objs as [|o r IH]; intros m m' H.
  - injection H as <-. cbn. rewrite !app_nil_r. repeat split; reflexivity.
  - cbn [map merge_all concat] in *.
    destruct (merge_one m (JObj o)) as [m1|] eqn:E1; [|discriminate].
    destruct (merge_one_items _ _ E1) as (S1 & T1 & L1).
    destruct (IH m1 m' H) as (S & T & L).
    rewrite S, T, L, S1, T1, L1.
    rewrite fold_left_app, !app_assoc. repeat split; reflexivity.
Qed.

(** X13.  On parsed objects, when none of the additions to
    [totalSessions] throws, [mergeScheduleData] returns an object whose
    [schedule] is the concatenation, in the order of the fragments, of
    the arrays found under [schedule], else [sessions], else
    [proposedSchedule]; [sessions] is the same array, and [locations]
    is the insertion-ordered set of the [locations] of the fragments.
    When an addition throws, the [catch] returns the first fragment
    unchanged. *)
Theorem mergeScheduleData_concatenates (objs : list (list (text * JSON))) :
  match reported_total objs with
  | Ret _ =>
      exists total,
        mergeScheduleData (map JObj objs)
        = JObj [(txt "schedule", JArr (concat (map fragment_items objs)));
                (txt "sessions", JArr (concat (map fragment_items objs)));
                (txt "totalSessions", total);
                (txt "locations",
                 JArr (set_of_list (concat (map fragment_locations objs))));
                (txt "timeRange", null_range)]
  | Throw =>
      mergeScheduleData (map JObj objs)
      = or_else (hd_error (map JObj objs)) (JObj [])
  end.
Proof.
  pose proof (merge_all_objects objs merged_init) as H.
  unfold reported_total. cbn [merged_init mg_totalSessions] in H.
  destruct (fold_left merge_report objs _) as [t|].
  - destruct H as [m [E _]].
    destruct (merge_all_items _ _ E) as (S & T & L).
    unfold mergeScheduleData. rewrite E. unfold merged_json, merge_finish.
    cbn [mg_schedule mg_sessions mg_totalSessions mg_locations].
    rewrite S, T, L. cbn [merged_init mg_schedule mg_sessions mg_locations app].
    eexists. reflexivity.
  - unfold mergeScheduleData. rewrite H. reflexivity.
Qed.

(** ** [handleAgentResponse] and the getters *)

Lemma location_values_no_null sched : forall locs,
  location_values sched = Ret locs -> ~ In JNull sched.
Proof.
  induction sched as [|s r IH]; intros locs H; [intros []|].
  cbn [location_values] in H.
  destruct (get_prop s "location") as [v|] eqn:G; [|discriminate].
  destruct (location_values r) as [l|]; [|destruct v; discriminate].
  intros [E|I]; [subst s; discriminate|exact (IH l eq_refl I)].
Qed.

Section DisplayRows.

Variable Date_parse : JSON -> option Z.
Variables formatSessionDate formatSessionTime : Z -> text.

Lemma format_sessions_length sched : forall rows,
  format_sessions Date_parse formatSessionDate formatSessionTime sched = Ret rows ->
  length rows = length sched.
Proof.
  induction sched as [|s r IH]; intros rows H; cbn [format_sessions] in H.
  - injection H as <-. reflexivity.
  - destruct (format_session _ _ _ s) as [x|]; [|discriminate].
    destruct (format_sessions _ _ _ r) as [l|]; [|discriminate].
    injection H as <-. cbn [length]. rewrite (IH l eq_refl). reflexivity.
Qed.

Lemma text_or_not_empty a b : b <> [] -> text_or a b <> [].
Proof.
  intro B. unfold text_or. destruct a as [[|c s]|]; cbn [is_nil];
    [exact B|discriminate|exact B].
Qed.

(** X14.  The [proposedSchedule] that [handleAgentResponse] leaves
    has [totalSessions] equal to the length of [schedule].  The table
    getter [formattedScheduleForDisplay] then either returns one row
    for each session of a successful schedule (no row otherwise), or
    throws while it formats the speakers of a session; in that case
    the schedule is a successful one and [handleAgentResponse] has
    itself ended by that exception, raised in [logScheduleDebugInfo]
    after [proposedSchedule] and [showResults] were assigned. *)
Theorem handleAgentResponse_leaves_consistent_schedule (response : agent_reply) :
  let h := handleAgentResponse Date_parse formatSessionDate formatSessionTime response in
  sh_totalSessions (proposedSchedule h) = length (sh_schedule (proposedSchedule h))
  /\ match formattedScheduleForDisplay Date_parse formatSessionDate formatSessionTime
            (Some (proposedSchedule h)) with
     | Ret rows =>
         length rows
         = if sh_success (proposedSchedule h)
           then sh_totalSessions (proposedSchedule h) else 0%nat
     | Throw =>
         thrown h = true /\ sh_success (proposedSchedule h) = true
         /\ showResults h = true
     end.
Proof.
  unfold handleAgentResponse.
  destruct (ar_success response).
  2:{ cbn. split; reflexivity. }
  destruct (if ar_isChunked response && truthy_opt (ar_chunks response)
            then reconstructChunkedResponse (ar_chunks response)
            else Ret (ar_agentResponse response)) as [joined|].
  2:{ cbn. split; reflexivity. }
  cbv zeta.
  set (agentResponse := combineMultipleResponses joined).
  destruct (success (parseAgentResponse Date_parse agentResponse)) eqn:S.
  2:{ cbn. split; reflexivity. }
  destruct (parseAgentResponse_summary Date_parse agentResponse S)
    as (sched & locs & tr & E1 & E2 & L & _).
  rewrite E1, E2.
  cbn [proposedSchedule thrown showResults sh_totalSessions sh_schedule sh_success].
  split; [reflexivity|].
  unfold logScheduleDebugInfo, formattedScheduleForDisplay.
  cbn [sh_success sh_schedule negb].
  destruct sched as [|x r]; cbn [is_nil]; [reflexivity|].
  destruct (format_sessions _ _ _ (x :: r)) as [rows|] eqn:F.
  - apply format_sessions_length in F. exact F.
  - destruct x; repeat split; reflexivity.
Qed.

(** A speaker whose [fullName] is an object with a [toString] property
    of its own cannot be joined: the getter throws, and so does
    [handleAgentResponse]. *)
Example unprintable_speaker_throws :
  thrown
    (handleAgentResponse Date_parse formatSessionDate formatSessionTime
       (plain_reply
          (js "[{'sessionName':'A','location':'R','speakers':[{'fullName':{'toString':1}}]}]")))
  = true.
Proof. vm_compute. reflexivity. Qed.

End DisplayRows.

(** X15.  The getters on [proposedSchedule] agree:
    [scheduleErrorMessage] is [null] exactly when [hasScheduleError]
    is false, and [hasNoScheduleData] implies [hasScheduleError]. *)
Theorem schedule_getters_agree (ps : option shown) :
  (scheduleErrorMessage ps = None <-> hasScheduleError ps = false)
  /\ (hasNoScheduleData ps = true -> hasScheduleError ps = true).
Proof.
  destruct ps as [p|]; cbn [scheduleErrorMessage hasScheduleError hasNoScheduleData].
  2:{ repeat split; try discriminate; auto. }
  destruct (sh_success p), (sh_schedule p) as [|x r], (sh_error p) as [[|c e]|];
    cbn [negb is_nil orb andb text_or];
    repeat split; try discriminate; try reflexivity; auto;
    try (destruct (sh_message p); discriminate).
Qed.

Section Outcome.

Variable Date_parse : JSON -> option Z.
Variables formatSessionDate formatSessionTime : Z -> text.

(** X16.  When [chunks.join] throws in [reconstructChunkedResponse],
    [handleAgentResponse] ends by that exception and leaves the
    default [proposedSchedule], which is not successful and carries no
    [error]; no [errorMessage] is assigned.  In every other case: a
    successful [proposedSchedule] has no [error] and no [errorMessage]
    is assigned; a failed one has an empty schedule and a non-empty
    [error], which is what [scheduleErrorMessage] and [noDataMessage]
    return, and a non-empty [errorMessage] is assigned. *)
Theorem handleAgentResponse_reports_outcome (response : agent_reply) :
  let h := handleAgentResponse Date_parse formatSessionDate formatSessionTime response in
  let ps := proposedSchedule h in
  if ar_success response && ar_isChunked response
     && match reconstructChunkedResponse (ar_chunks response) with
        | Throw => true
        | Ret _ => false
        end
  then ps = default_schedule /\ errorMessage h = None
       /\ showResults h = false /\ thrown h = true
  else
  if sh_success ps
  then sh_error ps = None /\ errorMessage h = None /\ showResults h = true
       /\ hasScheduleError (Some ps) = hasNoScheduleData (Some ps)
  else sh_schedule ps = []
       /\ (exists e, e <> [] /\ sh_error ps = Some e
                     /\ scheduleErrorMessage (Some ps) = Some e
                     /\ noDataMessage (Some ps) = e)
       /\ (exists m, m <> [] /\ errorMessage h = Some m).
Proof.
  assert (T : forall (e : text) (p : shown),
            e <> [] -> sh_success p = false -> sh_error p = Some e ->
            scheduleErrorMessage (Some p) = Some e /\ noDataMessage (Some p) = e).
  { intros [|c e] p H S E; [congruence|].
    unfold scheduleErrorMessage, noDataMessage. rewrite S, E. split; reflexivity. }
  unfold handleAgentResponse.
  destruct (ar_success response); cbn [andb].
  2:{ cbn [proposedSchedule sh_success sh_schedule sh_error errorMessage].
      split; [reflexivity|]. split.
      - exists (text_or (ar_error response) (txt "Unknown error")).
        assert (N : text_or (ar_error response) (txt "Unknown error") <> [])
          by (apply text_or_not_empty; discriminate).
        split; [exact N|]. split; [reflexivity|].
        apply T; [exact N|reflexivity|reflexivity].
      - eexists. split; [|reflexivity]. apply text_or_not_empty. discriminate. }
  assert (J : exists joined,
            (if ar_isChunked response
                && match reconstructChunkedResponse (ar_chunks response) with
                   | Throw => true
                   | Ret _ => false
                   end
             then Throw else Ret joined)
            = (if ar_isChunked response && truthy_opt (ar_chunks response)
               then reconstructChunkedResponse (ar_chunks response)
               else Ret (ar_agentResponse response))).
  { destruct (ar_isChunked response); cbn [andb]; [|eexists; reflexivity].
    destruct (ar_chunks response) as [[]|]; cbn [truthy_opt truthy reconstructChunkedResponse];
      try (eexists; reflexivity);
      try (destruct (negb (is_nil _)); eexists; reflexivity);
      try (destruct b; eexists; reflexivity);
      try (destruct (num_truthy _); eexists; reflexivity).
    destruct (array_join _ l) as [t|]; [exists t|exists []]; reflexivity. }
  destruct J as [joined J]. rewrite <- J. clear J.
  destruct (ar_isChunked response
            && match reconstructChunkedResponse (ar_chunks response) with
               | Throw => true
               | Ret _ => false
               end).
  { repeat split; reflexivity. }
  cbv zeta.
  set (agentResponse := combineMultipleResponses joined).
  destruct (success (parseAgentResponse Date_parse agentResponse)) eqn:S.
  - cbn [proposedSchedule sh_success sh_error errorMessage showResults
         hasScheduleError hasNoScheduleData orb negb]. auto.
  - cbn [proposedSchedule sh_success sh_schedule sh_error errorMessage].
    split; [reflexivity|]. split.
    + exists (text_or (error (parseAgentResponse Date_parse agentResponse))
                (txt "Unknown parsing error")).
      assert (N : text_or (error (parseAgentResponse Date_parse agentResponse))
                    (txt "Unknown parsing error") <> [])
        by (apply text_or_not_empty; discriminate).
      split; [exact N|]. split; [reflexivity|].
      apply T; [exact N|reflexivity|reflexivity].
    + eexists. split; [|reflexivity]. apply text_or_not_empty. discriminate.
Qed.

End Outcome.

(** ** An array of records through [combineMultipleResponses] *)

Lemma schedule_objects_plain l :
  Forall (fun r => plain_record r = true) l -> schedule_objects l = [].
Proof.
  induction l as [|r l IH]; intro F; [reflexivity|].
  inversion F as [|? ? Hr Hl]; subst. cbn [schedule_objects].
  unfold plain_record in Hr.
  destruct (JSON_parse r) as [[| | | | |m]|]; try discriminate.
  cbn [get_prop]. apply negb_true_iff in Hr. rewrite Hr. apply IH, Hl.
Qed.

Lemma array_text_fragments sep r rest tail :
  array_text ((sep, r) :: rest) tail
  = fragments_text ((c_lbrack :: sep, r) :: rest) (tail ++ [c_rbrack]).
Proof. reflexivity. Qed.

Lemma combine_array_text sep r rest tail :
  (1 <= length rest)%nat ->
  Forall fragment_ok ((sep, r) :: rest) ->
  forallb inert tail = true ->
  Forall (fun f => plain_record (snd f) = true) ((sep, r) :: rest) ->
  combineMultipleResponses (array_text ((sep, r) :: rest) tail) = r.
Proof.
  intros L F I P. unfold combineMultipleResponses.
  change (is_nil (array_text ((sep, r) :: rest) tail)) with false. cbv iota zeta.
  assert (C : clean_response (array_text ((sep, r) :: rest) tail)
              = array_text ((sep, r) :: rest) tail).
  { unfold array_text, fragments_text. rewrite app_assoc.
    apply clean_response_fix; reflexivity. }
  rewrite C, array_text_fragments.
  rewrite extract_fragments.
  - cbn [map snd length].
    replace (1 <? S (length (map snd rest)))%nat with true
      by (symmetry; apply Nat.ltb_lt; rewrite length_map; lia).
    unfold combineJsonObjects.
    change (r :: map snd rest) with (map snd ((sep, r) :: rest)).
    rewrite schedule_objects_plain; [reflexivity|].
    apply Forall_map. exact P.
  - inversion F as [|? ? [Hs Hr] Hrest]; subst. constructor; [|exact Hrest].
    split; [|exact Hr]. cbn [fst forallb]. cbn [fst] in Hs. rewrite Hs. reflexivity.
  - rewrite forallb_app, I. reflexivity.
Qed.

(** X17.  Given the text of an array of two or more object records,
    none with a truthy [schedule], [sessions] or [proposedSchedule],
    [combineMultipleResponses] returns the text of the first record
    alone. *)
Theorem combineMultipleResponses_keeps_first_record_of_array
  (sep r : text) (rest : list (text * text)) (tail : text) :
  (1 <= length rest)%nat ->
  Forall fragment_ok ((sep, r) :: rest) ->
  forallb inert tail = true ->
  Forall (fun f => plain_record (snd f) = true) ((sep, r) :: rest) ->
  combineMultipleResponses (array_text ((sep, r) :: rest) tail) = r.
Proof. apply combine_array_text. Qed.

Lemma combineMultipleResponses_keeps_first_record_of_array_witness :
  array_text two_plain_records []
  = js "[{'sessionName':'A','location':'Room1'},{'sessionName':'B','location':'Room2'}]"
  /\ combineMultipleResponses (array_text two_plain_records [])
     = js "{'sessionName':'A','location':'Room1'}".
Proof.
  split; [reflexivity|].
  apply (@combineMultipleResponses_keeps_first_record_of_array
           [] (js "{'sessionName':'A','location':'Room1'}")
           [(js ",", js "{'sessionName':'B','location':'Room2'}")] []).
  - cbn [length]. lia.
  - repeat constructor.
  - reflexivity.
  - repeat constructor.
Defined.

Section ArrayReply.

Variable Date_parse : JSON -> option Z.
Variables formatSessionDate formatSessionTime : Z -> text.


End ArrayReply.


(** ** Durations *)

Lemma uint_text_digits u : forallb is_digit (uint_text u) = true.
Proof. induction u; cbn [uint_text forallb]; try rewrite IHu; reflexivity. Qed.

Lemma uint_text_inj u : forall v, uint_text u = uint_text v -> u = v.
Proof.
  induction u; intros v H; destruct v; cbn [uint_text] in H;
    try discriminate; try reflexivity;
    injection H as H; f_equal; apply IHu; exact H.
Qed.

Lemma nat_text_inj a b : nat_text a = nat_text b -> a = b.
Proof.
  intro H. apply DecimalN.Unsigned.to_uint_inj, uint_text_inj, H.
Qed.

(** Two texts that start with digits followed by a space agree on the
    digits and on what follows the space. *)
Lemma digits_then_space a : forall b ra rb,
  forallb is_digit a = true -> forallb is_digit b = true ->
  a ++ 32 :: ra = b ++ 32 :: rb -> a = b /\ ra = rb.
Proof.
  induction a as [|x a IH]; intros [|y b] ra rb Ha Hb E; cbn [app forallb] in *.
  - injection E as ->. split; reflexivity.
  - injection E as <- _. discriminate.
  - injection E as -> _. discriminate.
  - injection E as -> E. apply andb_true_iff in Ha, Hb.
    destruct (IH b ra rb (proj2 Ha) (proj2 Hb) E) as [-> ->]. split; reflexivity.
Qed.

Lemma formatDuration_inj a b : formatDuration a = formatDuration b -> a = b.
Proof.
  unfold formatDuration.
  change (txt " min") with [32; 109; 105; 110].
  change (txt " hr") with [32; 104; 114].
  change (txt " hr ") with [32; 104; 114; 32].
  pose proof (N.div_mod a 60) as Da. pose proof (N.div_mod b 60) as Db.
  destruct (a <? 60) eqn:La, (b <? 60) eqn:Lb; cbv zeta;
    try destruct (a mod 60 =? 0) eqn:Ma; try destruct (b mod 60 =? 0) eqn:Mb;
    cbn [app]; intro E;
    apply digits_then_space in E; try apply uint_text_digits;
    destruct E as [E1 E2]; try discriminate; apply nat_text_inj in E1.
  all: try apply N.eqb_eq in Ma; try apply N.eqb_eq in Mb.
  all: try (injection E2 as E2; apply digits_then_space in E2;
            try apply uint_text_digits;
            destruct E2 as [E2 _]; apply nat_text_inj in E2).
  all: lia.
Qed.

(** X19.  [formatDuration] shows different numbers of minutes
    differently. *)
Theorem formatDuration_distinguishes_durations (a b : N) :
  a <> b -> formatDuration a <> formatDuration b.
Proof. intros H E. apply H, formatDuration_inj, E. Qed.

Lemma formatDuration_distinguishes_durations_witness :
  formatDuration 90 = txt "1 hr 30 min"
  /\ formatDuration 30 = txt "30 min"
  /\ formatDuration 90 <> formatDuration 30.
Proof.
  split; [reflexivity|]. split; [reflexivity|].
  apply formatDuration_distinguishes_durations. lia.
Defined.

(** [getSessionDuration] on some dates: a session of ninety minutes;
    a half minute is taken upwards; a session that ends before it
    starts has no duration; between the first and nearly the last date
    that JavaScript has, where the difference of the time values is
    not a double, the rounded one is divided. *)
Example getSessionDuration_examples :
  getSessionDuration 0 5400000 = 90
  /\ getSessionDuration 1000 90999 = 1
  /\ getSessionDuration 1000 91000 = 2
  /\ getSessionDuration 5400000 0 = 0
  /\ getSessionDuration (-8640000000000000) 8639999999969999 = 288000000000.
Proof. vm_compute. repeat split. Qed.

(** ** The escapes undone by [fix_escapes] *)

Lemma replaceAll_skip_absent c p r s :
  ~ In c s -> replaceAll_skip (c :: p) r 0 s = s.
Proof.
  induction s as [|x s IH]; intro H; [reflexivity|].
  cbn [replaceAll_skip startsWith].
  replace (x =? c) with false.
  - cbn [andb]. f_equal. apply IH. intro I. apply H. right. exact I.
  - symmetry. apply N.eqb_neq. intros ->. apply H. left. reflexivity.
Qed.

Lemma replaceAll_skip_length a b y s : forall k,
  (length (replaceAll_skip [a; b] [y] k s) + Nat.min k (length s)
   <= length s)%nat.
Proof.
  induction s as [|x s IH]; intro k; [destruct k; cbn; lia|].
  destruct k as [|k]; cbn [replaceAll_skip length Nat.min].
  - destruct (startsWith (x :: s) [a; b]) eqn:E.
    + cbn [app length Nat.pred]. specialize (IH 1%nat).
      assert (1 <= length s)%nat.
      { cbn [startsWith] in E. destruct s; [|cbn [length]; lia].
        apply andb_true_iff in E. destruct E as [_ E]. discriminate E. }
      lia.
    + cbn [length]. specialize (IH 0%nat). lia.
  - specialize (IH k). lia.
Qed.

Lemma replaceAll_two_length a b y s :
  (length (replaceAll [a; b] [y] s) <= length s)%nat.
Proof.
  unfold replaceAll. pose proof (replaceAll_skip_length a b y s 0). lia.
Qed.

(** X21.  [fix_escapes], the five [replace] calls that undo the escapes
    of a wrapper value, never lengthens a text and leaves a text
    without backslash unchanged. *)
Theorem fix_escapes_only_removes_backslashes (s : text) :
  (length (fix_escapes s) <= length s)%nat
  /\ (no_backslash s -> fix_escapes s = s).
Proof.
  split.
  - unfold fix_escapes. cbv zeta.
    change (txt "\n") with [c_bslash; 110].
    change (txt "\t") with [c_bslash; 116].
    change (txt "\r") with [c_bslash; 114].
    change (txt "\\") with [c_bslash; c_bslash].
    change (txt "\") with [c_bslash].
    repeat (etransitivity; [apply replaceAll_two_length|]). reflexivity.
  - intro H. unfold fix_escapes, replaceAll. cbv zeta.
    change (txt "\n") with (c_bslash :: [110]).
    change (txt "\t") with (c_bslash :: [116]).
    change (txt "\r") with (c_bslash :: [114]).
    change (txt "\\") with (c_bslash :: [c_bslash]).
    unfold no_backslash in H.
    rewrite (@replaceAll_skip_absent c_bslash [110] [10] s H).
    rewrite (@replaceAll_skip_absent c_bslash [116] [9] s H).
    rewrite (@replaceAll_skip_absent c_bslash [114] [13] s H).
    rewrite (@replaceAll_skip_absent c_bslash [c_quote] [c_quote] s H).
    apply (@replaceAll_skip_absent c_bslash [c_bslash] (txt "\") s H).
Qed.

(** ** A response that parses as an array *)

Lemma location_values_total sched :
  ~ In JNull sched -> exists locs, location_values sched = Ret locs.
Proof.
  induction sched as [|s r IH]; intro N; [exists []; reflexivity|].
  destruct IH as [l El]; [intro I; apply N; right; exact I|].
  cbn [location_values]. rewrite El.
  destruct s; try (eexists; reflexivity).
  - exfalso. apply N. left. reflexivity.
  - cbn [get_prop]. destruct (obj_get (txt "location") m); eexists; reflexivity.
Qed.

(** X22.  A response without the wrapper markers that [JSON.parse]
    accepts as an array, whose first entry has a truthy [sessionName]
    and none of whose entries is [null] or has a truthy [startTime] or
    [endTime] that [new Date] cannot convert, is returned as parsed:
    [schedule] is that array, nothing is defaulted, and the result is
    not marked partial. *)
Theorem parseAgentResponse_returns_parsed_array
  (Date_parse : JSON -> option Z) (s : text) (first : JSON) (rest : list JSON)
  (name : JSON) :
  has_wrapper_markers s = false ->
  JSON_parse s = Some (JArr (first :: rest)) ->
  get_prop first "sessionName" = Ret (Some name) -> truthy name = true ->
  Forall (fun item => times_convert item = true) (first :: rest) ->
  success (parseAgentResponse Date_parse s) = true
  /\ schedule (parseAgentResponse Date_parse s) = Some (first :: rest)
  /\ isPartial (parseAgentResponse Date_parse s) = None
  /\ rawResponse (parseAgentResponse Date_parse s) = None
  /\ note (parseAgentResponse Date_parse s)
     = Some (txt "Schedule data parsed successfully").
Proof.
  intros W P G T F.
  assert (N' : ~ In JNull (first :: rest)).
  { intro I. rewrite Forall_forall in F. discriminate (F JNull I). }
  destruct (@location_values_total (first :: rest) N') as [locs L].
  destruct (@calculateTimeRange_converts Date_parse (first :: rest) no_range F)
    as [tr C].
  change (calculateTimeRange Date_parse (first :: rest) = Ret tr) in C.
  unfold parseAgentResponse.
  destruct s as [|c s']; [vm_compute in P; discriminate|].
  cbn [is_nil]. rewrite W. unfold parse_plain. rewrite P, G.
  cbn [truthy_opt]. rewrite T. unfold parsed_success. rewrite L, C.
  repeat split.
Qed.

Lemma parseAgentResponse_returns_parsed_array_witness :
  JSON_parse two_rooms
  = Some (JArr [JObj [(txt "sessionName", JStr (txt "A")); (txt "location", JStr (txt "Room1"))];
                JObj [(txt "sessionName", JStr (txt "B")); (txt "location", JStr (txt "Room1"))];
                JObj [(txt "sessionName", JStr (txt "C")); (txt "location", JStr (txt "Room2"))]])
  /\ success (parseAgentResponse no_dates two_rooms) = true
  /\ schedule (parseAgentResponse no_dates two_rooms)
     = Some [JObj [(txt "sessionName", JStr (txt "A")); (txt "location", JStr (txt "Room1"))];
             JObj [(txt "sessionName", JStr (txt "B")); (txt "location", JStr (txt "Room1"))];
             JObj [(txt "sessionName", JStr (txt "C")); (txt "location", JStr (txt "Room2"))]]
  /\ isPartial (parseAgentResponse no_dates two_rooms) = None
  /\ rawResponse (parseAgentResponse no_dates two_rooms) = None
  /\ note (parseAgentResponse no_dates two_rooms)
     = Some (txt "Schedule data parsed successfully").
Proof.
  assert (P : JSON_parse two_rooms
    = Some (JArr [JObj [(txt "sessionName", JStr (txt "A")); (txt "location", JStr (txt "Room1"))];
                  JObj [(txt "sessionName", JStr (txt "B")); (txt "location", JStr (txt "Room1"))];
                  JObj [(txt "sessionName", JStr (txt "C")); (txt "location", JStr (txt "Room2"))]]))
    by (vm_compute; reflexivity).
  split; [exact P|].
  apply (@parseAgentResponse_returns_parsed_array no_dates two_rooms _ _
           (JStr (txt "A"))).
  - vm_compute. reflexivity.
  - exact P.
  - reflexivity.
  - reflexivity.
  - repeat constructor.
Defined.

(** ** The locations of a result *)

Lemma distinct_values_snoc s v :
  distinct_values s -> existsb (same_value v) s = false ->
  distinct_values (s ++ [v]).
Proof.
  induction s as [|a r IH]; intros D E; cbn [app distinct_values].
  - split; constructor.
  - cbn [existsb] in E. apply orb_false_iff in E. destruct E as [E1 E2].
    destruct D as [D1 D2]. split; [|apply IH; assumption].
    apply Forall_app. split; [exact D1|]. constructor; [exact E1|constructor].
Qed.

Lemma set_add_distinct s v : distinct_values s -> distinct_values (set_add s v).
Proof.
  intro D. unfold set_add. destruct (existsb (same_value v) s) eqn:E; [exact D|].
  apply distinct_values_snoc; assumption.
Qed.

Lemma set_add_all P s v :
  Forall P s -> P v -> Forall P (set_add s v).
Proof.
  intros Hs Hv. unfold set_add. destruct (existsb (same_value v) s); [exact Hs|].
  apply Forall_app. split; [exact Hs|]. constructor; [exact Hv|constructor].
Qed.

Lemma fold_set_add (P : JSON -> Prop) l : forall s,
  distinct_values s -> Forall P s -> Forall P l ->
  distinct_values (fold_left set_add l s) /\ Forall P (fold_left set_add l s).
Proof.
  induction l as [|v l IH]; intros s D Hs Hl; [split; assumption|].
  inversion Hl; subst. cbn [fold_left].
  apply IH; [apply set_add_distinct, D|apply set_add_all; assumption|assumption].
Qed.

Lemma location_values_truthy sched : forall locs,
  location_values sched = Ret locs -> Forall (fun v => truthy v = true) locs.
Proof.
  induction sched as [|s r IH]; intros locs H; cbn [location_values] in H.
  - injection H as <-. constructor.
  - destruct (get_prop s "location") as [[v|]|]; try discriminate;
      destruct (location_values r) as [l|]; try discriminate;
      injection H as <-; specialize (IH l eq_refl); [|exact IH].
    destruct (truthy v) eqn:T; [constructor; assumption|exact IH].
Qed.

Lemma fold_set_add_length l : forall s,
  (length (fold_left set_add l s) <= length s + length l)%nat.
Proof.
  induction l as [|v l IH]; intro s; cbn [fold_left length]; [lia|].
  specialize (IH (set_add s v)). unfold set_add in *.
  destruct (existsb (same_value v) s); [lia|].
  rewrite length_app in IH. cbn [length] in IH. lia.
Qed.

Lemma location_values_length sched : forall locs,
  location_values sched = Ret locs -> (length locs <= length sched)%nat.
Proof.
  induction sched as [|s r IH]; intros locs H; cbn [location_values] in H.
  - injection H as <-. cbn [length]. lia.
  - destruct (get_prop s "location") as [[v|]|]; try discriminate;
      destruct (location_values r) as [l|]; try discriminate;
      injection H as <-; specialize (IH l eq_refl);
      [destruct (truthy v)|]; cbn [length]; lia.
Qed.

(** X23.  The [locations] of a successful result of
    [parseAgentResponse] hold only truthy values, none of them twice,
    and never more values than the schedule has sessions. *)
Theorem parseAgentResponse_locations_are_distinct
  (Date_parse : JSON -> option Z) (s : text) :
  success (parseAgentResponse Date_parse s) = true ->
  exists locs n,
    locations (parseAgentResponse Date_parse s) = Some locs
    /\ totalSessions (parseAgentResponse Date_parse s) = Some n
    /\ distinct_values locs
    /\ Forall (fun v => truthy v = true) locs
    /\ (length locs <= n)%nat.
Proof.
  intro H.
  destruct (parseAgentResponse_summary Date_parse s H)
    as (sched & ls & tr & _ & T & L & E & _).
  exists (set_of_list ls), (length sched).
  split; [exact E|]. split; [exact T|].
  destruct (@fold_set_add (fun v => truthy v = true) ls [] I (Forall_nil _)
              (@location_values_truthy sched ls L)) as [D F].
  split; [exact D|]. split; [exact F|].
  pose proof (fold_set_add_length ls []) as A.
  pose proof (@location_values_length sched ls L) as B.
  unfold set_of_list. cbn [length] in A. lia.
Qed.

Lemma parseAgentResponse_locations_are_distinct_witness :
  locations (parseAgentResponse no_dates two_rooms)
  = Some [JStr (txt "Room1"); JStr (txt "Room2")]
  /\ exists locs n,
       locations (parseAgentResponse no_dates two_rooms) = Some locs
       /\ totalSessions (parseAgentResponse no_dates two_rooms) = Some n
       /\ distinct_values locs
       /\ Forall (fun v => truthy v = true) locs
       /\ (length locs <= n)%nat.
Proof.
  split; [vm_compute; reflexivity|].
  apply parseAgentResponse_locations_are_distinct. vm_compute. reflexivity.
Defined.

(** ** The rows of recovered slots *)

Lemma defaulted_truthy d v : truthy d = true -> defaulted d v -> truthy v = true.
Proof. intros Hd [->|H]; assumption. Qed.

Section RecoveredRows.

Variable Date_parse : JSON -> option Z.
Variables formatSessionDate formatSessionTime : Z -> text.

(** X24.  For a slot completed by [extractPartialScheduleData], the row
    that [formattedScheduleForDisplay] builds shows the slot's own
    [sessionName], [location], [format], [focus] and [sessionAbstract]
    (never the placeholders "Unnamed Session", "Unknown Location",
    "Unknown Format", "No Focus Specified", "No abstract available"),
    and the text that [formatSpeakersForDisplay] makes of the slot's
    own [speakers]; when [formatSpeakersForDisplay] throws on them, no
    row is built and the exception leaves the getter. *)
Theorem recovered_slot_is_shown_as_recovered (slot : JSON) :
  complete_slot slot ->
  exists speakers,
    get_prop slot "speakers" = Ret (Some speakers)
    /\ match formatSpeakersForDisplay speakers with
       | Ret speakersText =>
           exists r,
             format_session Date_parse formatSessionDate formatSessionTime slot
             = Ret r
             /\ get_prop slot "sessionName" = Ret (Some (row_sessionName r))
             /\ get_prop slot "location" = Ret (Some (row_location r))
             /\ get_prop slot "format" = Ret (Some (row_format r))
             /\ get_prop slot "focus" = Ret (Some (row_focus r))
             /\ get_prop slot "sessionAbstract" = Ret (Some (row_sessionAbstract r))
             /\ displaySpeakers r = speakersText
       | Throw =>
           format_session Date_parse formatSessionDate formatSessionTime slot
           = Throw
       end.
Proof.
  intros (name & loc & speakers & startTime & endTime & format & focus & abstract
          & -> & Tn & Tl & Ds & _ & _ & Df & Dc & Da).
  pose proof (@defaulted_truthy speaker_tbd speakers eq_refl Ds) as Ts.
  pose proof (@defaulted_truthy default_format format eq_refl Df) as Tf.
  pose proof (@defaulted_truthy default_focus focus eq_refl Dc) as Tc.
  pose proof (@defaulted_truthy default_abstract abstract eq_refl Da) as Ta.
  exists speakers. split; [reflexivity|].
  unfold format_session, get_prop, or_opt, or_else, truthy_opt.
  repeat match goal with
    | |- context [obj_get ?k ?l] =>
        let v := eval vm_compute in (obj_get k l) in
        change (obj_get k l) with v
    end.
  do 3 (cbv beta iota; rewrite ?Tn, ?Tl, ?Ts, ?Tf, ?Tc, ?Ta).
  destruct (session_times Date_parse (Some startTime) (Some endTime)) as [a b].
  destruct (formatSpeakersForDisplay speakers) as [speakersText|];
    [|reflexivity].
  eexists. split; [reflexivity|].
  cbn [row_sessionName row_location row_format row_focus row_sessionAbstract
       displaySpeakers].
  repeat split; reflexivity.
Qed.

End RecoveredRows.

Lemma recovered_slot_is_shown_as_recovered_witness :
  complete_slot slot_A
  /\ exists r,
       format_session no_dates no_format no_format slot_A = Ret r
       /\ row_sessionName r = JStr (txt "A")
       /\ displaySpeakers r = txt "Speaker TBD".
Proof.
  assert (C : complete_slot slot_A).
  { do 8 eexists. split; [reflexivity|].
    repeat split; try reflexivity; left; reflexivity. }
  split; [exact C|].
  destruct (recovered_slot_is_shown_as_recovered no_dates no_format no_format C)
    as (speakers & E & H).
  injection E as <-. cbn in H.
  destruct H as (r & F & N & _ & _ & _ & _ & S).
  exists r. split; [exact F|]. split; [|exact S].
  injection N as <-. reflexivity.
Defined.

(** ** Text around the payload *)

Lemma dropWhile_app_stop {A} (f : A -> bool) p x r :
  f x = false ->
  exists p0 p', p = p0 ++ p' /\ dropWhile f (p ++ x :: r) = p' ++ x :: r.
Proof.
  intro Hx. induction p as [|a p IH]; cbn [app dropWhile].
  - exists [], []. rewrite Hx. split; reflexivity.
  - destruct (f a).
    + destruct IH as (p0 & p' & E & D). exists (a :: p0), p'.
      split; [rewrite E; reflexivity|exact D].
    + exists [], (a :: p). split; reflexivity.
Qed.

Lemma dropWhile_app_all {A} (f : A -> bool) p x r :
  forallb f p = true -> f x = false -> dropWhile f (p ++ x :: r) = x :: r.
Proof.
  intros Hp Hx. induction p as [|a p IH]; cbn [app dropWhile forallb] in *.
  - rewrite Hx. reflexivity.
  - apply andb_true_iff in Hp. destruct Hp as [Ha Hp]. rewrite Ha. apply IH, Hp.
Qed.

Lemma dropWhileEnd_app_all {A} (f : A -> bool) a x t :
  forallb f t = true -> f x = false ->
  dropWhileEnd f ((a ++ [x]) ++ t) = a ++ [x].
Proof.
  intros Ht Hx. induction t as [|y t IH] using rev_ind.
  - rewrite app_nil_r. apply dropWhileEnd_fix, Hx.
  - rewrite forallb_app in Ht. apply andb_true_iff in Ht. destruct Ht as [Ht Hy].
    cbn [forallb] in Hy. rewrite andb_true_r in Hy.
    rewrite app_assoc, dropWhileEnd_snoc, Hy. apply IH, Ht.
Qed.

Lemma clean_response_around pre core post :
  forallb (fun c => negb (is_json_starter c)) pre = true ->
  forallb (fun c => negb (is_json_ender c)) post = true ->
  json_shaped core ->
  clean_response (pre ++ core ++ post) = core.
Proof.
  intros Hpre Hpost (x & mid & y & Hc & Hx & Hy).
  assert (Sx : is_space x = false) by (apply starter_not_space, Hx).
  assert (Sy : is_space y = false) by (apply ender_not_space, Hy).
  assert (E : exists body, core = x :: body /\ exists a, x :: body = a ++ [y]).
  { destruct Hc as [->|[-> ->]].
    - exists (mid ++ [y]). split; [reflexivity|]. exists (x :: mid). reflexivity.
    - exists []. split; [reflexivity|]. exists []. reflexivity. }
  destruct E as (body & -> & a & Ea).
  unfold clean_response, trim.
  destruct (@dropWhile_app_stop _ is_space pre x (body ++ post) Sx)
    as (p0 & p' & Ep & D).
  change ((x :: body) ++ post) with (x :: body ++ post). rewrite D.
  assert (Hp' : forallb (fun c => negb (is_json_starter c)) p' = true).
  { rewrite Ep, forallb_app in Hpre. apply andb_true_iff in Hpre. apply Hpre. }
  change (p' ++ x :: body ++ post) with (p' ++ (x :: body) ++ post).
  rewrite Ea. rewrite !app_assoc.
  destruct (@dropWhileEnd_app_keep _ is_space (p' ++ a) y post Sy)
    as (t' & Et & t'' & Epost).
  rewrite Et.
  assert (Ht' : forallb (fun c => negb (is_json_ender c)) t' = true).
  { rewrite Epost, forallb_app in Hpost. apply andb_true_iff in Hpost. apply Hpost. }
  replace (((p' ++ a) ++ [y]) ++ t') with (p' ++ x :: body ++ t')
    by (change (x :: body ++ t') with ((x :: body) ++ t'); rewrite Ea;
        rewrite <- !app_assoc; reflexivity).
  rewrite dropWhile_app_all; [|exact Hp'|rewrite Hx; reflexivity].
  change (x :: body ++ t') with ((x :: body) ++ t'). rewrite Ea.
  apply dropWhileEnd_app_all; [exact Ht'|rewrite Hy; reflexivity].
Qed.

(** X25.  Text in front of the payload that holds no opening brace,
    opening bracket or double quote, and text after it that holds no
    closing brace, closing bracket or double quote, is ignored: the
    cleaning prologue returns the payload, so that
    [combineMultipleResponses] and [extractPartialScheduleData] give
    what they give on the payload alone. *)
Theorem text_around_the_payload_is_ignored
  (Date_parse : JSON -> option Z) (pre core post : text) :
  forallb (fun c => negb (is_json_starter c)) pre = true ->
  forallb (fun c => negb (is_json_ender c)) post = true ->
  json_shaped core ->
  clean_response (pre ++ core ++ post) = core
  /\ combineMultipleResponses (pre ++ core ++ post) = combineMultipleResponses core
  /\ extractPartialScheduleData Date_parse (pre ++ core ++ post)
     = extractPartialScheduleData Date_parse core.
Proof.
  intros Hpre Hpost Hc.
  pose proof (clean_response_around pre post Hpre Hpost Hc) as E.
  assert (E0 : clean_response core = core).
  { apply (@clean_response_around [] core []) in Hc; [|reflexivity|reflexivity].
    cbn [app] in Hc. rewrite app_nil_r in Hc. exact Hc. }
  split; [exact E|]. split.
  - unfold combineMultipleResponses. rewrite E, E0.
    destruct Hc as (x & mid & y & [->|[-> ->]] & _);
      destruct pre; reflexivity.
  - unfold extractPartialScheduleData. rewrite E, E0. reflexivity.
Qed.

Lemma text_around_the_payload_is_ignored_witness :
  clean_response (js "Here is the schedule: [{'sessionName':'A','location':'Room1'}] I hope it helps.")
  = js "[{'sessionName':'A','location':'Room1'}]"
  /\ combineMultipleResponses (js "Here is the schedule: [{'sessionName':'A','location':'Room1'}] I hope it helps.")
     = combineMultipleResponses (js "[{'sessionName':'A','location':'Room1'}]")
  /\ extractPartialScheduleData no_dates (js "Here is the schedule: [{'sessionName':'A','location':'Room1'}] I hope it helps.")
     = extractPartialScheduleData no_dates (js "[{'sessionName':'A','location':'Room1'}]").
Proof.
  apply (@text_around_the_payload_is_ignored no_dates
           (js "Here is the schedule: ")
           (js "[{'sessionName':'A','location':'Room1'}]")
           (js " I hope it helps.")).
  - reflexivity.
  - reflexivity.
  - exists c_lbrack, (js "{'sessionName':'A','location':'Room1'}"), c_rbrack.
    split; [left; reflexivity|]. split; reflexivity.
Defined.
